(** * RPKI certificate core: resource extensions, assembly, transport, indexes

    A shallow embedding of the certificate part of [src/usr.bin/sndiod/sndiod.c]
    ([append_ip] ... [brkcmp]) and the properties of its specification.

    Conventions of the embedding.
    - C integers are [Z]; sizes and counts are [Z.of_nat (length _)].
    - A [char *] is an [option string]: [None] is the null pointer.
    - Functions that return zero on failure and mutate [struct parse] return
      an [option parse]; the state is discarded on failure, as [cert_free]
      does in the source.
    - [outcome] separates a returned value from the end of the process
      ([err], [cryptoerrx], a failed [assert], a null dereference).
    - OpenSSL objects are opaque handles; everything the source asks of them
      goes through the collaborator interface [Extern].
    - [warnx] diagnostics are advisory and are modelled only where a
      property mentions them ([cert_insert_brks]). *)

From Stdlib Require Import ZArith Lia String Ascii List Bool.
From Stdlib.Strings Require Import Byte.
From stdpp Require Import base option list gmap strings.

Local Open Scope Z_scope.

(** ** Basic data *)

Definition bytes := list byte.

Inductive outcome (A : Type) : Type :=
| Fatal
| Done (a : A).
Arguments Fatal {A}.
Arguments Done {A} a.

Global Instance outcome_ret : MRet outcome := fun _ a => Done a.
Global Instance outcome_bind : MBind outcome := fun _ _ f m =>
  match m with
  | Fatal => Fatal
  | Done a => f a
  end.

(** Opaque library objects. *)
Inductive X509 : Set := X509_at (h : N).
Inductive X509_EXTENSION : Set := X509_EXTENSION_at (h : N).
Inductive EVP_PKEY : Set := EVP_PKEY_at (h : N).
Inductive ASN1_OBJECT : Set := ASN1_OBJECT_at (h : N).
Inductive ASN1_TIME : Set := ASN1_TIME_at (h : N).
Inductive GENERAL_NAME : Set := GENERAL_NAME_at (h : N).
Definition ASN1_INTEGER := bytes.
Definition ASN1_BIT_STRING := bytes.

(** One decoded [ASN1_TYPE]: the tag the source switches on, and the value
    member it reads for that tag. *)
Inductive ASN1_TYPE : Type :=
| V_ASN1_NULL
| V_ASN1_BOOLEAN
| V_ASN1_OBJECT
| V_ASN1_INTEGER (integer : ASN1_INTEGER)
| V_ASN1_BIT_STRING (bit_string : ASN1_BIT_STRING)
| V_ASN1_OCTET_STRING (data : bytes)
| V_ASN1_SEQUENCE (data : bytes)
| V_ASN1_OTHER (data : bytes)
| V_ASN1_tag (t : Z).

Inductive nid : Set :=
| NID_sbgp_ipAddrBlock
| NID_sbgp_autonomousSysNum
| NID_sinfo_access
| NID_certificate_policies
| NID_crl_distribution_points
| NID_info_access
| NID_authority_key_identifier
| NID_subject_key_identifier
| NID_ext_key_usage
| NID_id_qt_cps
| NID_undef (n : Z).

Inductive rtype : Set :=
| RTYPE_INVALID | RTYPE_TAL | RTYPE_MFT | RTYPE_ROA | RTYPE_CER
| RTYPE_CRL | RTYPE_GBR.

Inductive cert_purpose : Set :=
| CERT_PURPOSE_INVALID
| CERT_PURPOSE_CA
| CERT_PURPOSE_BGPSEC_ROUTER.

(** Type of ASIdentifier (RFC 3779, 3.2.3). *)
Definition ASID_TYPE_ASNUM : Z := 0.
Definition ASID_TYPE_RDI : Z := 1.
Definition ASID_TYPE_MAX : Z := ASID_TYPE_RDI.

(** ** Resource entries

    [struct cert_as] and [struct cert_ip] are declared in [extern.h], which
    is not part of the sources at hand; their shape is taken from the
    members the source reads and writes ([as.type], [as.id], [as.range.min],
    [as.range.max]; [ip->afi], [ip->type], [ip->ip], [ip->range.min],
    [ip->range.max]) and from the data model of the specification. *)

Inductive cert_as : Type :=
| CERT_AS_ID (id : Z)
| CERT_AS_RANGE (min max : Z)
| CERT_AS_INHERIT.

Inductive afi : Set := AFI_IPV4 | AFI_IPV6.

Inductive cert_ip_type : Set := CERT_IP_ADDR | CERT_IP_RANGE | CERT_IP_INHERIT.

Record ip_addr : Type := { addr : Z; prefixlen : Z }.

(** The union of [ip] and [range] shares its storage: [ip] is laid over
    [range.min]. [ip_min] and [ip_max] are the 128-bit capable bounds,
    read as big-endian numbers (the order of [memcmp]). *)
Record cert_ip : Type := {
  ip_afi : afi;
  ip_type : cert_ip_type;
  ip_min : Z;
  ip_max : Z;
  ip_range_min : ip_addr;
  ip_range_max : ip_addr
}.

Definition ip_zero : ip_addr := {| addr := 0; prefixlen := 0 |}.

Definition set_ip_type (t : cert_ip_type) (ip : cert_ip) : cert_ip :=
  {| ip_afi := ip_afi ip; ip_type := t; ip_min := ip_min ip;
     ip_max := ip_max ip; ip_range_min := ip_range_min ip;
     ip_range_max := ip_range_max ip |}.

Definition set_ip_ip (a : ip_addr) (ip : cert_ip) : cert_ip :=
  {| ip_afi := ip_afi ip; ip_type := ip_type ip; ip_min := ip_min ip;
     ip_max := ip_max ip; ip_range_min := a;
     ip_range_max := ip_range_max ip |}.

Definition set_ip_range_max (a : ip_addr) (ip : cert_ip) : cert_ip :=
  {| ip_afi := ip_afi ip; ip_type := ip_type ip; ip_min := ip_min ip;
     ip_max := ip_max ip; ip_range_min := ip_range_min ip;
     ip_range_max := a |}.

(** ** The certificate record and the parse state *)

Record cert : Type := {
  ips : list cert_ip;
  as_ : list cert_as;
  repo : option string;
  mft : option string;
  notify : option string;
  crl : option string;
  aia : option string;
  aki : option string;
  ski : option string;
  talid : Z;
  purpose : cert_purpose;
  pubkey : option string;
  x509 : option X509;
  expires : Z
}.

Definition ipsz (c : cert) : Z := Z.of_nat (length (ips c)).
Definition asz (c : cert) : Z := Z.of_nat (length (as_ c)).

(** [calloc(1, sizeof(struct cert))]. *)
Definition cert_zero : cert :=
  {| ips := []; as_ := []; repo := None; mft := None; notify := None;
     crl := None; aia := None; aki := None; ski := None; talid := 0;
     purpose := CERT_PURPOSE_INVALID; pubkey := None; x509 := None;
     expires := 0 |}.

Record parse : Type := {
  res : cert;   (* result *)
  fn : string   (* currently-parsed file *)
}.

Definition with_res (p : parse) (c : cert) : parse :=
  {| res := c; fn := fn p |}.

Definition set_ips (l : list cert_ip) (c : cert) : cert :=
  {| ips := l; as_ := as_ c; repo := repo c; mft := mft c;
     notify := notify c; crl := crl c; aia := aia c; aki := aki c;
     ski := ski c; talid := talid c; purpose := purpose c;
     pubkey := pubkey c; x509 := x509 c; expires := expires c |}.

Definition set_as (l : list cert_as) (c : cert) : cert :=
  {| ips := ips c; as_ := l; repo := repo c; mft := mft c;
     notify := notify c; crl := crl c; aia := aia c; aki := aki c;
     ski := ski c; talid := talid c; purpose := purpose c;
     pubkey := pubkey c; x509 := x509 c; expires := expires c |}.

Definition set_repo (s : option string) (c : cert) : cert :=
  {| ips := ips c; as_ := as_ c; repo := s; mft := mft c;
     notify := notify c; crl := crl c; aia := aia c; aki := aki c;
     ski := ski c; talid := talid c; purpose := purpose c;
     pubkey := pubkey c; x509 := x509 c; expires := expires c |}.

Definition set_mft (s : option string) (c : cert) : cert :=
  {| ips := ips c; as_ := as_ c; repo := repo c; mft := s;
     notify := notify c; crl := crl c; aia := aia c; aki := aki c;
     ski := ski c; talid := talid c; purpose := purpose c;
     pubkey := pubkey c; x509 := x509 c; expires := expires c |}.

Definition set_notify (s : option string) (c : cert) : cert :=
  {| ips := ips c; as_ := as_ c; repo := repo c; mft := mft c;
     notify := s; crl := crl c; aia := aia c; aki := aki c;
     ski := ski c; talid := talid c; purpose := purpose c;
     pubkey := pubkey c; x509 := x509 c; expires := expires c |}.

Definition set_pubkey (s : option string) (c : cert) : cert :=
  {| ips := ips c; as_ := as_ c; repo := repo c; mft := mft c;
     notify := notify c; crl := crl c; aia := aia c; aki := aki c;
     ski := ski c; talid := talid c; purpose := purpose c;
     pubkey := s; x509 := x509 c; expires := expires c |}.

Definition set_x509 (x : option X509) (c : cert) : cert :=
  {| ips := ips c; as_ := as_ c; repo := repo c; mft := mft c;
     notify := notify c; crl := crl c; aia := aia c; aki := aki c;
     ski := ski c; talid := talid c; purpose := purpose c;
     pubkey := pubkey c; x509 := x; expires := expires c |}.

(** ** Collaborators

    The functions of the surrounding system and of the ASN.1/X.509 library
    that the source calls. A call that reports failure returns [None]; a
    call that succeeds and leaves a null pointer returns [Some None]. *)

Record ACCESS_DESCRIPTION : Type := {
  method : ASN1_OBJECT;
  location : GENERAL_NAME
}.

Record POLICYQUALINFO : Type := { pqualid : ASN1_OBJECT }.

Record POLICYINFO : Type := {
  policyid : ASN1_OBJECT;
  qualifiers : option (list POLICYQUALINFO)
}.

Class Extern : Type := {
  (* limits of extern.h *)
  MAX_IP_SIZE : Z;
  MAX_AS_SIZE : Z;
  (* object identifiers set up by the caller *)
  certpol_oid : ASN1_OBJECT;
  carepo_oid : ASN1_OBJECT;
  manifest_oid : ASN1_OBJECT;
  notify_oid : ASN1_OBJECT;
  OBJ_cmp : ASN1_OBJECT -> ASN1_OBJECT -> Z;
  OBJ_obj2nid : ASN1_OBJECT -> nid;
  (* ASN.1 decoding *)
  d2i_ASN1_SEQUENCE_ANY : bytes -> option (list ASN1_TYPE);
  d2i_ASN1_TYPE : bytes -> option ASN1_TYPE;
  ASN1_frame : bytes -> option (bytes * Z);  (* the plen content bytes, ptag *)
  (* extensions *)
  X509_EXTENSION_get_critical : X509_EXTENSION -> bool;
  X509_EXTENSION_get_object : X509_EXTENSION -> ASN1_OBJECT;
  i2d_X509_EXTENSION : X509_EXTENSION -> option bytes;
  X509V3_EXT_d2i_sia : X509_EXTENSION -> option (list ACCESS_DESCRIPTION);
  X509V3_EXT_d2i_policies : X509_EXTENSION -> option (list POLICYINFO);
  (* resources *)
  as_id_parse : ASN1_INTEGER -> option Z;
  ip_addr_afi_parse : bytes -> option afi;
  ip_addr_parse : ASN1_BIT_STRING -> afi -> option ip_addr;
  ip_cert_compose_ranges : cert_ip -> option cert_ip;
  (* locators *)
  x509_location :
    string -> string -> GENERAL_NAME -> option string -> option (option string);
  rtype_from_file_extension : string -> rtype;
  (* the certificate *)
  d2i_X509 : bytes -> option X509;
  X509_get_ext_count : X509 -> Z;
  X509_get_ext : X509 -> Z -> X509_EXTENSION;
  x509_get_aki : X509 -> option (option string);
  x509_get_ski : X509 -> option (option string);
  x509_get_aia : X509 -> option (option string);
  x509_get_crl : X509 -> option (option string);
  x509_get_expire : X509 -> option Z;
  x509_get_purpose : X509 -> cert_purpose;
  x509_get_pubkey : X509 -> option string;
  (* trust anchors *)
  d2i_PUBKEY : bytes -> option EVP_PKEY;
  X509_get0_pubkey : option X509 -> option EVP_PKEY;
  EVP_PKEY_cmp : EVP_PKEY -> EVP_PKEY -> Z;
  X509_get_notBefore : option X509 -> option ASN1_TIME;
  X509_get_notAfter : option X509 -> option ASN1_TIME;
  ASN1_TIME_seconds : ASN1_TIME -> option Z;
  current_time : Z
}.

(** ** Loops

    [for (i = 0; i < n; i++) { ...; if (!f(p, item_i)) goto out; }]:
    the body runs on each item in order and the first failure ends the
    loop with failure. *)
Fixpoint for_each {S A : Type} (body : S -> A -> option S) (l : list A)
    (s : S) : option S :=
  match l with
  | [] => Some s
  | x :: l' =>
      match body s x with
      | None => None
      | Some s' => for_each body l' s'
      end
  end.

(** ** Overlap checks *)

Definition afi_eqb (a b : afi) : bool :=
  match a, b with
  | AFI_IPV4, AFI_IPV4 | AFI_IPV6, AFI_IPV6 => true
  | _, _ => false
  end.

Definition ip_is_inherit (ip : cert_ip) : bool :=
  match ip_type ip with CERT_IP_INHERIT => true | _ => false end.

(** Two closed address ranges share an address. *)
Definition ip_ranges_overlap (a b : cert_ip) : bool :=
  (ip_min a <=? ip_max b) && (ip_min b <=? ip_max a).

(** [e], already in the list, and [ip] may not stand together. *)
Definition ip_conflict (ip e : cert_ip) : bool :=
  afi_eqb (ip_afi e) (ip_afi ip) &&
  (ip_is_inherit e || ip_is_inherit ip || ip_ranges_overlap e ip).

(** Modelled from the spec: [ip_addr_check_overlap] of ip.c, which is not
    among the sources. Section 4.1: on insertion there is at most one
    inherit statement per address family, and no two entries for one family
    may overlap; section 3: the entries of one family are a single inherit
    marker or non-overlapping prefix/range entries. Returns [true] when
    [ip] may be appended to [ips]. *)
Definition spec_ip_addr_check_overlap (ip : cert_ip) (ips : list cert_ip)
    : bool :=
  forallb (fun e => negb (ip_conflict ip e)) ips.

Definition as_is_inherit (a : cert_as) : bool :=
  match a with CERT_AS_INHERIT => true | _ => false end.

(** The AS identifiers an entry covers, as a closed interval. *)
Definition as_lo (a : cert_as) : Z :=
  match a with
  | CERT_AS_ID id => id
  | CERT_AS_RANGE min _ => min
  | CERT_AS_INHERIT => 0
  end.

Definition as_hi (a : cert_as) : Z :=
  match a with
  | CERT_AS_ID id => id
  | CERT_AS_RANGE _ max => max
  | CERT_AS_INHERIT => 0
  end.

(** The AS identifier [id] is one of those the entry names. *)
Definition as_covers (a : cert_as) (id : Z) : Prop :=
  match a with
  | CERT_AS_ID i => id = i
  | CERT_AS_RANGE min max => min <= id <= max
  | CERT_AS_INHERIT => False
  end.

Definition as_ranges_overlap (a b : cert_as) : bool :=
  (as_lo a <=? as_hi b) && (as_lo b <=? as_hi a).

Definition as_conflict (a e : cert_as) : bool :=
  as_is_inherit e || as_is_inherit a || as_ranges_overlap e a.

(** Modelled from the spec: [as_check_overlap] of as.c, which is not among
    the sources. Section 4.1: the same overlap and single-inherit rules as
    for IP, collapsed to one AS-number space; section 3: entries are
    pairwise non-overlapping and inherit excludes explicit entries.
    Returns [true] when [a] may be appended to [as]. *)
Definition spec_as_check_overlap (a : cert_as) (l : list cert_as) : bool :=
  forallb (fun e => negb (as_conflict a e)) l.

(** The two checks as the decoder calls them. The decoder is written over
    this interface so that it can also be run with the checks left out
    ([no_checks]), which tells what a certificate asks for from what the
    checks let through. *)
Class Checks : Type := {
  ip_addr_check_overlap : cert_ip -> list cert_ip -> bool;
  as_check_overlap : cert_as -> list cert_as -> bool
}.

Definition no_checks : Checks :=
  {| ip_addr_check_overlap := fun _ _ => true;
     as_check_overlap := fun _ _ => true |}.

(** ** Resource-extension decoder *)

Section Parser.
Context {E : Extern} {K : Checks}.

(** Append an IP address structure to our list of results. *)
Definition append_ip (p : parse) (ip : cert_ip) : option parse :=
  if negb (ip_addr_check_overlap ip (ips (res p))) then None
  else if ipsz (res p) >=? MAX_IP_SIZE then None
  else Some (with_res p (set_ips (ips (res p) ++ [ip]) (res p))).

(** Append an AS identifier structure to our list of results. *)
Definition append_as (p : parse) (a : cert_as) : option parse :=
  if negb (as_check_overlap a (as_ (res p))) then None
  else if asz (res p) >=? MAX_AS_SIZE then None
  else Some (with_res p (set_as (as_ (res p) ++ [a]) (res p))).

(** Construct a RFC 3779 2.2.3.8 range by its bit string. *)
Definition sbgp_addr (p : parse) (ip : cert_ip) (bs : ASN1_BIT_STRING)
    : option parse :=
  match ip_addr_parse bs (ip_afi ip) with
  | None => None
  | Some a =>
      match ip_cert_compose_ranges (set_ip_ip a ip) with
      | None => None
      | Some ip' => append_ip p ip'
      end
  end.

(** Parse a range of AS identifiers as in 3.2.3.8. *)
Definition sbgp_asrange (p : parse) (d : bytes) : option parse :=
  match d2i_ASN1_SEQUENCE_ANY d with
  | Some [V_ASN1_INTEGER i0; V_ASN1_INTEGER i1] =>
      match as_id_parse i0 with
      | None => None
      | Some min =>
          match as_id_parse i1 with
          | None => None
          | Some max =>
              if max =? min then None
              else if max <? min then None
              else append_as p (CERT_AS_RANGE min max)
          end
      end
  | _ => None
  end.

(** Parse an entire 3.2.3.10 integer type. *)
Definition sbgp_asid (p : parse) (i : ASN1_INTEGER) : option parse :=
  match as_id_parse i with
  | None => None
  | Some id =>
      if id =? 0 then None
      else append_as p (CERT_AS_ID id)
  end.

Definition sbgp_asnum_item (p : parse) (tt : ASN1_TYPE) : option parse :=
  match tt with
  | V_ASN1_INTEGER i => sbgp_asid p i
  | V_ASN1_SEQUENCE d => sbgp_asrange p d
  | _ => None
  end.

(** Parse one of RFC 3779 3.2.3.2. *)
Definition sbgp_asnum (p : parse) (d : bytes) : option parse :=
  match d2i_ASN1_TYPE d with
  | None => None
  | Some V_ASN1_NULL => append_as p CERT_AS_INHERIT
  | Some (V_ASN1_SEQUENCE _) =>
      match d2i_ASN1_SEQUENCE_ANY d with
      | None => None
      | Some seq => for_each sbgp_asnum_item seq p
      end
  | Some _ => None
  end.

Definition sbgp_assysnum_item (p : parse) (t : ASN1_TYPE) : option parse :=
  match t with
  | V_ASN1_OTHER d =>
      match ASN1_frame d with
      | None => None
      | Some (d', ptag) =>
          if ptag >? ASID_TYPE_MAX then None
          else if ptag =? ASID_TYPE_RDI then Some p
          else sbgp_asnum p d'
      end
  | _ => None
  end.

(** Parse RFC 6487 4.8.11 X509v3 extension, with syntax documented in RFC
    3779 starting in section 3.2. *)
Definition sbgp_assysnum (p : parse) (ext : X509_EXTENSION) : option parse :=
  if negb (X509_EXTENSION_get_critical ext) then None
  else
    match i2d_X509_EXTENSION ext with
    | None => None
    | Some sv =>
        match d2i_ASN1_SEQUENCE_ANY sv with
        | Some [V_ASN1_OBJECT; V_ASN1_BOOLEAN; V_ASN1_OCTET_STRING d] =>
            match d2i_ASN1_SEQUENCE_ANY d with
            | None => None
            | Some sseq => for_each sbgp_assysnum_item sseq p
            end
        | _ => None
        end
    end.

(** Parse RFC 3779 2.2.3.9 range of addresses. *)
Definition sbgp_addr_range (p : parse) (ip : cert_ip) (d : bytes)
    : option parse :=
  match d2i_ASN1_SEQUENCE_ANY d with
  | Some [V_ASN1_BIT_STRING b0; V_ASN1_BIT_STRING b1] =>
      match ip_addr_parse b0 (ip_afi ip) with
      | None => None
      | Some lo =>
          match ip_addr_parse b1 (ip_afi ip) with
          | None => None
          | Some hi =>
              match ip_cert_compose_ranges
                      (set_ip_range_max hi (set_ip_ip lo ip)) with
              | None => None
              | Some ip' => append_ip p ip'
              end
          end
      end
  | _ => None
  end.

Definition sbgp_addr_or_range_item (ip : cert_ip) (p : parse) (t : ASN1_TYPE)
    : option parse :=
  match t with
  | V_ASN1_BIT_STRING bs => sbgp_addr p (set_ip_type CERT_IP_ADDR ip) bs
  | V_ASN1_SEQUENCE d => sbgp_addr_range p (set_ip_type CERT_IP_RANGE ip) d
  | _ => None
  end.

(** Parse an IP address or range, RFC 3779 2.2.3.7. *)
Definition sbgp_addr_or_range (p : parse) (ip : cert_ip) (d : bytes)
    : option parse :=
  match d2i_ASN1_SEQUENCE_ANY d with
  | None => None
  | Some seq => for_each (sbgp_addr_or_range_item ip) seq p
  end.

(** Parse a sequence of address families as in RFC 3779 sec. 2.2.3.2. *)
Definition sbgp_ipaddrfam (p : parse) (d : bytes) : option parse :=
  match d2i_ASN1_SEQUENCE_ANY d with
  | Some [V_ASN1_OCTET_STRING o; t] =>
      match ip_addr_afi_parse o with
      | None => None
      | Some a =>
          let ip := {| ip_afi := a; ip_type := CERT_IP_ADDR; ip_min := 0;
                       ip_max := 0; ip_range_min := ip_zero;
                       ip_range_max := ip_zero |} in
          match t with
          | V_ASN1_SEQUENCE d' => sbgp_addr_or_range p ip d'
          | V_ASN1_NULL => append_ip p (set_ip_type CERT_IP_INHERIT ip)
          | _ => None
          end
      end
  | _ => None
  end.

Definition sbgp_ipaddrblk_item (p : parse) (t : ASN1_TYPE) : option parse :=
  match t with
  | V_ASN1_SEQUENCE d => sbgp_ipaddrfam p d
  | _ => None
  end.

(** Parse an sbgp-ipAddrBlock X509 extension, RFC 6487 4.8.10, with
    syntax documented in RFC 3779 starting in section 2.2. *)
Definition sbgp_ipaddrblk (p : parse) (ext : X509_EXTENSION) : option parse :=
  if negb (X509_EXTENSION_get_critical ext) then None
  else
    match i2d_X509_EXTENSION ext with
    | None => None
    | Some sv =>
        match d2i_ASN1_SEQUENCE_ANY sv with
        | Some [V_ASN1_OBJECT; V_ASN1_BOOLEAN; V_ASN1_OCTET_STRING d] =>
            match d2i_ASN1_SEQUENCE_ANY d with
            | None => None
            | Some sseq => for_each sbgp_ipaddrblk_item sseq p
            end
        | _ => None
        end
    end.

(** ** C string functions *)

(** [strcmp]: zero exactly on equal strings, negative or positive by the
    order of the first differing character. *)
Definition strcmp (a b : string) : Z :=
  match String.compare a b with
  | Eq => 0
  | Lt => -1
  | Gt => 1
  end.

(** [strstr (haystack, needle)]: the offset of the first occurrence of
    [needle] in [haystack], [None] for the null pointer. *)
Fixpoint strstr (h n : string) : option nat :=
  if String.prefix n h then Some 0%nat
  else
    match h with
    | EmptyString => None
    | String _ h' => option_map S (strstr h' n)
    end.

(** ** Ancillary-extension decoder *)

Definition sbgp_sia_item (p : parse) (ad : ACCESS_DESCRIPTION)
    : option parse :=
  let oid := method ad in
  if OBJ_cmp oid carepo_oid =? 0 then
    match x509_location "SIA: caRepository" "rsync://" (location ad)
            (repo (res p)) with
    | None => None
    | Some out => Some (with_res p (set_repo out (res p)))
    end
  else if OBJ_cmp oid manifest_oid =? 0 then
    match x509_location "SIA: rpkiManifest" "rsync://" (location ad)
            (mft (res p)) with
    | None => None
    | Some out => Some (with_res p (set_mft out (res p)))
    end
  else if OBJ_cmp oid notify_oid =? 0 then
    match x509_location "SIA: rpkiNotify" "https://" (location ad)
            (notify (res p)) with
    | None => None
    | Some out => Some (with_res p (set_notify out (res p)))
    end
  else Some p.

(** The checks of [sbgp_sia] after the scan of the access descriptions. *)
Definition sbgp_sia_check (p : parse) : option parse :=
  match mft (res p), repo (res p) with
  | Some m, Some r =>
      match strstr m r with
      | Some O =>
          match rtype_from_file_extension m with
          | RTYPE_MFT => Some p
          | _ => None
          end
      | _ => None
      end
  | _, _ => None
  end.

(** Parse "Subject Information Access" extension, RFC 6487 4.8.8. *)
Definition sbgp_sia (p : parse) (ext : X509_EXTENSION) : option parse :=
  if X509_EXTENSION_get_critical ext then None
  else
    match X509V3_EXT_d2i_sia ext with
    | None => None
    | Some sia =>
        match for_each sbgp_sia_item sia p with
        | None => None
        | Some p' => sbgp_sia_check p'
        end
    end.

(** Parse the certificate policies extension and check that it follows
    RFC 7318. *)
Definition certificate_policies (p : parse) (ext : X509_EXTENSION)
    : option parse :=
  if negb (X509_EXTENSION_get_critical ext) then None
  else
    match X509V3_EXT_d2i_policies ext with
    | Some [policy] =>
        if negb (OBJ_cmp (policyid policy) certpol_oid =? 0) then None
        else
          match qualifiers policy with
          | None => Some p
          | Some [qualifier] =>
              match OBJ_obj2nid (pqualid qualifier) with
              | NID_id_qt_cps => Some p
              | _ => None
              end
          | Some _ => None
          end
    | _ => None
    end.

(** ** Certificate assembler / validator *)

(** The body of the loop over the X509v3 extensions; the state carries
    [sia_present] along with the parse. *)
Definition cert_parse_pre_ext (x : X509) (s : parse * bool) (i : Z)
    : option (parse * bool) :=
  let '(p, sia_present) := s in
  let ext := X509_get_ext x i in
  match OBJ_obj2nid (X509_EXTENSION_get_object ext) with
  | NID_sbgp_ipAddrBlock =>
      option_map (fun p' => (p', sia_present)) (sbgp_ipaddrblk p ext)
  | NID_sbgp_autonomousSysNum =>
      option_map (fun p' => (p', sia_present)) (sbgp_assysnum p ext)
  | NID_sinfo_access =>
      option_map (fun p' => (p', true)) (sbgp_sia p ext)
  | NID_certificate_policies =>
      option_map (fun p' => (p', sia_present)) (certificate_policies p ext)
  | _ => Some (p, sia_present)
  end.

(** The extension at place [i] is an SIA extension. *)
Definition is_sia (x : X509) (i : Z) : bool :=
  match OBJ_obj2nid (X509_EXTENSION_get_object (X509_get_ext x i)) with
  | NID_sinfo_access => true
  | _ => false
  end.

(** Validation on required fields, with [purpose] already stored. *)
Definition cert_parse_pre_required (x : X509) (c : cert) (sia_present : bool)
    : option cert :=
  let finish (c : cert) :=
    match ski c with
    | None => None
    | Some _ => Some (set_x509 (Some x) c)
    end in
  match purpose c with
  | CERT_PURPOSE_CA =>
      match mft c with
      | None => None
      | Some _ =>
          if (asz c =? 0) && (ipsz c =? 0) then None
          else finish c
      end
  | CERT_PURPOSE_BGPSEC_ROUTER =>
      match x509_get_pubkey x with
      | None => None
      | Some k =>
          let c := set_pubkey (Some k) c in
          if ipsz c >? 0 then None
          else if sia_present then None
          else finish c
      end
  | CERT_PURPOSE_INVALID => None
  end.

(** The fields supplied by the X.509 field extractor, stored after the
    extension loop. *)
Definition cert_parse_pre_fields (x : X509) (c : cert) : option cert :=
  match x509_get_aki x with
  | None => None
  | Some v_aki =>
  match x509_get_ski x with
  | None => None
  | Some v_ski =>
  match x509_get_aia x with
  | None => None
  | Some v_aia =>
  match x509_get_crl x with
  | None => None
  | Some v_crl =>
  match x509_get_expire x with
  | None => None
  | Some v_expires =>
      Some {| ips := ips c; as_ := as_ c; repo := repo c; mft := mft c;
              notify := notify c; crl := v_crl; aia := v_aia; aki := v_aki;
              ski := v_ski; talid := talid c;
              purpose := x509_get_purpose x;
              pubkey := pubkey c; x509 := x509 c; expires := v_expires |}
  end end end end end.

(** Parse and partially validate an RPKI X509 certificate (either a trust
    anchor or a certificate) as defined in RFC 6487. [der] is [None] for
    the null buffer. *)
Definition cert_parse_pre (fn : string) (der : option bytes)
    : outcome (option cert) :=
  match der with
  | None => Done None
  | Some der =>
      let p := {| res := cert_zero; fn := fn |} in
      match d2i_X509 der with
      | None => Done None
      | Some x =>
          let extsz := X509_get_ext_count x in
          if extsz <? 0 then Fatal
          else
            match for_each (cert_parse_pre_ext x) (seqZ 0 extsz)
                    (p, false) with
            | None => Done None
            | Some (p, sia_present) =>
                match cert_parse_pre_fields x (res p) with
                | None => Done None
                | Some c => Done (cert_parse_pre_required x c sia_present)
                end
            end
      end
  end.

(** Second stage for a subordinate certificate. [strcmp] reads through
    [p->ski]: on a null [ski] the process faults. *)
Definition cert_parse (fn : string) (p : cert) : outcome (option cert) :=
  match aki p with
  | None => Done None
  | Some a =>
      match ski p with
      | None => Fatal
      | Some s =>
          if strcmp a s =? 0 then Done None
          else
            match aia p with
            | None => Done None
            | Some _ =>
                match crl p with
                | None => Done None
                | Some _ => Done (Some p)
                end
            end
      end
  end.

(** [X509_cmp_current_time] of the X.509 library: 0 on a malformed time,
    -1 when the time is earlier than or equal to the current time, 1 when
    it is later. *)
Definition X509_cmp_current_time (t : ASN1_TIME) : Z :=
  match ASN1_TIME_seconds t with
  | None => 0
  | Some s => if s <=? current_time then -1 else 1
  end.

(** Third stage for a trust anchor, against the public key of the TAL. *)
Definition ta_parse (fn : string) (p : cert) (pkey : bytes)
    : outcome (option cert) :=
  match d2i_PUBKEY pkey with
  | None => Done None
  | Some pk =>
  match X509_get0_pubkey (x509 p) with
  | None => Done None
  | Some opk =>
  if negb (EVP_PKEY_cmp pk opk =? 1) then Done None
  else
  match X509_get_notBefore (x509 p) with
  | None => Done None
  | Some notBefore =>
  match X509_get_notAfter (x509 p) with
  | None => Done None
  | Some notAfter =>
  if negb (X509_cmp_current_time notBefore =? -1) then Done None
  else if negb (X509_cmp_current_time notAfter =? 1) then Done None
  else
    let rest :=
      match aia p with
      | Some _ => Done None
      | None =>
          match crl p with
          | Some _ => Done None
          | None =>
              match purpose p with
              | CERT_PURPOSE_BGPSEC_ROUTER => Done None
              | _ => Done (Some p)
              end
          end
      end in
    match aki p with
    | None => rest
    | Some a =>
        match ski p with
        | None => Fatal
        | Some s => if negb (strcmp a s =? 0) then Done None else rest
        end
    end
  end end end end.

End Parser.

(** The decoder of the source runs with the checks of the specification. *)
Global Instance spec_checks : Checks :=
  {| ip_addr_check_overlap := spec_ip_addr_check_overlap;
     as_check_overlap := spec_as_check_overlap |}.

(** ** Serialization layer *)

(** The object representation of a C type: its size and the bytes of its
    values. [representable] holds of the values the type can hold. *)
Record ctype (T : Type) : Type := {
  sizeof : nat;
  representable : T -> Prop;
  to_raw : T -> bytes;
  of_raw : bytes -> T
}.
Arguments sizeof {T} _.
Arguments representable {T} _ _.
Arguments to_raw {T} _ _.
Arguments of_raw {T} _ _.

(** Every object has [sizeof] bytes, and they determine its value. *)
Record ctype_ok {T : Type} (ty : ctype T) : Prop := {
  to_raw_length : forall x, length (to_raw ty x) = sizeof ty;
  of_to_raw : forall x, representable ty x -> of_raw ty (to_raw ty x) = x
}.

Definition byte_of_Z (z : Z) : byte :=
  match Byte.of_N (Z.to_N (z mod 256)) with
  | Some b => b
  | None => x00
  end.

Definition Z_of_byte (b : byte) : Z := Z.of_N (Byte.to_N b).

(** Little-endian digits of a [w]-byte unsigned integer. *)
Fixpoint le_bytes (w : nat) (z : Z) : bytes :=
  match w with
  | O => []
  | S w' => byte_of_Z z :: le_bytes w' (z / 256)
  end.

Fixpoint le_value (l : bytes) : Z :=
  match l with
  | [] => 0
  | b :: l' => Z_of_byte b + 256 * le_value l'
  end.

Definition of_signed (w : nat) (l : bytes) : Z :=
  let v := le_value l in
  if v <? 256 ^ Z.of_nat w / 2 then v else v - 256 ^ Z.of_nat w.

Definition unsigned_ctype (w : nat) : ctype Z :=
  {| sizeof := w;
     representable := fun z => 0 <= z < 256 ^ Z.of_nat w;
     to_raw := le_bytes w;
     of_raw := le_value |}.

(** Two's complement. *)
Definition signed_ctype (w : nat) : ctype Z :=
  {| sizeof := w;
     representable := fun z =>
       - (256 ^ Z.of_nat w / 2) <= z < 256 ^ Z.of_nat w / 2;
     to_raw := fun z => le_bytes w (z mod 256 ^ Z.of_nat w);
     of_raw := of_signed w |}.

(** The scalar types of the record on the platform of the source. *)
Definition time_t : ctype Z := signed_ctype 8.
Definition int : ctype Z := signed_ctype 4.
Definition size_t : ctype Z := unsigned_ctype 8.

(** An array of [n] objects, laid out one after the other. *)
Definition to_raw_array {T : Type} (ty : ctype T) (l : list T) : bytes :=
  concat (map (to_raw ty) l).

Fixpoint of_raw_array {T : Type} (ty : ctype T) (n : nat) (b : bytes)
    : list T :=
  match n with
  | O => []
  | S n' => of_raw ty (take (sizeof ty) b)
            :: of_raw_array ty n' (drop (sizeof ty) b)
  end.

(** Modelled from the spec: the buffer primitives of io.c, which is not
    among the sources. Section 4.4: a byte-oriented channel carrying
    fixed-width fields, raw arrays and length-prefixed text fields.
    [io_simple_buffer] appends the bytes of an object to the buffer;
    the second form is the same call on an array of [length l] objects. *)
Definition io_simple_buffer {T : Type} (b : bytes) (ty : ctype T) (x : T)
    : bytes :=
  b ++ to_raw ty x.

Definition io_simple_buffer_array {T : Type} (b : bytes) (ty : ctype T)
    (l : list T) : bytes :=
  b ++ to_raw_array ty l.

(** Modelled from the spec: [io_str_buffer] of io.c. A text field is its
    length as a [size_t] followed by that many bytes; the absent string has
    no bytes, hence length zero. *)
Definition io_str_buffer (b : bytes) (s : option string) : bytes :=
  let data :=
    match s with
    | None => []
    | Some s => list_byte_of_string s
    end in
  io_simple_buffer b size_t (Z.of_nat (length data)) ++ data.

(** Modelled from the spec: [io_read_buf] of io.c. Takes the next [sz]
    bytes of the buffer; a buffer that is too short is an internal error
    that ends the process. *)
Definition io_read_bytes (b : bytes) (sz : nat) : outcome (bytes * bytes) :=
  if (length b <? sz)%nat then Fatal
  else Done (take sz b, drop sz b).

Definition io_read_buf {T : Type} (b : bytes) (ty : ctype T)
    : outcome (T * bytes) :=
  '(raw, b') ← io_read_bytes b (sizeof ty);
  Done (of_raw ty raw, b').

Definition io_read_buf_array {T : Type} (b : bytes) (ty : ctype T) (n : nat)
    : outcome (list T * bytes) :=
  '(raw, b') ← io_read_bytes b (n * sizeof ty);
  Done (of_raw_array ty n raw, b').

(** Modelled from the spec: [io_read_str] of io.c, the inverse of
    [io_str_buffer]: a zero length restores the absent string. *)
Definition io_read_str (b : bytes) : outcome (option string * bytes) :=
  '(sz, b') ← io_read_buf b size_t;
  if sz =? 0 then Done (None, b')
  else
    '(raw, b'') ← io_read_bytes b' (Z.to_nat sz);
    Done (Some (string_of_list_byte raw), b'').

Section Transport.
(** The layouts of [enum cert_purpose], [struct cert_ip] and
    [struct cert_as], which the compiler fixes from extern.h. *)
Variable cert_purpose_t : ctype cert_purpose.
Variable cert_ip_t : ctype cert_ip.
Variable cert_as_t : ctype cert_as.

(** Write certificate parsed content into buffer. *)
Definition cert_buffer (b : bytes) (p : cert) : bytes :=
  let b := io_simple_buffer b time_t (expires p) in
  let b := io_simple_buffer b cert_purpose_t (purpose p) in
  let b := io_simple_buffer b int (talid p) in
  let b := io_simple_buffer b size_t (ipsz p) in
  let b := io_simple_buffer b size_t (asz p) in
  let b := io_simple_buffer_array b cert_ip_t (ips p) in
  let b := io_simple_buffer_array b cert_as_t (as_ p) in
  let b := io_str_buffer b (mft p) in
  let b := io_str_buffer b (notify p) in
  let b := io_str_buffer b (repo p) in
  let b := io_str_buffer b (crl p) in
  let b := io_str_buffer b (aia p) in
  let b := io_str_buffer b (aki p) in
  let b := io_str_buffer b (ski p) in
  io_str_buffer b (pubkey p).

(** Allocate and read parsed certificate content from descriptor.
    Returns the record and the rest of the buffer. *)
Definition cert_read (b : bytes) : outcome (cert * bytes) :=
  '(v_expires, b) ← io_read_buf b time_t;
  '(v_purpose, b) ← io_read_buf b cert_purpose_t;
  '(v_talid, b) ← io_read_buf b int;
  '(v_ipsz, b) ← io_read_buf b size_t;
  '(v_asz, b) ← io_read_buf b size_t;
  '(v_ips, b) ← io_read_buf_array b cert_ip_t (Z.to_nat v_ipsz);
  '(v_as, b) ← io_read_buf_array b cert_as_t (Z.to_nat v_asz);
  '(v_mft, b) ← io_read_str b;
  '(v_notify, b) ← io_read_str b;
  '(v_repo, b) ← io_read_str b;
  '(v_crl, b) ← io_read_str b;
  '(v_aia, b) ← io_read_str b;
  '(v_aki, b) ← io_read_str b;
  '(v_ski, b) ← io_read_str b;
  '(v_pubkey, b) ← io_read_str b;
  let p := {| ips := v_ips; as_ := v_as; repo := v_repo; mft := v_mft;
              notify := v_notify; crl := v_crl; aia := v_aia; aki := v_aki;
              ski := v_ski; talid := v_talid; purpose := v_purpose;
              pubkey := v_pubkey; x509 := None; expires := v_expires |} in
  match mft p, purpose p with
  | None, CERT_PURPOSE_CA | None, CERT_PURPOSE_INVALID => Fatal
  | _, _ =>
      match ski p with
      | None => Fatal
      | Some _ => Done (p, b)
      end
  end.

End Transport.

(** ** Trust and router-key indexes

    Both indexes are red-black trees of sys/tree.h ([RB_GENERATE]), which
    is not among the sources; they are modelled from section 4.5 of the
    specification as ordered associative indexes on the key their
    comparison function reads. *)

#[warnings="-register-all"] Inductive auth : Type :=
| mk_auth (a_cert : cert) (a_parent : option auth).

Definition auth_cert (a : auth) : cert :=
  match a with mk_auth c _ => c end.

Definition auth_parent (a : auth) : option auth :=
  match a with mk_auth _ p => p end.

Abbreviation auth_tree := (gmap string auth).

Record brk : Type := {
  b_asid : Z;
  b_ski : string;
  b_pubkey : string;
  b_expires : Z;
  b_talid : Z
}.

Definition brk_key (b : brk) : Z * string * string :=
  (b_asid b, b_ski b, b_pubkey b).

Abbreviation brk_tree := (gmap (Z * string * string) brk).

(** The comparison of two trust-index entries; [None] when it reads
    through a null [ski]. *)
Definition authcmp (a b : auth) : option Z :=
  match ski (auth_cert a), ski (auth_cert b) with
  | Some x, Some y => Some (strcmp x y)
  | _, _ => None
  end.

Definition brkcmp (a b : brk) : Z :=
  if b_asid a >? b_asid b then 1
  else if b_asid a <? b_asid b then -1
  else
    let rv := strcmp (b_ski a) (b_ski b) in
    if rv >? 0 then 1
    else if rv <? 0 then -1
    else strcmp (b_pubkey a) (b_pubkey b).

(** Modelled from the spec: [RB_FIND] and [RB_INSERT] of sys/tree.h.
    Section 4.5: exact lookup on the key; insertion puts the element in
    unless an element with the same key is there, and then hands that
    element back and leaves the index as it is. *)
Definition RB_FIND {K V : Type} `{Countable K} (tree : gmap K V) (k : K)
    : option V :=
  tree !! k.

Definition RB_INSERT {K V : Type} `{Countable K} (tree : gmap K V) (k : K)
    (elm : V) : gmap K V * option V :=
  match tree !! k with
  | Some found => (tree, Some found)
  | None => (<[k := elm]> tree, None)
  end.

(** We look up the cert where the ski == aki. *)
Definition auth_find (auths : auth_tree) (aki : string) : option auth :=
  RB_FIND auths aki.

(** [authcmp] reads through [cert->ski]; records come to the index from
    [cert_parse_pre] or [cert_read], which let none through without it,
    and a null [ski] is a fault here. *)
Definition auth_insert (auths : auth_tree) (cert : cert)
    (parent : option auth) : outcome auth_tree :=
  let na := mk_auth cert parent in
  match ski cert with
  | None => Fatal
  | Some k =>
      match RB_INSERT auths k na with
      | (_, Some _) => Fatal      (* err(1, "auth tree corrupted") *)
      | (auths', None) => Done auths'
      end
  end.

(** The conversion of an AS identifier to the [int] parameter of
    [insert_brk]. *)
Definition to_int (z : Z) : Z := (z + 2 ^ 31) mod 2 ^ 32 - 2 ^ 31.

(** [strdup] reads through [cert->ski] and [cert->pubkey]: a null pointer
    there is a fault. *)
Definition insert_brk (tree : brk_tree) (cert : cert) (asid : Z)
    : outcome brk_tree :=
  match ski cert, pubkey cert with
  | Some s, Some k =>
      let b := {| b_asid := asid; b_ski := s; b_pubkey := k;
                  b_expires := expires cert; b_talid := talid cert |} in
      match RB_INSERT tree (brk_key b) b with
      | (tree', Some found) =>
          if b_expires found <? b_expires b then
            Done (<[brk_key b :=
                     {| b_asid := b_asid found; b_ski := b_ski found;
                        b_pubkey := b_pubkey found;
                        b_expires := b_expires b;
                        b_talid := b_talid b |}]> tree')
          else Done tree'
      | (tree', None) => Done tree'
      end
  | _, _ => Fatal
  end.

(** A loop whose body may end the process. *)
Fixpoint for_each_do {S A : Type} (body : S -> A -> outcome S) (l : list A)
    (s : S) : outcome S :=
  match l with
  | [] => Done s
  | x :: l' => s' ← body s x; for_each_do body l' s'
  end.

(** One turn of the loop of [cert_insert_brks]; the state is the tree and
    the diagnostics written so far. *)
Definition cert_insert_brks_entry (cert : cert)
    (s : brk_tree * list string) (a : cert_as)
    : outcome (brk_tree * list string) :=
  let '(tree, diag) := s in
  match a with
  | CERT_AS_ID id =>
      tree' ← insert_brk tree cert (to_int id);
      Done (tree', diag)
  | CERT_AS_RANGE min max =>
      tree' ← for_each_do (fun t asid => insert_brk t cert (to_int asid))
                 (seqZ min (max - min + 1)) tree;
      Done (tree', diag)
  | _ => Done (tree, diag ++ ["invalid AS identifier type"%string])
  end.

(** Add each BGPsec Router Key into the BRK tree. *)
Definition cert_insert_brks (tree : brk_tree) (cert : cert)
    : outcome (brk_tree * list string) :=
  for_each_do (cert_insert_brks_entry cert) (as_ cert) (tree, []).

(** ** Layouts built from fields *)

(** A struct of two members, the second right after the first. *)
Definition pair_ctype {A B : Type} (ta : ctype A) (tb : ctype B)
    : ctype (A * B) :=
  {| sizeof := sizeof ta + sizeof tb;
     representable := fun x => representable ta x.1 /\ representable tb x.2;
     to_raw := fun x => to_raw ta x.1 ++ to_raw tb x.2;
     of_raw := fun b => (of_raw ta (take (sizeof ta) b),
                         of_raw tb (drop (sizeof ta) b)) |}.

(** A type stored as another one: [g] gives the stored form, [f] reads
    it back. *)
Definition iso_ctype {A B : Type} (f : A -> B) (g : B -> A) (ta : ctype A)
    : ctype B :=
  {| sizeof := sizeof ta;
     representable := fun x => representable ta (g x) /\ f (g x) = x;
     to_raw := fun x => to_raw ta (g x);
     of_raw := fun b => f (of_raw ta b) |}.

Definition uint32_t : ctype Z := unsigned_ctype 4.
Definition uint8_t : ctype Z := unsigned_ctype 1.
Definition addr_t : ctype Z := unsigned_ctype 16.

(** A layout of [enum cert_purpose]: a 4-byte integer. *)
Definition sample_purpose_t : ctype cert_purpose :=
  iso_ctype
    (fun z => if z =? 1 then CERT_PURPOSE_CA
              else if z =? 2 then CERT_PURPOSE_BGPSEC_ROUTER
              else CERT_PURPOSE_INVALID)
    (fun x => match x with
              | CERT_PURPOSE_INVALID => 0
              | CERT_PURPOSE_CA => 1
              | CERT_PURPOSE_BGPSEC_ROUTER => 2
              end)
    uint32_t.

(** A layout of [struct cert_as]: the type and the two words of the
    union. *)
Definition sample_as_t : ctype cert_as :=
  iso_ctype
    (fun x : Z * (Z * Z) =>
       let '(t, (a, b)) := x in
       if t =? 0 then CERT_AS_ID a
       else if t =? 1 then CERT_AS_RANGE a b
       else CERT_AS_INHERIT)
    (fun a => match a with
              | CERT_AS_ID id => (0, (id, 0))
              | CERT_AS_RANGE min max => (1, (min, max))
              | CERT_AS_INHERIT => (2, (0, 0))
              end)
    (pair_ctype uint32_t (pair_ctype uint32_t uint32_t)).

Definition sample_ip_addr_t : ctype ip_addr :=
  iso_ctype
    (fun x : Z * Z => {| addr := x.1; prefixlen := x.2 |})
    (fun a => (addr a, prefixlen a))
    (pair_ctype addr_t uint8_t).

(** A layout of [struct cert_ip]: the members in the order of the
    record. *)
Definition sample_ip_t : ctype cert_ip :=
  iso_ctype
    (fun x : Z * (Z * (Z * (Z * (ip_addr * ip_addr)))) =>
       let '(f, (t, (lo, (hi, (rlo, rhi))))) := x in
       {| ip_afi := if f =? 1 then AFI_IPV4 else AFI_IPV6;
          ip_type := if t =? 0 then CERT_IP_ADDR
                     else if t =? 1 then CERT_IP_RANGE
                     else CERT_IP_INHERIT;
          ip_min := lo; ip_max := hi;
          ip_range_min := rlo; ip_range_max := rhi |})
    (fun ip =>
       (match ip_afi ip with AFI_IPV4 => 1 | AFI_IPV6 => 2 end,
        (match ip_type ip with
         | CERT_IP_ADDR => 0
         | CERT_IP_RANGE => 1
         | CERT_IP_INHERIT => 2
         end,
         (ip_min ip, (ip_max ip, (ip_range_min ip, ip_range_max ip))))))
    (pair_ctype uint32_t (pair_ctype uint32_t (pair_ctype addr_t
       (pair_ctype addr_t (pair_ctype sample_ip_addr_t sample_ip_addr_t))))).

(** What the transport needs of a record: its numbers fit their types,
    and a text field that is there is not the empty string. *)
Definition text_fits (s : option string) : Prop :=
  match s with
  | None => True
  | Some s => s <> EmptyString /\ Z.of_nat (String.length s) < 2 ^ 64
  end.

Definition cert_fits (tp : ctype cert_purpose) (ti : ctype cert_ip)
    (ta : ctype cert_as) (c : cert) : Prop :=
  representable time_t (expires c) /\
  representable tp (purpose c) /\
  representable int (talid c) /\
  representable size_t (ipsz c) /\
  representable size_t (asz c) /\
  Forall (representable ti) (ips c) /\
  Forall (representable ta) (as_ c) /\
  text_fits (mft c) /\ text_fits (notify c) /\ text_fits (repo c) /\
  text_fits (crl c) /\ text_fits (aia c) /\ text_fits (aki c) /\
  text_fits (ski c) /\ text_fits (pubkey c).

(** The bytes of one text field. *)
Definition text_raw (s : option string) : bytes :=
  match s with
  | None => to_raw size_t 0
  | Some s => to_raw size_t (Z.of_nat (String.length s))
              ++ list_byte_of_string s
  end.

(** ** A collaborator instance

    Four small certificates, to run the definitions on. The byte strings
    are names of the structures they decode to:
    - certificate 0, a router certificate without extensions;
    - certificate 1, a CA certificate with an IP extension (10 and
      192-200 in IPv4, inherit in IPv6), an AS extension (5 and 10-20) and
      an SIA extension;
    - certificate 2, a CA certificate with an AS extension that names 12
      and 10-20, and an SIA extension;
    - certificate 3, a self-issued CA certificate with the AS and SIA
      extensions of certificate 1. *)

Definition sample_sequence (d : bytes) : option (list ASN1_TYPE) :=
  match d with
  | [x0a] => Some [V_ASN1_OBJECT; V_ASN1_BOOLEAN; V_ASN1_OCTET_STRING [x20]]
  | [x20] => Some [V_ASN1_SEQUENCE [x21]; V_ASN1_SEQUENCE [x22]]
  | [x21] => Some [V_ASN1_OCTET_STRING [x01]; V_ASN1_SEQUENCE [x23]]
  | [x22] => Some [V_ASN1_OCTET_STRING [x02]; V_ASN1_NULL]
  | [x23] => Some [V_ASN1_BIT_STRING [x0a]; V_ASN1_SEQUENCE [x24]]
  | [x24] => Some [V_ASN1_BIT_STRING [xc0]; V_ASN1_BIT_STRING [xc8]]
  | [x0b] => Some [V_ASN1_OBJECT; V_ASN1_BOOLEAN; V_ASN1_OCTET_STRING [x30]]
  | [x30] => Some [V_ASN1_OTHER [x31]]
  | [x32] => Some [V_ASN1_INTEGER [x05]; V_ASN1_SEQUENCE [x33]]
  | [x33] => Some [V_ASN1_INTEGER [x0a]; V_ASN1_INTEGER [x14]]
  | [x34] => Some [V_ASN1_INTEGER [x64]; V_ASN1_INTEGER [x64]]
  | [x0d] => Some [V_ASN1_OBJECT; V_ASN1_BOOLEAN; V_ASN1_OCTET_STRING [x40]]
  | [x40] => Some [V_ASN1_OTHER [x41]]
  | [x42] => Some [V_ASN1_INTEGER [x0c]; V_ASN1_SEQUENCE [x33]]
  | _ => None
  end.

Definition sample_compose (ip : cert_ip) : option cert_ip :=
  let lo := addr (ip_range_min ip) in
  let hi := match ip_type ip with
            | CERT_IP_RANGE => addr (ip_range_max ip)
            | _ => lo
            end in
  if hi <? lo then None
  else Some {| ip_afi := ip_afi ip; ip_type := ip_type ip;
               ip_min := lo; ip_max := hi;
               ip_range_min := ip_range_min ip;
               ip_range_max := ip_range_max ip |}.

Definition sample_ext (x : X509) (i : Z) : X509_EXTENSION :=
  match x, i with
  | X509_at 1, 0 => X509_EXTENSION_at 10
  | X509_at 1, 1 => X509_EXTENSION_at 11
  | X509_at 1, 2 => X509_EXTENSION_at 12
  | X509_at 2, 0 => X509_EXTENSION_at 13
  | X509_at 2, 1 => X509_EXTENSION_at 12
  | X509_at 3, 0 => X509_EXTENSION_at 11
  | X509_at 3, 1 => X509_EXTENSION_at 12
  | _, _ => X509_EXTENSION_at 0
  end.

Definition sample_env : Extern :=
  {| MAX_IP_SIZE := 200000;
     MAX_AS_SIZE := 200000;
     certpol_oid := ASN1_OBJECT_at 103;
     carepo_oid := ASN1_OBJECT_at 100;
     manifest_oid := ASN1_OBJECT_at 101;
     notify_oid := ASN1_OBJECT_at 102;
     OBJ_cmp := fun a b =>
       match a, b with
       | ASN1_OBJECT_at m, ASN1_OBJECT_at n => if (m =? n)%N then 0 else 1
       end;
     OBJ_obj2nid := fun a =>
       match a with
       | ASN1_OBJECT_at 10 => NID_sbgp_ipAddrBlock
       | ASN1_OBJECT_at 11 | ASN1_OBJECT_at 13 => NID_sbgp_autonomousSysNum
       | ASN1_OBJECT_at 12 => NID_sinfo_access
       | ASN1_OBJECT_at n => NID_undef (Z.of_N n)
       end;
     d2i_ASN1_SEQUENCE_ANY := sample_sequence;
     d2i_ASN1_TYPE := fun d =>
       match d with
       | [x32] | [x42] => Some (V_ASN1_SEQUENCE d)
       | _ => None
       end;
     ASN1_frame := fun d =>
       match d with
       | [x31] => Some ([x32], 0)
       | [x41] => Some ([x42], 0)
       | _ => None
       end;
     X509_EXTENSION_get_critical := fun e =>
       match e with
       | X509_EXTENSION_at 12 => false
       | _ => true
       end;
     X509_EXTENSION_get_object := fun e =>
       match e with X509_EXTENSION_at n => ASN1_OBJECT_at n end;
     i2d_X509_EXTENSION := fun e =>
       match e with
       | X509_EXTENSION_at n => Some [byte_of_Z (Z.of_N n)]
       end;
     X509V3_EXT_d2i_sia := fun e =>
       match e with
       | X509_EXTENSION_at 12 =>
           Some [ {| method := ASN1_OBJECT_at 100;
                     location := GENERAL_NAME_at 1 |};
                  {| method := ASN1_OBJECT_at 101;
                     location := GENERAL_NAME_at 2 |} ]
       | _ => None
       end;
     X509V3_EXT_d2i_policies := fun _ => None;
     as_id_parse := fun i => Some (le_value i);
     ip_addr_afi_parse := fun o =>
       match o with
       | [x01] => Some AFI_IPV4
       | [x02] => Some AFI_IPV6
       | _ => None
       end;
     ip_addr_parse := fun bs _ =>
       Some {| addr := le_value bs; prefixlen := 8 |};
     ip_cert_compose_ranges := sample_compose;
     x509_location := fun _ _ g _ =>
       match g with
       | GENERAL_NAME_at 1 => Some (Some "rsync://a/repo/"%string)
       | GENERAL_NAME_at 2 => Some (Some "rsync://a/repo/x.mft"%string)
       | _ => None
       end;
     rtype_from_file_extension := fun s =>
       if String.eqb s "rsync://a/repo/x.mft" then RTYPE_MFT
       else RTYPE_INVALID;
     d2i_X509 := fun d =>
       match d with
       | [b] => Some (X509_at (Byte.to_N b))
       | _ => None
       end;
     X509_get_ext_count := fun x =>
       match x with
       | X509_at 1 => 3
       | X509_at 2 | X509_at 3 => 2
       | _ => 0
       end;
     X509_get_ext := sample_ext;
     x509_get_aki := fun x =>
       match x with
       | X509_at 3 => Some None
       | _ => Some (Some "CD"%string)
       end;
     x509_get_ski := fun _ => Some (Some "AB"%string);
     x509_get_aia := fun x =>
       match x with
       | X509_at 3 => Some None
       | _ => Some (Some "rsync://a/ca.cer"%string)
       end;
     x509_get_crl := fun x =>
       match x with
       | X509_at 3 => Some None
       | _ => Some (Some "rsync://a/ca.crl"%string)
       end;
     x509_get_expire := fun _ => Some 1000;
     x509_get_purpose := fun x =>
       match x with
       | X509_at 0 => CERT_PURPOSE_BGPSEC_ROUTER
       | _ => CERT_PURPOSE_CA
       end;
     x509_get_pubkey := fun _ => Some "KEY"%string;
     d2i_PUBKEY := fun d =>
       match d with
       | [b] => Some (EVP_PKEY_at (Byte.to_N b))
       | _ => None
       end;
     X509_get0_pubkey := fun x =>
       match x with
       | Some (X509_at n) => Some (EVP_PKEY_at n)
       | None => None
       end;
     EVP_PKEY_cmp := fun a b =>
       match a, b with
       | EVP_PKEY_at m, EVP_PKEY_at n => if (m =? n)%N then 1 else 0
       end;
     X509_get_notBefore := fun x => option_map (fun _ => ASN1_TIME_at 100) x;
     X509_get_notAfter := fun x => option_map (fun _ => ASN1_TIME_at 200) x;
     ASN1_TIME_seconds := fun t =>
       match t with ASN1_TIME_at n => Some (Z.of_N n) end;
     current_time := 150 |}.

Definition sample_router : cert :=
  {| ips := []; as_ := []; repo := None; mft := None; notify := None;
     crl := Some "rsync://a/ca.crl"%string;
     aia := Some "rsync://a/ca.cer"%string;
     aki := Some "CD"%string; ski := Some "AB"%string; talid := 0;
     purpose := CERT_PURPOSE_BGPSEC_ROUTER; pubkey := Some "KEY"%string;
     x509 := Some (X509_at 0); expires := 1000 |}.

(** A later certificate for the key of [sample_router]. *)
Definition sample_router_renewed : cert :=
  {| ips := []; as_ := []; repo := None; mft := None; notify := None;
     crl := Some "rsync://a/ca.crl"%string;
     aia := Some "rsync://a/ca.cer"%string;
     aki := Some "CD"%string; ski := Some "AB"%string; talid := 7;
     purpose := CERT_PURPOSE_BGPSEC_ROUTER; pubkey := Some "KEY"%string;
     x509 := None; expires := 2000 |}.

Definition sample_ca_ips : list cert_ip :=
  [ {| ip_afi := AFI_IPV4; ip_type := CERT_IP_ADDR; ip_min := 10;
       ip_max := 10;
       ip_range_min := {| addr := 10; prefixlen := 8 |};
       ip_range_max := ip_zero |};
    {| ip_afi := AFI_IPV4; ip_type := CERT_IP_RANGE; ip_min := 192;
       ip_max := 200;
       ip_range_min := {| addr := 192; prefixlen := 8 |};
       ip_range_max := {| addr := 200; prefixlen := 8 |} |};
    {| ip_afi := AFI_IPV6; ip_type := CERT_IP_INHERIT; ip_min := 0;
       ip_max := 0; ip_range_min := ip_zero; ip_range_max := ip_zero |} ].

Definition sample_ca : cert :=
  {| ips := sample_ca_ips;
     as_ := [CERT_AS_ID 5; CERT_AS_RANGE 10 20];
     repo := Some "rsync://a/repo/"%string;
     mft := Some "rsync://a/repo/x.mft"%string; notify := None;
     crl := Some "rsync://a/ca.crl"%string;
     aia := Some "rsync://a/ca.cer"%string;
     aki := Some "CD"%string; ski := Some "AB"%string; talid := 0;
     purpose := CERT_PURPOSE_CA; pubkey := None;
     x509 := Some (X509_at 1); expires := 1000 |}.

(** What certificate 2 asks for: 12 lies in 10-20. *)
Definition sample_overlapping : cert :=
  {| ips := [];
     as_ := [CERT_AS_ID 12; CERT_AS_RANGE 10 20];
     repo := Some "rsync://a/repo/"%string;
     mft := Some "rsync://a/repo/x.mft"%string; notify := None;
     crl := Some "rsync://a/ca.crl"%string;
     aia := Some "rsync://a/ca.cer"%string;
     aki := Some "CD"%string; ski := Some "AB"%string; talid := 0;
     purpose := CERT_PURPOSE_CA; pubkey := None;
     x509 := Some (X509_at 2); expires := 1000 |}.

Definition sample_ta : cert :=
  {| ips := [];
     as_ := [CERT_AS_ID 5; CERT_AS_RANGE 10 20];
     repo := Some "rsync://a/repo/"%string;
     mft := Some "rsync://a/repo/x.mft"%string; notify := None;
     crl := None; aia := None; aki := None;
     ski := Some "AB"%string; talid := 0;
     purpose := CERT_PURPOSE_CA; pubkey := None;
     x509 := Some (X509_at 3); expires := 1000 |}.

(** ** Properties of the resource lists *)

(** Two entries may stand in one list: when they are of one address
    family, neither is an inherit marker and their ranges are disjoint. *)
Definition ip_compatible (a b : cert_ip) : Prop :=
  ip_afi a = ip_afi b ->
  ip_type a <> CERT_IP_INHERIT /\ ip_type b <> CERT_IP_INHERIT /\
  ~ (ip_min a <= ip_max b /\ ip_min b <= ip_max a).

Definition as_compatible (a b : cert_as) : Prop :=
  a <> CERT_AS_INHERIT /\ b <> CERT_AS_INHERIT /\
  ~ (as_lo a <= as_hi b /\ as_lo b <= as_hi a).

(** [R] holds of every two entries at different places of the list. *)
Definition pairwise {A : Type} (R : A -> A -> Prop) (l : list A) : Prop :=
  forall (i j : nat) (a b : A),
    l !! i = Some a -> l !! j = Some b -> i <> j -> R a b.

(** An explicit AS entry as the decoder lets it through. *)
Definition as_entry_valid (a : cert_as) : Prop :=
  match a with
  | CERT_AS_ID id => id <> 0
  | CERT_AS_RANGE min max => min < max
  | CERT_AS_INHERIT => True
  end.

(** What holds of the lists of a parse in progress. *)
Definition resources_ok (c : cert) : Prop :=
  pairwise ip_compatible (ips c) /\
  pairwise as_compatible (as_ c) /\
  Forall as_entry_valid (as_ c).

(** A step of the decoder that leaves the lists of a good state good. *)
Definition keeps (f : parse -> option parse) : Prop :=
  forall p p', resources_ok (res p) -> f p = Some p' -> resources_ok (res p').

(** What a step does with the checks, it does without them. *)
Definition unchecked_too (f g : parse -> option parse) : Prop :=
  forall p p', f p = Some p' -> g p = Some p'.

(** ** A second collaborator instance

    [sample_env] with three more extensions and one more certificate:
    - extension 14, an AS extension whose two items are RDI items;
    - extension 15, a certificate-policies extension with the one policy
      that is asked for and no qualifier;
    - extension 16, an SIA extension that names a repository only;
    - certificate 4, whose notAfter (120) lies before the current time. *)
Definition sample_env_more : Extern :=
  {| MAX_IP_SIZE := MAX_IP_SIZE (Extern := sample_env);
     MAX_AS_SIZE := MAX_AS_SIZE (Extern := sample_env);
     certpol_oid := certpol_oid (Extern := sample_env);
     carepo_oid := carepo_oid (Extern := sample_env);
     manifest_oid := manifest_oid (Extern := sample_env);
     notify_oid := notify_oid (Extern := sample_env);
     OBJ_cmp := OBJ_cmp (Extern := sample_env);
     OBJ_obj2nid := fun a =>
       match a with
       | ASN1_OBJECT_at 14 => NID_sbgp_autonomousSysNum
       | ASN1_OBJECT_at 15 => NID_certificate_policies
       | ASN1_OBJECT_at 16 => NID_sinfo_access
       | _ => OBJ_obj2nid (Extern := sample_env) a
       end;
     d2i_ASN1_SEQUENCE_ANY := fun d =>
       match d with
       | [x0e] =>
           Some [V_ASN1_OBJECT; V_ASN1_BOOLEAN; V_ASN1_OCTET_STRING [x50]]
       | [x50] => Some [V_ASN1_OTHER [x51]; V_ASN1_OTHER [x51]]
       | _ => sample_sequence d
       end;
     d2i_ASN1_TYPE := d2i_ASN1_TYPE (Extern := sample_env);
     ASN1_frame := fun d =>
       match d with
       | [x51] => Some ([], ASID_TYPE_RDI)
       | _ => ASN1_frame (Extern := sample_env) d
       end;
     X509_EXTENSION_get_critical := fun e =>
       match e with
       | X509_EXTENSION_at 16 => false
       | _ => X509_EXTENSION_get_critical (Extern := sample_env) e
       end;
     X509_EXTENSION_get_object :=
       X509_EXTENSION_get_object (Extern := sample_env);
     i2d_X509_EXTENSION := i2d_X509_EXTENSION (Extern := sample_env);
     X509V3_EXT_d2i_sia := fun e =>
       match e with
       | X509_EXTENSION_at 16 =>
           Some [ {| method := ASN1_OBJECT_at 100;
                     location := GENERAL_NAME_at 1 |} ]
       | _ => X509V3_EXT_d2i_sia (Extern := sample_env) e
       end;
     X509V3_EXT_d2i_policies := fun e =>
       match e with
       | X509_EXTENSION_at 15 =>
           Some [ {| policyid := ASN1_OBJECT_at 103; qualifiers := None |} ]
       | _ => None
       end;
     as_id_parse := as_id_parse (Extern := sample_env);
     ip_addr_afi_parse := ip_addr_afi_parse (Extern := sample_env);
     ip_addr_parse := ip_addr_parse (Extern := sample_env);
     ip_cert_compose_ranges := sample_compose;
     x509_location := x509_location (Extern := sample_env);
     rtype_from_file_extension :=
       rtype_from_file_extension (Extern := sample_env);
     d2i_X509 := d2i_X509 (Extern := sample_env);
     X509_get_ext_count := X509_get_ext_count (Extern := sample_env);
     X509_get_ext := sample_ext;
     x509_get_aki := x509_get_aki (Extern := sample_env);
     x509_get_ski := x509_get_ski (Extern := sample_env);
     x509_get_aia := x509_get_aia (Extern := sample_env);
     x509_get_crl := x509_get_crl (Extern := sample_env);
     x509_get_expire := x509_get_expire (Extern := sample_env);
     x509_get_purpose := x509_get_purpose (Extern := sample_env);
     x509_get_pubkey := x509_get_pubkey (Extern := sample_env);
     d2i_PUBKEY := d2i_PUBKEY (Extern := sample_env);
     X509_get0_pubkey := X509_get0_pubkey (Extern := sample_env);
     EVP_PKEY_cmp := EVP_PKEY_cmp (Extern := sample_env);
     X509_get_notBefore := X509_get_notBefore (Extern := sample_env);
     X509_get_notAfter := fun x =>
       match x with
       | Some (X509_at 4) => Some (ASN1_TIME_at 120)
       | _ => X509_get_notAfter (Extern := sample_env) x
       end;
     ASN1_TIME_seconds := ASN1_TIME_seconds (Extern := sample_env);
     current_time := current_time (Extern := sample_env) |}.

(** ** Growth of the indexes *)

(** Every entry of [t] is still in [t'], under the same key and with the
    same key fields, and its expiry is not earlier. *)
Definition brk_persists (t t' : brk_tree) : Prop :=
  forall key b,
    t !! key = Some b ->
    exists b',
      t' !! key = Some b' /\ b_expires b <= b_expires b' /\
      b_asid b' = b_asid b /\ b_ski b' = b_ski b /\
      b_pubkey b' = b_pubkey b.

(** The trust indexes that [auth_insert] builds from the empty one. *)
Inductive auth_built : auth_tree -> Prop :=
| auth_built_empty : auth_built ∅
| auth_built_insert (auths : auth_tree) (cert : cert)
    (parent : option auth) (auths' : auth_tree) :
    auth_built auths -> auth_insert auths cert parent = Done auths' ->
    auth_built auths'.

(** ** Runs of the decoder *)

Section Runs.
Context {E : Extern} {K : Checks}.

(** [p'] comes from [p] by calls of [append_ip] that succeeded. *)
Inductive ip_appends : parse -> parse -> Prop :=
| ip_appends_nil (p : parse) : ip_appends p p
| ip_appends_cons (p : parse) (ip : cert_ip) (p1 p' : parse) :
    append_ip p ip = Some p1 -> ip_appends p1 p' -> ip_appends p p'.

(** [p'] comes from [p] by calls of [append_as] that succeeded. *)
Inductive as_appends : parse -> parse -> Prop :=
| as_appends_nil (p : parse) : as_appends p p
| as_appends_cons (p : parse) (a : cert_as) (p1 p' : parse) :
    append_as p a = Some p1 -> as_appends p1 p' -> as_appends p p'.

(** The extension at place [i] is one of the four that [cert_parse_pre]
    hands to a decoder. *)
Definition recognized (x : X509) (i : Z) : bool :=
  match OBJ_obj2nid (X509_EXTENSION_get_object (X509_get_ext x i)) with
  | NID_sbgp_ipAddrBlock | NID_sbgp_autonomousSysNum
  | NID_sinfo_access | NID_certificate_policies => true
  | _ => false
  end.

(** The access description is stored as the manifest locator. *)
Definition taken_as_manifest (ad : ACCESS_DESCRIPTION) : bool :=
  negb (OBJ_cmp (method ad) carepo_oid =? 0) &&
  (OBJ_cmp (method ad) manifest_oid =? 0).

End Runs.

(** What the extension loop keeps of the SIA locators: with an SIA
    extension seen they pass the checks of [sbgp_sia], without one they
    are not set. *)
Definition sia_state {E : Extern} (s : parse * bool) : Prop :=
  if s.2 then sbgp_sia_check s.1 = Some s.1
  else mft (res s.1) = None /\ repo (res s.1) = None /\
       notify (res s.1) = None.

(** The fields of the record that no extension decoder writes. *)
Definition fixed_fields (c : cert) : Z * option string * option X509 :=
  (talid c, pubkey c, x509 c).

(** The entries of [t] sit under their own keys, as the nodes of the
    tree of [brkcmp] do. *)
Definition brk_keyed (t : brk_tree) : Prop :=
  forall key b, t !! key = Some b -> brk_key b = key.

(** [t] has an entry for AS [asid] and the router key of [cert], and that
    entry expires no earlier than [cert]. *)
Definition brk_holds (cert : cert) (asid : Z) (t : brk_tree) : Prop :=
  exists s k b,
    ski cert = Some s /\ pubkey cert = Some k /\
    t !! (asid, s, k) = Some b /\ expires cert <= b_expires b.

(** ** Option parsing of sndiod *)

(** The mode bits of sndiod, constants of its headers: the code below
    is read for any values of them. *)
Class Defs : Type := {
  MODE_PLAY : Z;
  MODE_REC : Z;
  MODE_MON : Z;
  MODE_MIDIMASK : Z
}.

(** [getword]: [Some p] with the new position when the word is at [str]
    and a comma or the end of the string follows it (the function writes
    [*str] and returns 1), [None] when it returns 0 and leaves [*str]. At
    the end of [str] the read of [*p] gives the terminator, which is no
    character of the word. *)
Fixpoint getword (word str : string) : option string :=
  match word with
  | EmptyString =>
      match str with
      | EmptyString => Some str
      | String c _ => if Ascii.eqb c "," then Some str else None
      end
  | String w word' =>
      match str with
      | String c p => if Ascii.eqb w c then getword word' p else None
      | EmptyString => None
      end
  end.

Section OptMode.
Context {D : Defs}.

(** The chain of [getword] calls in a turn of the loop of [opt_mode]:
    the mode with the bits of the word found and the position after it,
    [None] for the branch of [errx]. *)
Definition opt_mode_word (mode : Z) (p : string) : option (Z * string) :=
  match getword "play" p with
  | Some p' => Some (Z.lor mode MODE_PLAY, p')
  | None =>
      match getword "rec" p with
      | Some p' => Some (Z.lor mode MODE_REC, p')
      | None =>
          match getword "mon" p with
          | Some p' => Some (Z.lor mode MODE_MON, p')
          | None =>
              match getword "midi" p with
              | Some p' => Some (Z.lor mode MODE_MIDIMASK, p')
              | None => None
              end
          end
      end
  end.

(** The loop of [opt_mode], with a bound on its turns: [None] when the
    bound is used up, [Some Fatal] for [errx]. *)
Fixpoint opt_mode_loop (fuel : nat) (mode : Z) (p : string)
    : option (outcome Z) :=
  match fuel with
  | O => None
  | S fuel' =>
      match opt_mode_word mode p with
      | None => Some Fatal            (* errx(1, "%s: bad mode") *)
      | Some (mode', p') =>
          match p' with
          | EmptyString => Some (Done mode')
          | String _ p'' => opt_mode_loop fuel' mode' p''
          end
      end
  end.

(** [opt_mode] on the argument of the option. A turn of the loop moves
    [p] forward, so one turn more than the argument has characters is
    enough. *)
Definition opt_mode (optarg : string) : option (outcome Z) :=
  match opt_mode_loop (S (String.length optarg)) 0 optarg with
  | Some (Done mode) =>
      if mode =? 0 then Some Fatal    (* errx(1, "empty mode") *)
      else Some (Done mode)
  | r => r
  end.

(** The bits that [opt_mode] sets for a word of the list. *)
Definition mode_of_word (w : string) : option Z :=
  if String.eqb w "play" then Some MODE_PLAY
  else if String.eqb w "rec" then Some MODE_REC
  else if String.eqb w "mon" then Some MODE_MON
  else if String.eqb w "midi" then Some MODE_MIDIMASK
  else None.

End OptMode.

(** Values for the mode bits, for runs on examples. *)
Definition sample_defs : Defs :=
  {| MODE_PLAY := 1; MODE_REC := 2; MODE_MON := 16; MODE_MIDIMASK := 12 |}.

(** A comma or the end of the string is at [p]. *)
Definition at_delimiter (p : string) : Prop :=
  p = EmptyString \/ exists r, p = String "," r.

(** Case analysis along the branches of a decoder that succeeded. *)
Ltac decoder_cases :=
  repeat (case_match; try discriminate); simplify_eq.

(** ** Loops *)

Lemma for_each_invariant {S A : Type} (I : S -> Prop)
    (body : S -> A -> option S) (l : list A) :
  (forall s x s', I s -> body s x = Some s' -> I s') ->
  forall s s', I s -> for_each body l s = Some s' -> I s'.
Proof.
  intros Hbody. induction l as [|x l IH]; intros s s' Hs Hrun; simpl in Hrun.
  - by inversion Hrun; subst.
  - destruct (body s x) as [s1|] eqn:Hx; [|discriminate].
    eapply IH; [|exact Hrun]. eauto.
Qed.

Lemma for_each_simulation {S A : Type} (body1 body2 : S -> A -> option S)
    (l : list A) :
  (forall s x s', body1 s x = Some s' -> body2 s x = Some s') ->
  forall s s', for_each body1 l s = Some s' -> for_each body2 l s = Some s'.
Proof.
  intros Hbody. induction l as [|x l IH]; intros s s' Hrun; simpl in *.
  - done.
  - destruct (body1 s x) as [s1|] eqn:Hx; [|discriminate].
    rewrite (Hbody _ _ _ Hx). by apply IH.
Qed.

Lemma for_each_app {S A : Type} (body : S -> A -> option S) (l1 l2 : list A)
    (s : S) :
  for_each body (l1 ++ l2) s =
  match for_each body l1 s with
  | None => None
  | Some s1 => for_each body l2 s1
  end.
Proof.
  revert s; induction l1 as [|x l1 IH]; intros s; simpl; [done|].
  destruct (body s x); [apply IH | done].
Qed.

(** ** Pairwise relations and appending *)

Lemma pairwise_nil {A : Type} (R : A -> A -> Prop) : pairwise R [].
Proof. intros i j a b Hi. by rewrite lookup_nil in Hi. Qed.

Lemma pairwise_snoc {A : Type} (R : A -> A -> Prop) (l : list A) (x : A) :
  (forall a b, R a b -> R b a) ->
  pairwise R l -> Forall (fun e => R e x) l -> pairwise R (l ++ [x]).
Proof.
  intros Hsym Hl Hx i j a b Hi Hj Hij.
  rewrite Forall_lookup in Hx.
  destruct (decide (i < length l)%nat) as [Hil|Hil];
    destruct (decide (j < length l)%nat) as [Hjl|Hjl].
  - rewrite lookup_app_l in Hi, Hj by done. eauto.
  - rewrite lookup_app_l in Hi by done.
    rewrite lookup_app_r in Hj by lia.
    apply list_lookup_singleton_Some in Hj as [_ <-]. eauto.
  - rewrite lookup_app_l in Hj by done.
    rewrite lookup_app_r in Hi by lia.
    apply list_lookup_singleton_Some in Hi as [_ <-]. eauto.
  - rewrite lookup_app_r in Hi, Hj by lia.
    apply list_lookup_singleton_Some in Hi as [Hi _].
    apply list_lookup_singleton_Some in Hj as [Hj _]. lia.
Qed.

Lemma pairwise_two {A : Type} (R : A -> A -> Prop) (l : list A) (a b : A) :
  pairwise R l -> a ∈ l -> b ∈ l -> a <> b -> R a b.
Proof.
  intros Hl [i Hi]%list_elem_of_lookup [j Hj]%list_elem_of_lookup Hab.
  apply (Hl i j); [done..|]. intros ->. congruence.
Qed.

Lemma ip_compatible_sym a b : ip_compatible a b -> ip_compatible b a.
Proof. unfold ip_compatible. intros H Hafi. symmetry in Hafi. tauto. Qed.

Lemma as_compatible_sym a b : as_compatible a b -> as_compatible b a.
Proof. unfold as_compatible. tauto. Qed.

Lemma afi_eqb_eq a b : afi_eqb a b = true <-> a = b.
Proof. destruct a, b; simpl; split; congruence. Qed.

Lemma ip_is_inherit_true ip :
  ip_is_inherit ip = true <-> ip_type ip = CERT_IP_INHERIT.
Proof. unfold ip_is_inherit. destruct (ip_type ip); split; congruence. Qed.

Lemma as_is_inherit_true a : as_is_inherit a = true <-> a = CERT_AS_INHERIT.
Proof. destruct a; simpl; split; congruence. Qed.

Lemma ip_conflict_false ip e :
  ip_conflict ip e = false <-> ip_compatible e ip.
Proof.
  rewrite <- not_true_iff_false.
  unfold ip_conflict, ip_compatible, ip_ranges_overlap.
  rewrite andb_true_iff, !orb_true_iff, andb_true_iff, afi_eqb_eq.
  rewrite !ip_is_inherit_true, !Z.leb_le. tauto.
Qed.

Lemma as_conflict_false a e :
  as_conflict a e = false <-> as_compatible e a.
Proof.
  rewrite <- not_true_iff_false.
  unfold as_conflict, as_compatible, as_ranges_overlap.
  rewrite !orb_true_iff, andb_true_iff.
  rewrite !as_is_inherit_true, !Z.leb_le. tauto.
Qed.

Lemma spec_ip_addr_check_overlap_true ip l :
  spec_ip_addr_check_overlap ip l = true <->
  Forall (fun e => ip_compatible e ip) l.
Proof.
  unfold spec_ip_addr_check_overlap.
  rewrite forallb_forall, Forall_forall.
  split; intros H e He.
  - apply ip_conflict_false, negb_true_iff, H. by apply list_elem_of_In.
  - apply negb_true_iff, ip_conflict_false, H. by apply list_elem_of_In.
Qed.

Lemma spec_as_check_overlap_true a l :
  spec_as_check_overlap a l = true <->
  Forall (fun e => as_compatible e a) l.
Proof.
  unfold spec_as_check_overlap.
  rewrite forallb_forall, Forall_forall.
  split; intros H e He.
  - apply as_conflict_false, negb_true_iff, H. by apply list_elem_of_In.
  - apply negb_true_iff, as_conflict_false, H. by apply list_elem_of_In.
Qed.

(** ** The decoder keeps the resource lists in order *)

Section DecoderInvariant.
Context {E : Extern}.

Lemma append_ip_Some p ip p' :
  append_ip p ip = Some p' <->
  Forall (fun e => ip_compatible e ip) (ips (res p)) /\
  ipsz (res p) < MAX_IP_SIZE /\
  p' = with_res p (set_ips (ips (res p) ++ [ip]) (res p)).
Proof.
  unfold append_ip. cbn [ip_addr_check_overlap spec_checks].
  rewrite <- spec_ip_addr_check_overlap_true.
  destruct (spec_ip_addr_check_overlap ip (ips (res p))); simpl.
  - destruct (Z.geb_spec (ipsz (res p)) MAX_IP_SIZE); split.
    + discriminate.
    + intros (_ & ? & _). lia.
    + intros [= <-]. repeat split; lia.
    + by intros (_ & _ & ->).
  - split; [discriminate | by intros [? _]].
Qed.

Lemma append_as_Some p a p' :
  append_as p a = Some p' <->
  Forall (fun e => as_compatible e a) (as_ (res p)) /\
  asz (res p) < MAX_AS_SIZE /\
  p' = with_res p (set_as (as_ (res p) ++ [a]) (res p)).
Proof.
  unfold append_as. cbn [as_check_overlap spec_checks].
  rewrite <- spec_as_check_overlap_true.
  destruct (spec_as_check_overlap a (as_ (res p))); simpl.
  - destruct (Z.geb_spec (asz (res p)) MAX_AS_SIZE); split.
    + discriminate.
    + intros (_ & ? & _). lia.
    + intros [= <-]. repeat split; lia.
    + by intros (_ & _ & ->).
  - split; [discriminate | by intros [? _]].
Qed.

Lemma append_ip_keeps ip : keeps (fun p => append_ip p ip).
Proof.
  intros p p' (Hip & Has & Hval) (Hc & _ & ->)%append_ip_Some. simpl.
  split; [|done].
  apply pairwise_snoc; [apply ip_compatible_sym | done..].
Qed.

Lemma append_as_keeps a :
  as_entry_valid a -> keeps (fun p => append_as p a).
Proof.
  intros Ha p p' (Hip & Has & Hval) (Hc & _ & ->)%append_as_Some. simpl.
  split; [done|]. split.
  - apply pairwise_snoc; [apply as_compatible_sym | done..].
  - apply Forall_app. split; [done|]. by constructor.
Qed.

Lemma for_each_keeps {A : Type} (body : parse -> A -> option parse)
    (l : list A) :
  (forall x, keeps (fun p => body p x)) -> keeps (for_each body l).
Proof.
  intros Hbody p p' Hp Hrun.
  apply (for_each_invariant (fun p => resources_ok (res p)) body l)
    with (s := p); [|done..].
  intros s x s' Hs Hx. by apply (Hbody x s s').
Qed.

Lemma sbgp_addr_keeps ip bs : keeps (fun p => sbgp_addr p ip bs).
Proof.
  intros p p' Hp H. unfold sbgp_addr in H. decoder_cases.
  by eapply append_ip_keeps.
Qed.

Lemma sbgp_addr_range_keeps ip d : keeps (fun p => sbgp_addr_range p ip d).
Proof.
  intros p p' Hp H. unfold sbgp_addr_range in H. decoder_cases.
  by eapply append_ip_keeps.
Qed.

Lemma sbgp_addr_or_range_keeps ip d :
  keeps (fun p => sbgp_addr_or_range p ip d).
Proof.
  intros p p' Hp H. unfold sbgp_addr_or_range in H. decoder_cases.
  eapply for_each_keeps; [|done..].
  intros t q q' Hq Ht. unfold sbgp_addr_or_range_item in Ht.
  destruct t; try discriminate.
  - by eapply sbgp_addr_keeps.
  - by eapply sbgp_addr_range_keeps.
Qed.

Lemma sbgp_ipaddrfam_keeps d : keeps (fun p => sbgp_ipaddrfam p d).
Proof.
  intros p p' Hp H. unfold sbgp_ipaddrfam in H. decoder_cases.
  - by eapply append_ip_keeps.
  - by eapply sbgp_addr_or_range_keeps.
Qed.

Lemma sbgp_ipaddrblk_keeps ext : keeps (fun p => sbgp_ipaddrblk p ext).
Proof.
  intros p p' Hp H. unfold sbgp_ipaddrblk in H. decoder_cases.
  eapply for_each_keeps; [|done..].
  intros t q q' Hq Ht. unfold sbgp_ipaddrblk_item in Ht.
  destruct t; try discriminate. by eapply sbgp_ipaddrfam_keeps.
Qed.

Lemma sbgp_asrange_Some p d p' :
  sbgp_asrange p d = Some p' ->
  exists i0 i1 min max,
    d2i_ASN1_SEQUENCE_ANY d = Some [V_ASN1_INTEGER i0; V_ASN1_INTEGER i1] /\
    as_id_parse i0 = Some min /\ as_id_parse i1 = Some max /\
    min < max /\ append_as p (CERT_AS_RANGE min max) = Some p'.
Proof.
  intros H. unfold sbgp_asrange in H. decoder_cases.
  eexists _, _, _, _. repeat split; try done. lia.
Qed.

Lemma sbgp_asid_Some p i p' :
  sbgp_asid p i = Some p' ->
  exists id, as_id_parse i = Some id /\ id <> 0 /\
             append_as p (CERT_AS_ID id) = Some p'.
Proof.
  intros H. unfold sbgp_asid in H. decoder_cases.
  eexists. repeat split; try done. lia.
Qed.

Lemma sbgp_asrange_keeps d : keeps (fun p => sbgp_asrange p d).
Proof.
  intros p p' Hp (i0 & i1 & lo & hi & _ & _ & _ & Hlt & H)%sbgp_asrange_Some.
  by eapply (append_as_keeps (CERT_AS_RANGE lo hi)).
Qed.

Lemma sbgp_asid_keeps i : keeps (fun p => sbgp_asid p i).
Proof.
  intros p p' Hp (id & _ & Hid & H)%sbgp_asid_Some.
  by eapply (append_as_keeps (CERT_AS_ID id)).
Qed.

Lemma sbgp_asnum_keeps d : keeps (fun p => sbgp_asnum p d).
Proof.
  intros p p' Hp H. unfold sbgp_asnum in H. decoder_cases.
  - by eapply (append_as_keeps CERT_AS_INHERIT).
  - eapply for_each_keeps; [|done..].
    intros t q q' Hq Ht. unfold sbgp_asnum_item in Ht.
    destruct t; try discriminate.
    + by eapply sbgp_asid_keeps.
    + by eapply sbgp_asrange_keeps.
Qed.

Lemma sbgp_assysnum_keeps ext : keeps (fun p => sbgp_assysnum p ext).
Proof.
  intros p p' Hp H. unfold sbgp_assysnum in H. decoder_cases.
  eapply for_each_keeps; [|done..].
  intros t q q' Hq Ht. unfold sbgp_assysnum_item in Ht.
  decoder_cases; [done|]. by eapply sbgp_asnum_keeps.
Qed.

End DecoderInvariant.

(** ** The decoder with and without the checks *)

Section DecoderSimulation.
Context {E : Extern} {K : Checks}.

Lemma append_ip_unchecked ip :
  unchecked_too (fun p => append_ip (K := K) p ip)
                (fun p => append_ip (K := no_checks) p ip).
Proof.
  intros p p' H. unfold append_ip in *. simpl.
  destruct (ip_addr_check_overlap ip (ips (res p))); [done | discriminate].
Qed.

Lemma append_as_unchecked a :
  unchecked_too (fun p => append_as (K := K) p a)
                (fun p => append_as (K := no_checks) p a).
Proof.
  intros p p' H. unfold append_as in *. simpl.
  destruct (as_check_overlap a (as_ (res p))); [done | discriminate].
Qed.

Lemma for_each_unchecked {A : Type} (f g : parse -> A -> option parse)
    (l : list A) :
  (forall x, unchecked_too (fun p => f p x) (fun p => g p x)) ->
  unchecked_too (for_each f l) (for_each g l).
Proof.
  intros Hfg p p'. apply for_each_simulation. intros s x s'. apply Hfg.
Qed.

Lemma sbgp_addr_unchecked ip bs :
  unchecked_too (fun p => sbgp_addr (K := K) p ip bs)
                (fun p => sbgp_addr (K := no_checks) p ip bs).
Proof.
  intros p p' H. unfold sbgp_addr in *. decoder_cases.
  by apply append_ip_unchecked.
Qed.

Lemma sbgp_addr_range_unchecked ip d :
  unchecked_too (fun p => sbgp_addr_range (K := K) p ip d)
                (fun p => sbgp_addr_range (K := no_checks) p ip d).
Proof.
  intros p p' H. unfold sbgp_addr_range in *. decoder_cases.
  by apply append_ip_unchecked.
Qed.

Lemma sbgp_addr_or_range_unchecked ip d :
  unchecked_too (fun p => sbgp_addr_or_range (K := K) p ip d)
                (fun p => sbgp_addr_or_range (K := no_checks) p ip d).
Proof.
  intros p p' H. unfold sbgp_addr_or_range in *. decoder_cases.
  revert H. apply for_each_unchecked. intros t q q' Ht.
  unfold sbgp_addr_or_range_item in *. destruct t; try discriminate.
  - by apply sbgp_addr_unchecked.
  - by apply sbgp_addr_range_unchecked.
Qed.

Lemma sbgp_ipaddrfam_unchecked d :
  unchecked_too (fun p => sbgp_ipaddrfam (K := K) p d)
                (fun p => sbgp_ipaddrfam (K := no_checks) p d).
Proof.
  intros p p' H. unfold sbgp_ipaddrfam in *. decoder_cases.
  - by apply append_ip_unchecked.
  - by apply sbgp_addr_or_range_unchecked.
Qed.

Lemma sbgp_ipaddrblk_unchecked ext :
  unchecked_too (fun p => sbgp_ipaddrblk (K := K) p ext)
                (fun p => sbgp_ipaddrblk (K := no_checks) p ext).
Proof.
  intros p p' H. unfold sbgp_ipaddrblk in *. decoder_cases.
  revert H. apply for_each_unchecked. intros t q q' Ht.
  unfold sbgp_ipaddrblk_item in *. destruct t; try discriminate.
  by apply sbgp_ipaddrfam_unchecked.
Qed.

Lemma sbgp_asrange_unchecked d :
  unchecked_too (fun p => sbgp_asrange (K := K) p d)
                (fun p => sbgp_asrange (K := no_checks) p d).
Proof.
  intros p p' H. unfold sbgp_asrange in *. decoder_cases.
  by apply append_as_unchecked.
Qed.

Lemma sbgp_asid_unchecked i :
  unchecked_too (fun p => sbgp_asid (K := K) p i)
                (fun p => sbgp_asid (K := no_checks) p i).
Proof.
  intros p p' H. unfold sbgp_asid in *. decoder_cases.
  by apply append_as_unchecked.
Qed.

Lemma sbgp_asnum_unchecked d :
  unchecked_too (fun p => sbgp_asnum (K := K) p d)
                (fun p => sbgp_asnum (K := no_checks) p d).
Proof.
  intros p p' H. unfold sbgp_asnum in *. decoder_cases.
  - by apply append_as_unchecked.
  - revert H. apply for_each_unchecked. intros t q q' Ht.
    unfold sbgp_asnum_item in *. destruct t; try discriminate.
    + by apply sbgp_asid_unchecked.
    + by apply sbgp_asrange_unchecked.
Qed.

Lemma sbgp_assysnum_unchecked ext :
  unchecked_too (fun p => sbgp_assysnum (K := K) p ext)
                (fun p => sbgp_assysnum (K := no_checks) p ext).
Proof.
  intros p p' H. unfold sbgp_assysnum in *. decoder_cases.
  revert H. apply for_each_unchecked. intros t q q' Ht.
  unfold sbgp_assysnum_item in *. decoder_cases; [done|].
  by apply sbgp_asnum_unchecked.
Qed.

Lemma cert_parse_pre_ext_unchecked x s i s' :
  cert_parse_pre_ext (K := K) x s i = Some s' ->
  cert_parse_pre_ext (K := no_checks) x s i = Some s'.
Proof.
  destruct s as [p b]. unfold cert_parse_pre_ext.
  destruct (OBJ_obj2nid _); try done.
  - destruct (sbgp_ipaddrblk p _) as [q|] eqn:Hq; [|discriminate].
    by rewrite (sbgp_ipaddrblk_unchecked _ _ _ Hq).
  - destruct (sbgp_assysnum p _) as [q|] eqn:Hq; [|discriminate].
    by rewrite (sbgp_assysnum_unchecked _ _ _ Hq).
Qed.

Lemma cert_parse_pre_unchecked fn der c :
  cert_parse_pre (K := K) fn der = Done (Some c) ->
  cert_parse_pre (K := no_checks) fn der = Done (Some c).
Proof.
  unfold cert_parse_pre. intros H.
  destruct der as [d|]; [|done].
  destruct (d2i_X509 d) as [x|]; [|done].
  destruct (X509_get_ext_count x <? 0); [done|].
  destruct (for_each (cert_parse_pre_ext x) _ _) as [[p b]|] eqn:Hrun;
    [|discriminate].
  apply (for_each_simulation _ (cert_parse_pre_ext (K := no_checks) x))
    in Hrun; [|apply cert_parse_pre_ext_unchecked].
  by rewrite Hrun.
Qed.

End DecoderSimulation.

Example sample_router_parsed :
  cert_parse_pre (E := sample_env) "router.cer" (Some [x00])
  = Done (Some sample_router).
Proof. vm_compute. reflexivity. Qed.

Example sample_ca_parsed :
  cert_parse_pre (E := sample_env) "ca.cer" (Some [x01])
  = Done (Some sample_ca).
Proof. vm_compute. reflexivity. Qed.

Example sample_overlapping_refused :
  cert_parse_pre (E := sample_env) "bad.cer" (Some [x02]) = Done None.
Proof. vm_compute. reflexivity. Qed.

Example sample_overlapping_unchecked :
  cert_parse_pre (E := sample_env) (K := no_checks) "bad.cer" (Some [x02])
  = Done (Some sample_overlapping).
Proof. vm_compute. reflexivity. Qed.

Example sample_ta_parsed :
  cert_parse_pre (E := sample_env) "ta.cer" (Some [x03])
  = Done (Some sample_ta).
Proof. vm_compute. reflexivity. Qed.

(** ** The assembler *)

Section Assembler.
Context {E : Extern}.

Lemma sbgp_sia_item_lists p ad p' :
  sbgp_sia_item p ad = Some p' ->
  ips (res p') = ips (res p) /\ as_ (res p') = as_ (res p).
Proof. unfold sbgp_sia_item. intros H. by decoder_cases. Qed.

Lemma sbgp_sia_lists p ext p' :
  sbgp_sia p ext = Some p' ->
  ips (res p') = ips (res p) /\ as_ (res p') = as_ (res p).
Proof.
  unfold sbgp_sia. intros H.
  destruct (X509_EXTENSION_get_critical ext); [discriminate|].
  destruct (X509V3_EXT_d2i_sia ext) as [sia|]; [|discriminate].
  destruct (for_each sbgp_sia_item sia p) as [q|] eqn:Hq; [|discriminate].
  assert (Hp : p' = q) by (unfold sbgp_sia_check in H; by decoder_cases).
  subst q.
  apply (for_each_invariant
           (fun q => ips (res q) = ips (res p) /\ as_ (res q) = as_ (res p))
           sbgp_sia_item sia) with (s := p); [|done..].
  intros s x s' [Hi Ha] [Hi' Ha']%sbgp_sia_item_lists. split; congruence.
Qed.

Lemma sbgp_sia_keeps ext : keeps (fun p => sbgp_sia p ext).
Proof.
  intros p p' Hp [Hi Ha]%sbgp_sia_lists.
  unfold resources_ok in *. by rewrite Hi, Ha.
Qed.

Lemma certificate_policies_keeps ext :
  keeps (fun p => certificate_policies p ext).
Proof. intros p p' Hp H. unfold certificate_policies in H. by decoder_cases. Qed.

Lemma cert_parse_pre_ext_keeps x s i s' :
  resources_ok (res s.1) -> cert_parse_pre_ext x s i = Some s' ->
  resources_ok (res s'.1).
Proof.
  destruct s as [p b]. unfold cert_parse_pre_ext. simpl. intros Hp H.
  destruct (OBJ_obj2nid _); simplify_eq; try done.
  - destruct (sbgp_ipaddrblk p _) as [q|] eqn:Hq; simplify_eq/=.
    by eapply sbgp_ipaddrblk_keeps.
  - destruct (sbgp_assysnum p _) as [q|] eqn:Hq; simplify_eq/=.
    by eapply sbgp_assysnum_keeps.
  - destruct (sbgp_sia p _) as [q|] eqn:Hq; simplify_eq/=.
    by eapply sbgp_sia_keeps.
  - destruct (certificate_policies p _) as [q|] eqn:Hq; simplify_eq/=.
    by eapply certificate_policies_keeps.
Qed.

Lemma cert_parse_pre_ext_flag x p b i p' b' :
  cert_parse_pre_ext x (p, b) i = Some (p', b') -> b' = b || is_sia x i.
Proof.
  unfold cert_parse_pre_ext, is_sia. intros H.
  destruct (OBJ_obj2nid _);
    repeat match type of H with
           | option_map _ ?o = _ => destruct o; simplify_eq/=
           end;
    simplify_eq; by rewrite ?orb_false_r, ?orb_true_r.
Qed.

Lemma cert_parse_pre_loop_flag x l p b p' b' :
  for_each (cert_parse_pre_ext x) l (p, b) = Some (p', b') ->
  b' = b || existsb (is_sia x) l.
Proof.
  revert p b. induction l as [|i l IH]; intros p b H; cbn [for_each] in H.
  - simplify_eq. by rewrite orb_false_r.
  - destruct (cert_parse_pre_ext x (p, b) i) as [[q c]|] eqn:Hi;
      [|discriminate].
    apply cert_parse_pre_ext_flag in Hi as ->.
    apply IH in H as ->. simpl. by rewrite orb_assoc.
Qed.

(** An accepted certificate has gone through every stage. *)
Lemma cert_parse_pre_Some fn der c :
  cert_parse_pre fn der = Done (Some c) ->
  exists d x p sia_present c0,
    der = Some d /\ d2i_X509 d = Some x /\ 0 <= X509_get_ext_count x /\
    for_each (cert_parse_pre_ext x) (seqZ 0 (X509_get_ext_count x))
      ({| res := cert_zero; fn := fn |}, false) = Some (p, sia_present) /\
    cert_parse_pre_fields x (res p) = Some c0 /\
    cert_parse_pre_required x c0 sia_present = Some c.
Proof.
  unfold cert_parse_pre. intros H.
  destruct der as [d|]; [|discriminate].
  destruct (d2i_X509 d) as [x|] eqn:Hx; [|discriminate].
  destruct (Z.ltb_spec (X509_get_ext_count x) 0); [discriminate|].
  destruct (for_each _ _ _) as [[p b]|] eqn:Hrun; [|discriminate].
  destruct (cert_parse_pre_fields x (res p)) as [c0|] eqn:Hf; [|discriminate].
  injection H as H. by eexists d, x, p, b, c0.
Qed.

Lemma cert_parse_pre_fields_Some x c c0 :
  cert_parse_pre_fields x c = Some c0 ->
  ips c0 = ips c /\ as_ c0 = as_ c /\ mft c0 = mft c /\
  repo c0 = repo c /\ pubkey c0 = pubkey c /\
  purpose c0 = x509_get_purpose x /\ x509_get_ski x = Some (ski c0).
Proof. unfold cert_parse_pre_fields. intros H. by decoder_cases. Qed.

(** The validation on required fields, read off the code. *)
Lemma cert_parse_pre_required_Some x c0 sia_present c :
  cert_parse_pre_required x c0 sia_present = Some c ->
  ips c = ips c0 /\ as_ c = as_ c0 /\ mft c = mft c0 /\
  ski c = ski c0 /\ purpose c = purpose c0 /\
  x509 c = Some x /\ ski c <> None /\
  match purpose c0 with
  | CERT_PURPOSE_CA =>
      mft c0 <> None /\ ~ (as_ c0 = [] /\ ips c0 = []) /\
      pubkey c = pubkey c0
  | CERT_PURPOSE_BGPSEC_ROUTER =>
      pubkey c = x509_get_pubkey x /\ pubkey c <> None /\ ips c0 = [] /\
      sia_present = false
  | CERT_PURPOSE_INVALID => False
  end.
Proof.
  unfold cert_parse_pre_required. intros H.
  destruct (purpose c0) eqn:Hpur; [discriminate| |].
  - destruct (mft c0) eqn:Hm; [|discriminate].
    destruct ((asz c0 =? 0) && (ipsz c0 =? 0)) eqn:Hz; [discriminate|].
    destruct (ski c0) eqn:Hs; [|discriminate]. simplify_eq. simpl.
    rewrite Hs, Hm. repeat split; try done.
    intros [Ha Hi]. unfold asz, ipsz in Hz. by rewrite Ha, Hi in Hz.
  - destruct (x509_get_pubkey x) as [k|] eqn:Hk; [|discriminate].
    destruct (Z.gtb_spec (ipsz (set_pubkey (Some k) c0)) 0) as [|Hn];
      [discriminate|].
    destruct sia_present; [discriminate|]. simpl in H.
    destruct (ski c0) eqn:Hs; [|discriminate]. simplify_eq. simpl.
    rewrite Hs. repeat split; try done.
    unfold ipsz in Hn. simpl in Hn. destruct (ips c0); [done|].
    simpl in Hn. lia.
Qed.

Lemma cert_parse_pre_resources fn der c :
  cert_parse_pre fn der = Done (Some c) -> resources_ok c.
Proof.
  intros (d & x & p & b & c0 & -> & Hx & Hn & Hrun & Hf & Hr)%cert_parse_pre_Some.
  apply cert_parse_pre_fields_Some in Hf as (Hi & Ha & _).
  apply cert_parse_pre_required_Some in Hr as (Hi' & Ha' & _).
  assert (Hp : resources_ok (res p)).
  { refine (for_each_invariant (fun s => resources_ok (res s.1))
              (cert_parse_pre_ext x) _ _ _ (p, b) _ Hrun).
    - intros s i s'. apply cert_parse_pre_ext_keeps.
    - split; [apply pairwise_nil | split; [apply pairwise_nil | constructor]]. }
  unfold resources_ok in *. by rewrite Hi', Ha', Hi, Ha.
Qed.

Lemma cert_parse_pre_Fatal_unchecked (K : Checks) fn der :
  cert_parse_pre (K := K) fn der = Fatal ->
  cert_parse_pre (K := no_checks) fn der = Fatal.
Proof.
  unfold cert_parse_pre. intros H.
  destruct der as [d|]; [|done].
  destruct (d2i_X509 d) as [x|]; [|done].
  destruct (X509_get_ext_count x <? 0); [done|].
  destruct (for_each (cert_parse_pre_ext (K := K) x) _ _) as [[p b]|];
    [|discriminate].
  destruct (cert_parse_pre_fields x (res p)); discriminate.
Qed.

End Assembler.

(** ** Resource lists of accepted certificates *)

(** C1. In a certificate that [cert_parse_pre] accepts, two entries of the
    IP list that are of one address family have disjoint ranges and
    neither is an inherit marker (so a family has at most one inherit
    entry, and then no explicit entry), and the same holds of two entries
    of the AS list. [append_ip] and [append_as] fail on an entry that an
    entry of the list stands against. A certificate that the decoder
    without the checks would take, with lists that break the rule, is
    rejected as a whole. *)
Theorem accepted_resources_disjoint {E : Extern} (fn : string)
    (der : option bytes) :
  (forall c, cert_parse_pre fn der = Done (Some c) ->
     (forall (i j : nat) (a b : cert_ip),
        ips c !! i = Some a -> ips c !! j = Some b -> i <> j ->
        ip_afi a = ip_afi b ->
        ip_type a <> CERT_IP_INHERIT /\ ip_type b <> CERT_IP_INHERIT /\
        ~ (ip_min a <= ip_max b /\ ip_min b <= ip_max a)) /\
     (forall (i j : nat) (a b : cert_as),
        as_ c !! i = Some a -> as_ c !! j = Some b -> i <> j ->
        a <> CERT_AS_INHERIT /\ b <> CERT_AS_INHERIT /\
        ~ (as_lo a <= as_hi b /\ as_lo b <= as_hi a))) /\
  (forall (p : parse) (ip e : cert_ip),
     e ∈ ips (res p) -> ~ ip_compatible e ip -> append_ip p ip = None) /\
  (forall (p : parse) (a e : cert_as),
     e ∈ as_ (res p) -> ~ as_compatible e a -> append_as p a = None) /\
  (forall c, cert_parse_pre (K := no_checks) fn der = Done (Some c) ->
     ~ (pairwise ip_compatible (ips c) /\ pairwise as_compatible (as_ c)) ->
     cert_parse_pre fn der = Done None).
Proof.
  repeat apply conj.
  - intros c (Hip & Has & _)%cert_parse_pre_resources. split.
    + intros i j a b Hi Hj Hij. by apply (Hip i j).
    + intros i j a b Hi Hj Hij. by apply (Has i j).
  - intros p ip e He Hbad.
    destruct (append_ip p ip) as [p'|] eqn:Happ; [|done].
    apply append_ip_Some in Happ as (Hall & _).
    rewrite Forall_forall in Hall. destruct Hbad. by apply Hall.
  - intros p a e He Hbad.
    destruct (append_as p a) as [p'|] eqn:Happ; [|done].
    apply append_as_Some in Happ as (Hall & _).
    rewrite Forall_forall in Hall. destruct Hbad. by apply Hall.
  - intros c Hfree Hbad.
    destruct (cert_parse_pre (K := spec_checks) fn der) as [|[c'|]]
      eqn:Hreal; [| |done].
    + apply cert_parse_pre_Fatal_unchecked in Hreal. congruence.
    + pose proof (cert_parse_pre_resources _ _ _ Hreal) as (Hip & Has & _).
      apply cert_parse_pre_unchecked in Hreal.
      assert (c' = c) by congruence. subst c'. tauto.
Qed.

Lemma accepted_resources_disjoint_witness :
  (forall (i j : nat) (a b : cert_ip),
     ips sample_ca !! i = Some a -> ips sample_ca !! j = Some b -> i <> j ->
     ip_afi a = ip_afi b ->
     ip_type a <> CERT_IP_INHERIT /\ ip_type b <> CERT_IP_INHERIT /\
     ~ (ip_min a <= ip_max b /\ ip_min b <= ip_max a)) /\
  cert_parse_pre (E := sample_env) "bad.cer" (Some [x02]) = Done None.
Proof.
  split.
  - apply (accepted_resources_disjoint (E := sample_env) "ca.cer"
             (Some [x01])).
    vm_compute. reflexivity.
  - apply (accepted_resources_disjoint (E := sample_env) "bad.cer"
             (Some [x02])) with (c := sample_overlapping).
    + vm_compute. reflexivity.
    + intros [_ Has].
      destruct (Has 0%nat 1%nat (CERT_AS_ID 12) (CERT_AS_RANGE 10 20))
        as (_ & _ & Hn); [reflexivity | reflexivity | lia |].
      apply Hn. simpl. lia.
Defined.

(** C5. [sbgp_asid] rejects the identifier 0; [sbgp_asrange] rejects a
    range whose maximum equals its minimum or lies below it; so every
    explicit entry of the AS list of an accepted certificate is a nonzero
    identifier or a range with minimum below maximum. *)
Theorem as_decoder_rejects_degenerate {E : Extern} :
  (forall (p : parse) (i : ASN1_INTEGER),
     as_id_parse i = Some 0 -> sbgp_asid p i = None) /\
  (forall (p : parse) (d : bytes) (i0 i1 : ASN1_INTEGER) (min max : Z),
     d2i_ASN1_SEQUENCE_ANY d = Some [V_ASN1_INTEGER i0; V_ASN1_INTEGER i1] ->
     as_id_parse i0 = Some min -> as_id_parse i1 = Some max ->
     max <= min -> sbgp_asrange p d = None) /\
  (forall fn der c, cert_parse_pre fn der = Done (Some c) ->
     forall a, a ∈ as_ c ->
       match a with
       | CERT_AS_ID id => id <> 0
       | CERT_AS_RANGE min max => min < max
       | CERT_AS_INHERIT => True
       end).
Proof.
  repeat apply conj.
  - intros p i Hi. unfold sbgp_asid. by rewrite Hi.
  - intros p d i0 i1 lo hi Hd H0 H1 Hle. unfold sbgp_asrange.
    rewrite Hd, H0, H1.
    destruct (Z.eqb_spec hi lo); [done|].
    destruct (Z.ltb_spec hi lo); [done | lia].
  - intros fn der c (_ & _ & Hval)%cert_parse_pre_resources a Ha.
    rewrite Forall_forall in Hval. by apply (Hval a).
Qed.

Lemma as_decoder_rejects_degenerate_witness :
  sbgp_asid (E := sample_env) {| res := cert_zero; fn := "f" |} [x00] = None /\
  sbgp_asrange (E := sample_env) {| res := cert_zero; fn := "f" |} [x34]
  = None /\
  (10 < 20).
Proof.
  pose proof (as_decoder_rejects_degenerate (E := sample_env))
    as (Hid & Hrange & Hall).
  repeat apply conj.
  - apply Hid. reflexivity.
  - apply (Hrange _ _ [x64] [x64] 100 100); [reflexivity.. | lia].
  - apply (Hall "ca.cer"%string (Some [x01]) sample_ca eq_refl
             (CERT_AS_RANGE 10 20)).
    apply list_elem_of_In. simpl. tauto.
Defined.

(** ** Required fields *)

(** C2. A certificate that [cert_parse_pre] accepts has purpose CA or
    BGPsec router, as the extractor classified it, and a subject key
    identifier. With purpose CA it has a manifest locator and an IP or an
    AS entry. With purpose BGPsec router it has the public key that was
    extracted, no IP entry, and none of its extensions is an SIA
    extension. Every other certificate is rejected. *)
Theorem cert_parse_pre_purpose_rules {E : Extern} (fn : string)
    (der : option bytes) (c : cert) :
  cert_parse_pre fn der = Done (Some c) ->
  exists d x,
    der = Some d /\ d2i_X509 d = Some x /\ x509 c = Some x /\
    purpose c = x509_get_purpose x /\
    ski c <> None /\
    match purpose c with
    | CERT_PURPOSE_CA =>
        mft c <> None /\ (ips c <> [] \/ as_ c <> [])
    | CERT_PURPOSE_BGPSEC_ROUTER =>
        pubkey c = x509_get_pubkey x /\ pubkey c <> None /\ ips c = [] /\
        forall i, 0 <= i < X509_get_ext_count x ->
          OBJ_obj2nid (X509_EXTENSION_get_object (X509_get_ext x i))
          <> NID_sinfo_access
    | CERT_PURPOSE_INVALID => False
    end.
Proof.
  intros (d & x & p & b & c0 & -> & Hx & Hn & Hrun & Hf & Hr)%cert_parse_pre_Some.
  apply cert_parse_pre_fields_Some in Hf as (_ & _ & _ & _ & _ & Hpur & _).
  apply cert_parse_pre_required_Some
    in Hr as (Hi & Ha & Hm & Hs & Hp & Hx5 & Hski & Hrule).
  exists d, x. rewrite Hp, Hpur in *. repeat split; try done.
  destruct (x509_get_purpose x); [done| |].
  - destruct Hrule as (Hmft & Hres & _). rewrite Hm, Hi, Ha. split; [done|].
    destruct (ips c0); [|by left]. destruct (as_ c0); [|by right].
    by destruct Hres.
  - destruct Hrule as (Hk & Hk' & Hips & ->). rewrite Hi.
    repeat split; try done.
    intros i Hi' Hnid. apply cert_parse_pre_loop_flag in Hrun.
    simpl in Hrun. symmetry in Hrun. apply not_true_iff_false in Hrun.
    apply Hrun, existsb_exists. exists i. split.
    + apply list_elem_of_In, elem_of_seqZ. lia.
    + unfold is_sia. by rewrite Hnid.
Qed.

Lemma cert_parse_pre_purpose_rules_witness :
  (mft sample_ca <> None /\ (ips sample_ca <> [] \/ as_ sample_ca <> [])) /\
  (pubkey sample_router <> None /\ ips sample_router = []).
Proof.
  split.
  - destruct (cert_parse_pre_purpose_rules (E := sample_env) "ca.cer"
                (Some [x01]) sample_ca eq_refl)
      as (d & x & _ & _ & _ & _ & _ & Hrule).
    exact Hrule.
  - destruct (cert_parse_pre_purpose_rules (E := sample_env) "router.cer"
                (Some [x00]) sample_router eq_refl)
      as (d & x & _ & _ & _ & _ & _ & Hrule).
    simpl in Hrule. tauto.
Defined.

(** ** C strings *)

Lemma strcmp_zero a b : strcmp a b = 0 <-> a = b.
Proof.
  unfold strcmp. split.
  - intros H. apply String.compare_eq_iff.
    by destruct (String.compare a b).
  - intros <-. pose proof (String.compare_antisym a a) as H.
    by destruct (String.compare a a).
Qed.

Lemma strstr_zero h n : strstr h n = Some 0%nat <-> String.prefix n h = true.
Proof.
  destruct h as [|ch h]; cbn [strstr].
  - destruct (String.prefix n ""); split; congruence.
  - destruct (String.prefix n (String ch h)); [done|].
    destruct (strstr h n); cbn [option_map]; split; congruence.
Qed.

Lemma append_String a r rest :
  (String a r ++ rest)%string = String a (r ++ rest)%string.
Proof. reflexivity. Qed.

Lemma prefix_append r m :
  String.prefix r m = true <-> exists rest, m = (r ++ rest)%string.
Proof.
  revert m. induction r as [|a r IH]; intros [|b m]; simpl.
  - split; [by exists EmptyString | done].
  - split; [by exists (String b m) | done].
  - split; [done | by intros [rest ?]].
  - destruct (ascii_dec a b) as [->|Hab].
    + rewrite IH.
      split; intros [rest Hr]; exists rest; rewrite append_String in *;
        congruence.
    + split; [done|]. intros [rest Hr]. rewrite append_String in Hr.
      congruence.
Qed.

(** ** Subject Information Access *)

(** C6. When [sbgp_sia] lets a certificate pass, the extension is not
    critical and, in the state left by the scan of the access
    descriptions, the manifest and the repository locators are both set,
    the manifest locator begins with the repository locator, and the file
    extension of the manifest locator is that of a manifest. *)
Theorem sbgp_sia_passes_only {E : Extern} (p : parse) (ext : X509_EXTENSION)
    (p' : parse) :
  sbgp_sia p ext = Some p' ->
  X509_EXTENSION_get_critical ext = false /\
  (exists sia, X509V3_EXT_d2i_sia ext = Some sia /\
               for_each sbgp_sia_item sia p = Some p') /\
  exists m r rest,
    mft (res p') = Some m /\ repo (res p') = Some r /\
    m = (r ++ rest)%string /\
    rtype_from_file_extension m = RTYPE_MFT.
Proof.
  unfold sbgp_sia. intros H.
  destruct (X509_EXTENSION_get_critical ext); [discriminate|].
  destruct (X509V3_EXT_d2i_sia ext) as [sia|]; [|discriminate].
  destruct (for_each sbgp_sia_item sia p) as [q|] eqn:Hq; [|discriminate].
  unfold sbgp_sia_check in H.
  destruct (mft (res q)) as [m|] eqn:Hm; [|discriminate].
  destruct (repo (res q)) as [r|] eqn:Hr; [|discriminate].
  destruct (strstr m r) as [[|k]|] eqn:Hpre; try discriminate.
  destruct (rtype_from_file_extension m) eqn:Hty; try discriminate.
  simplify_eq. split; [done|]. split; [by exists sia|].
  apply strstr_zero, prefix_append in Hpre as [rest ->].
  by exists (r ++ rest)%string, r, rest.
Qed.

Lemma sbgp_sia_passes_only_witness :
  X509_EXTENSION_get_critical (Extern := sample_env) (X509_EXTENSION_at 12)
  = false.
Proof.
  apply (sbgp_sia_passes_only (E := sample_env)
           {| res := cert_zero; fn := "ca.cer" |} (X509_EXTENSION_at 12)
           {| res := set_mft (Some "rsync://a/repo/x.mft"%string)
                       (set_repo (Some "rsync://a/repo/"%string) cert_zero);
              fn := "ca.cer" |}).
  vm_compute. reflexivity.
Defined.

(** ** Second and third stage *)

(** C7. On a record with a subject key identifier, as [cert_parse_pre]
    leaves it, [cert_parse] returns the record when the authority key
    identifier is there and differs from the subject key identifier, and
    an AIA locator and a CRL distribution point are there; otherwise it
    returns no record. *)
Theorem cert_parse_subordinate (fn : string) (p : cert) (s : string) :
  ski p = Some s ->
  (((exists a, aki p = Some a /\ a <> s) /\ aia p <> None /\ crl p <> None) ->
   cert_parse fn p = Done (Some p)) /\
  (~ ((exists a, aki p = Some a /\ a <> s) /\ aia p <> None /\ crl p <> None) ->
   cert_parse fn p = Done None).
Proof.
  intros Hs. unfold cert_parse. rewrite Hs.
  destruct (aki p) as [a|].
  - pose proof (strcmp_zero a s) as Hz.
    destruct (Z.eqb_spec (strcmp a s) 0) as [He|He].
    + split; [|done]. intros [(a' & [= <-] & Hne) _]. tauto.
    + destruct (aia p), (crl p); split; try done; try tauto.
      all: intros Hno; destruct Hno; repeat split; try done.
      all: exists a; split; [done | tauto].
  - split; [|done]. by intros [(a & ? & _) _].
Qed.

Lemma cert_parse_subordinate_witness :
  cert_parse "ca.cer" sample_ca = Done (Some sample_ca) /\
  cert_parse "ta.cer" sample_ta = Done None.
Proof.
  split.
  - apply (cert_parse_subordinate "ca.cer" sample_ca "AB" eq_refl).
    repeat split; [|done..]. exists "CD"%string. by split.
  - apply (cert_parse_subordinate "ta.cer" sample_ta "AB" eq_refl).
    intros [(a & Ha & _) _]. discriminate Ha.
Defined.

(** C4. A record that [ta_parse] returns is the record it was given, and:
    the public key of the TAL decodes and compares equal to the key of
    the certificate; the current time lies between notBefore and
    notAfter; the authority key identifier, when there is one, is the
    subject key identifier; there is no AIA locator and no CRL
    distribution point; the purpose is not BGPsec router. In every other
    case no record is returned. *)
Theorem ta_parse_accepts_only {E : Extern} (fn : string) (p : cert)
    (pkey : bytes) (r : cert) :
  ta_parse fn p pkey = Done (Some r) ->
  r = p /\
  (exists pk opk,
     d2i_PUBKEY pkey = Some pk /\ X509_get0_pubkey (x509 p) = Some opk /\
     EVP_PKEY_cmp pk opk = 1) /\
  (exists notBefore notAfter tb ta,
     X509_get_notBefore (x509 p) = Some notBefore /\
     X509_get_notAfter (x509 p) = Some notAfter /\
     ASN1_TIME_seconds notBefore = Some tb /\
     ASN1_TIME_seconds notAfter = Some ta /\
     tb <= current_time <= ta) /\
  (forall a, aki p = Some a -> ski p = Some a) /\
  aia p = None /\ crl p = None /\
  purpose p <> CERT_PURPOSE_BGPSEC_ROUTER.
Proof.
  unfold ta_parse. intros H.
  destruct (d2i_PUBKEY pkey) as [pk|] eqn:Hpk; [|discriminate].
  destruct (X509_get0_pubkey (x509 p)) as [opk|] eqn:Hopk; [|discriminate].
  destruct (Z.eqb_spec (EVP_PKEY_cmp pk opk) 1) as [Hcmp|]; [|discriminate].
  destruct (X509_get_notBefore (x509 p)) as [nb|] eqn:Hnb; [|discriminate].
  destruct (X509_get_notAfter (x509 p)) as [na|] eqn:Hna; [|discriminate].
  unfold X509_cmp_current_time in H.
  destruct (ASN1_TIME_seconds nb) as [tb|] eqn:Htb; [|discriminate].
  destruct (Z.leb_spec tb current_time); [|discriminate].
  destruct (ASN1_TIME_seconds na) as [ta|] eqn:Hta; [|discriminate].
  destruct (Z.leb_spec ta current_time); [discriminate|].
  simpl in H.
  assert (Hrest : aia p = None /\ crl p = None /\
                  purpose p <> CERT_PURPOSE_BGPSEC_ROUTER /\ r = p /\
                  (forall a, aki p = Some a -> ski p = Some a)).
  { destruct (aki p) as [a|].
    - destruct (ski p) as [s|]; [|discriminate].
      destruct (Z.eqb_spec (strcmp a s) 0) as [He|]; [|discriminate].
      apply strcmp_zero in He as ->. simpl in H.
      destruct (aia p); [discriminate|]. destruct (crl p); [discriminate|].
      destruct (purpose p); simplify_eq; repeat split; try done.
      all: by intros ? [= <-].
    - destruct (aia p); [discriminate|]. destruct (crl p); [discriminate|].
      destruct (purpose p); simplify_eq; repeat split; done. }
  destruct Hrest as (? & ? & ? & ? & ?).
  repeat split; try done.
  - by exists pk, opk.
  - exists nb, na, tb, ta. repeat split; try done. lia.
Qed.

Lemma ta_parse_accepts_only_witness :
  aia sample_ta = None /\ crl sample_ta = None /\
  purpose sample_ta <> CERT_PURPOSE_BGPSEC_ROUTER.
Proof.
  apply (ta_parse_accepts_only (E := sample_env) "ta.cer" sample_ta [x03]
           sample_ta).
  vm_compute. reflexivity.
Defined.

(** ** Object representations *)

Lemma length_le_bytes w z : length (le_bytes w z) = w.
Proof.
  revert z; induction w as [|w IH]; intros z; simpl; [done | by rewrite IH].
Qed.

Lemma Z_of_byte_of_Z z : Z_of_byte (byte_of_Z z) = z mod 256.
Proof.
  unfold Z_of_byte, byte_of_Z.
  assert (Hr : 0 <= z mod 256 < 256) by (apply Z.mod_pos_bound; lia).
  destruct (Byte.of_N (Z.to_N (z mod 256))) as [b|] eqn:Hb.
  - apply Byte.to_of_N in Hb. rewrite Hb. lia.
  - apply Byte.of_N_None_iff in Hb. lia.
Qed.

Lemma le_value_le_bytes w z :
  0 <= z < 256 ^ Z.of_nat w -> le_value (le_bytes w z) = z.
Proof.
  revert z; induction w as [|w IH]; intros z Hz.
  - simpl in *. lia.
  - cbn [le_bytes le_value]. rewrite Z_of_byte_of_Z.
    rewrite Nat2Z.inj_succ, Z.pow_succ_r in Hz by lia.
    rewrite IH.
    + pose proof (Z.div_mod z 256). lia.
    + split; [apply Z.div_pos; lia | apply Z.div_lt_upper_bound; lia].
Qed.

Lemma signed_wrap P z :
  0 < P -> - (P / 2) <= z < P / 2 ->
  (if z mod P <? P / 2 then z mod P else z mod P - P) = z.
Proof.
  intros Hp Hz.
  assert (Hh : 0 <= P / 2 /\ 2 * (P / 2) <= P)
    by (Z.div_mod_to_equations; lia).
  destruct (Z.le_gt_cases 0 z) as [Hz0|Hz0].
  - rewrite Z.mod_small by lia.
    destruct (Z.ltb_spec z (P / 2)); lia.
  - replace (z mod P) with (z + P).
    + destruct (Z.ltb_spec (z + P) (P / 2)); lia.
    + symmetry. replace z with (z + P + (-1) * P) at 1 by ring.
      rewrite Z.mod_add by lia. apply Z.mod_small. lia.
Qed.

Lemma unsigned_ctype_ok w : ctype_ok (unsigned_ctype w).
Proof.
  split; simpl.
  - intros z. apply length_le_bytes.
  - intros z Hz. by apply le_value_le_bytes.
Qed.

Lemma signed_ctype_ok w : ctype_ok (signed_ctype w).
Proof.
  split; simpl.
  - intros z. apply length_le_bytes.
  - intros z Hz. unfold of_signed.
    assert (Hp : 0 < 256 ^ Z.of_nat w) by (apply Z.pow_pos_nonneg; lia).
    rewrite le_value_le_bytes by (apply Z.mod_pos_bound; lia).
    by apply signed_wrap.
Qed.

Lemma pair_ctype_ok {A B : Type} (ta : ctype A) (tb : ctype B) :
  ctype_ok ta -> ctype_ok tb -> ctype_ok (pair_ctype ta tb).
Proof.
  intros [La Ra] [Lb Rb]. split; simpl.
  - intros [a b]. simpl. by rewrite length_app, La, Lb.
  - intros [a b] [Ha Hb]. simpl in *.
    rewrite <- (La a), take_app_length, drop_app_length.
    by rewrite Ra, Rb.
Qed.

Lemma iso_ctype_ok {A B : Type} (f : A -> B) (g : B -> A) (ta : ctype A) :
  ctype_ok ta -> ctype_ok (iso_ctype f g ta).
Proof.
  intros [La Ra]. split; simpl.
  - intros x. apply La.
  - intros x [Hx Hfg]. by rewrite Ra.
Qed.

Lemma sample_purpose_t_ok : ctype_ok sample_purpose_t.
Proof. apply iso_ctype_ok, unsigned_ctype_ok. Qed.

Lemma sample_as_t_ok : ctype_ok sample_as_t.
Proof.
  apply iso_ctype_ok. repeat apply pair_ctype_ok; apply unsigned_ctype_ok.
Qed.

Lemma sample_ip_t_ok : ctype_ok sample_ip_t.
Proof.
  apply iso_ctype_ok.
  repeat apply pair_ctype_ok;
    try apply iso_ctype_ok; repeat apply pair_ctype_ok;
    apply unsigned_ctype_ok.
Qed.

(** ** Reading back what was written *)

Lemma io_read_bytes_app (a rest : bytes) (sz : nat) :
  length a = sz -> io_read_bytes (a ++ rest) sz = Done (a, rest).
Proof.
  intros <-. unfold io_read_bytes.
  destruct (Nat.ltb_spec (length (a ++ rest)) (length a)) as [Hlt|_].
  - rewrite length_app in Hlt. lia.
  - by rewrite take_app_length, drop_app_length.
Qed.

Lemma io_read_buf_app {T : Type} (ty : ctype T) (x : T) (rest : bytes) :
  ctype_ok ty -> representable ty x ->
  io_read_buf (to_raw ty x ++ rest) ty = Done (x, rest).
Proof.
  intros [Hlen Hval] Hx. unfold io_read_buf.
  rewrite io_read_bytes_app by apply Hlen.
  cbn. by rewrite Hval.
Qed.

Lemma length_to_raw_array {T : Type} (ty : ctype T) (l : list T) :
  ctype_ok ty -> length (to_raw_array ty l) = (length l * sizeof ty)%nat.
Proof.
  intros [Hlen _]. unfold to_raw_array.
  induction l as [|x l IH]; simpl; [done|].
  by rewrite length_app, Hlen, IH.
Qed.

Lemma of_raw_array_to_raw_array {T : Type} (ty : ctype T) (l : list T) :
  ctype_ok ty -> Forall (representable ty) l ->
  of_raw_array ty (length l) (to_raw_array ty l) = l.
Proof.
  intros [Hlen Hval] Hl. unfold to_raw_array.
  induction Hl as [|x l Hx Hl IH]; simpl; [done|].
  rewrite <- (Hlen x), take_app_length, drop_app_length.
  by rewrite Hval, IH.
Qed.

Lemma io_read_buf_array_app {T : Type} (ty : ctype T) (l : list T)
    (rest : bytes) :
  ctype_ok ty -> Forall (representable ty) l ->
  io_read_buf_array (to_raw_array ty l ++ rest) ty (length l)
  = Done (l, rest).
Proof.
  intros Hok Hl. unfold io_read_buf_array.
  rewrite io_read_bytes_app by by apply length_to_raw_array.
  cbn. by rewrite of_raw_array_to_raw_array.
Qed.

Lemma length_list_byte_of_string s :
  length (list_byte_of_string s) = String.length s.
Proof.
  unfold list_byte_of_string. rewrite length_map.
  induction s as [|a s IH]; simpl; [done | by rewrite IH].
Qed.

Lemma io_str_buffer_text_raw b s : io_str_buffer b s = b ++ text_raw s.
Proof.
  unfold io_str_buffer, io_simple_buffer, text_raw. destruct s as [s|].
  - by rewrite length_list_byte_of_string, app_assoc.
  - simpl. by rewrite app_nil_r.
Qed.

Lemma io_read_str_app (s : option string) (rest : bytes) :
  text_fits s -> io_read_str (text_raw s ++ rest) = Done (s, rest).
Proof.
  intros Hs. unfold io_read_str, text_raw. destruct s as [s|].
  - destruct Hs as [Hne Hlen]. rewrite <- app_assoc.
    rewrite io_read_buf_app;
      [|apply unsigned_ctype_ok | simpl; lia].
    cbn [mbind outcome_bind].
    destruct (Z.eqb_spec (Z.of_nat (String.length s)) 0) as [Hz|_].
    + destruct s; [done | simpl in Hz; lia].
    + rewrite Nat2Z.id, io_read_bytes_app
        by apply length_list_byte_of_string.
      cbn. by rewrite string_of_list_byte_of_string.
  - rewrite io_read_buf_app; [done | apply unsigned_ctype_ok | simpl; lia].
Qed.

Section TransportRoundTrip.
Variable cert_purpose_t : ctype cert_purpose.
Variable cert_ip_t : ctype cert_ip.
Variable cert_as_t : ctype cert_as.

(** The fields in the order they are written. *)
Lemma cert_buffer_fields (b : bytes) (p : cert) :
  cert_buffer cert_purpose_t cert_ip_t cert_as_t b p =
  b ++ to_raw time_t (expires p) ++ to_raw cert_purpose_t (purpose p)
    ++ to_raw int (talid p)
    ++ to_raw size_t (ipsz p) ++ to_raw size_t (asz p)
    ++ to_raw_array cert_ip_t (ips p) ++ to_raw_array cert_as_t (as_ p)
    ++ text_raw (mft p) ++ text_raw (notify p) ++ text_raw (repo p)
    ++ text_raw (crl p) ++ text_raw (aia p) ++ text_raw (aki p)
    ++ text_raw (ski p) ++ text_raw (pubkey p).
Proof.
  unfold cert_buffer. rewrite !io_str_buffer_text_raw.
  unfold io_simple_buffer_array, io_simple_buffer.
  by rewrite <- !app_assoc.
Qed.

Lemma cert_read_fields (c : cert) (rest : bytes) :
  ctype_ok cert_purpose_t -> ctype_ok cert_ip_t -> ctype_ok cert_as_t ->
  cert_fits cert_purpose_t cert_ip_t cert_as_t c ->
  ski c <> None ->
  (mft c <> None \/ purpose c = CERT_PURPOSE_BGPSEC_ROUTER) ->
  cert_read cert_purpose_t cert_ip_t cert_as_t
    (cert_buffer cert_purpose_t cert_ip_t cert_as_t [] c ++ rest)
  = Done (set_x509 None c, rest).
Proof.
  intros Hp Hi Ha
    (He & Hpu & Ht & Hin & Han & Hips & Has &
     Hmft & Hnot & Hrepo & Hcrl & Haia & Haki & Hski & Hkey) Hs Hm.
  rewrite cert_buffer_fields, app_nil_l. rewrite <- !app_assoc.
  unfold cert_read.
  rewrite (io_read_buf_app time_t) by (done || apply signed_ctype_ok).
  cbn [mbind outcome_bind].
  rewrite (io_read_buf_app cert_purpose_t) by done.
  cbn [mbind outcome_bind].
  rewrite (io_read_buf_app int) by (done || apply signed_ctype_ok).
  cbn [mbind outcome_bind].
  rewrite (io_read_buf_app size_t) by (done || apply unsigned_ctype_ok).
  cbn [mbind outcome_bind].
  rewrite (io_read_buf_app size_t) by (done || apply unsigned_ctype_ok).
  cbn [mbind outcome_bind].
  unfold ipsz, asz. rewrite !Nat2Z.id.
  rewrite io_read_buf_array_app by done. cbn [mbind outcome_bind].
  rewrite io_read_buf_array_app by done. cbn [mbind outcome_bind].
  do 7 (rewrite io_read_str_app by done; cbn [mbind outcome_bind]).
  rewrite <- (app_nil_l rest) at 1. rewrite app_assoc, app_nil_r.
  rewrite io_read_str_app by done. cbn [mbind outcome_bind].
  cbn [mft purpose ski].
  destruct c as [cips cas crepo cmft cnot ccrl caia caki cski ctal cpur
                   ckey cx cexp]; simpl in *.
  destruct cski; [|done].
  destruct cmft; [by destruct cpur|].
  destruct Hm as [? | ->]; done.
Qed.

End TransportRoundTrip.

(** ** Transport *)

(** C3, as the code has it. The record that [cert_read] restores from the
    bytes of [cert_buffer] equals the original in every field that is
    written, for every layout of the entry types and every record whose
    numbers fit their types, whose text fields are not empty strings when
    present, with a subject key identifier, and with a manifest locator
    unless its purpose is BGPsec router. The decoded certificate [x509]
    is not written and is null in the restored record. The bytes are the
    fields in the order expiry, purpose, trust-anchor-group id, the two
    counts, the IP and AS arrays, manifest, notification, repository,
    CRL, AIA, AKI, SKI and public key. *)
Theorem cert_read_cert_buffer (cert_purpose_t : ctype cert_purpose)
    (cert_ip_t : ctype cert_ip) (cert_as_t : ctype cert_as)
    (c : cert) (rest : bytes) :
  ctype_ok cert_purpose_t -> ctype_ok cert_ip_t -> ctype_ok cert_as_t ->
  cert_fits cert_purpose_t cert_ip_t cert_as_t c ->
  ski c <> None ->
  (mft c <> None \/ purpose c = CERT_PURPOSE_BGPSEC_ROUTER) ->
  cert_read cert_purpose_t cert_ip_t cert_as_t
    (cert_buffer cert_purpose_t cert_ip_t cert_as_t [] c ++ rest)
  = Done (set_x509 None c, rest) /\
  cert_buffer cert_purpose_t cert_ip_t cert_as_t [] c =
    to_raw time_t (expires c) ++ to_raw cert_purpose_t (purpose c)
    ++ to_raw int (talid c)
    ++ to_raw size_t (ipsz c) ++ to_raw size_t (asz c)
    ++ to_raw_array cert_ip_t (ips c) ++ to_raw_array cert_as_t (as_ c)
    ++ text_raw (mft c) ++ text_raw (notify c) ++ text_raw (repo c)
    ++ text_raw (crl c) ++ text_raw (aia c) ++ text_raw (aki c)
    ++ text_raw (ski c) ++ text_raw (pubkey c).
Proof.
  intros Hp Hi Ha Hfit Hs Hm. split.
  - by apply cert_read_fields.
  - by rewrite cert_buffer_fields.
Qed.

Lemma sample_ca_fits :
  cert_fits sample_purpose_t sample_ip_t sample_as_t sample_ca.
Proof.
  unfold cert_fits, sample_ca, sample_ca_ips. cbn -[Z.pow].
  repeat apply conj; repeat constructor; cbn -[Z.pow]; try done; lia.
Qed.

Lemma cert_read_cert_buffer_witness :
  cert_read sample_purpose_t sample_ip_t sample_as_t
    (cert_buffer sample_purpose_t sample_ip_t sample_as_t [] sample_ca
     ++ [x2a])
  = Done (set_x509 None sample_ca, [x2a]).
Proof.
  apply (cert_read_cert_buffer sample_purpose_t sample_ip_t sample_as_t
           sample_ca [x2a]).
  - exact sample_purpose_t_ok.
  - exact sample_ip_t_ok.
  - exact sample_as_t_ok.
  - exact sample_ca_fits.
  - discriminate.
  - left. discriminate.
Defined.

(** C3, as the claim has it, fails: the router certificate that
    [cert_parse_pre] accepts comes back from the transport without its
    decoded certificate, so not equal in every field. *)
Lemma cert_round_trip_drops_x509 :
  cert_parse_pre (E := sample_env) "router.cer" (Some [x00])
  = Done (Some sample_router) /\
  exists r,
    cert_read sample_purpose_t sample_ip_t sample_as_t
      (cert_buffer sample_purpose_t sample_ip_t sample_as_t []
         sample_router)
    = Done (r, []) /\
    x509 r = None /\ x509 sample_router = Some (X509_at 0) /\
    r <> sample_router.
Proof.
  split; [vm_compute; reflexivity|].
  exists (set_x509 None sample_router).
  split; [vm_compute; reflexivity|].
  repeat split. discriminate.
Qed.

(** ** Router-key index *)

(** The keys of the two indexes are what their comparison functions
    tell apart. *)
Lemma brkcmp_zero (a b : brk) : brkcmp a b = 0 <-> brk_key a = brk_key b.
Proof.
  unfold brkcmp, brk_key.
  destruct (Z.gtb_spec (b_asid a) (b_asid b)) as [Hgt|Hle].
  { split; [done | intros [= ? _ _]; lia]. }
  destruct (Z.ltb_spec (b_asid a) (b_asid b)) as [Hlt|Hge].
  { split; [done | intros [= ? _ _]; lia]. }
  assert (Hasid : b_asid a = b_asid b) by lia.
  pose proof (strcmp_zero (b_ski a) (b_ski b)) as Hski.
  pose proof (strcmp_zero (b_pubkey a) (b_pubkey b)) as Hkey.
  destruct (Z.gtb_spec (strcmp (b_ski a) (b_ski b)) 0) as [Hpos|Hnpos].
  { split; [done | intros [= _ Hs _]; apply Hski in Hs; lia]. }
  destruct (Z.ltb_spec (strcmp (b_ski a) (b_ski b)) 0) as [Hneg|Hnneg].
  { split; [done | intros [= _ Hs _]; apply Hski in Hs; lia]. }
  assert (Hs : b_ski a = b_ski b) by (apply Hski; lia).
  rewrite Hkey. split; [intros Hk; by rewrite Hasid, Hs, Hk|].
  by intros [= _ _ Hk].
Qed.

Lemma authcmp_zero (a b : auth) :
  authcmp a b = Some 0 <->
  exists k, ski (auth_cert a) = Some k /\ ski (auth_cert b) = Some k.
Proof.
  unfold authcmp.
  destruct (ski (auth_cert a)) as [x|], (ski (auth_cert b)) as [y|].
  - pose proof (strcmp_zero x y) as Hz. split.
    + intros [= H0]. apply Hz in H0 as ->. by exists y.
    + intros (k & [= ->] & [= ->]). f_equal. by apply Hz.
  - split; [done | by intros (k & _ & ?)].
  - split; [done | by intros (k & ? & _)].
  - split; [done | by intros (k & ? & _)].
Qed.

Lemma insert_brk_Done (tree : brk_tree) (cert : cert) (asid : Z)
    (s k : string) :
  ski cert = Some s -> pubkey cert = Some k ->
  exists tree',
    insert_brk tree cert asid = Done tree' /\
    dom tree' = {[ (asid, s, k) ]} ∪ dom tree /\
    (forall key, key <> (asid, s, k) -> tree' !! key = tree !! key).
Proof.
  intros Hs Hk. unfold insert_brk, RB_INSERT, brk_key. rewrite Hs, Hk.
  cbn [b_asid b_ski b_pubkey b_expires b_talid].
  destruct (tree !! (asid, s, k)) as [found|] eqn:Hf.
  - destruct (b_expires found <? expires cert).
    + eexists. split; [done|]. split.
      * rewrite dom_insert_L. done.
      * intros key Hne. by rewrite lookup_insert_ne.
    + exists tree. split; [done|]. split; [|done].
      apply elem_of_dom_2 in Hf. symmetry.
      apply subseteq_union_1_L. by apply singleton_subseteq_l.
  - eexists. split; [done|]. split.
    + by rewrite dom_insert_L.
    + intros key Hne. by rewrite lookup_insert_ne.
Qed.

(** C8. When the index holds an entry for (AS, SKI, public key),
    [insert_brk] for the same key keeps that entry and adds none: the
    size and the other entries stay, and the entry takes the expiry and
    the trust-anchor-group id of the new record when that expiry is later
    than its own. So two insertions for a key that was not there leave
    one entry for it, with the later of the two expiries. *)
Theorem insert_brk_keeps_later_expiry (tree : brk_tree) (asid : Z)
    (s k : string) :
  (forall (c : cert) (found : brk),
     ski c = Some s -> pubkey c = Some k ->
     tree !! (asid, s, k) = Some found ->
     exists tree',
       insert_brk tree c asid = Done tree' /\
       size tree' = size tree /\
       (forall key, key <> (asid, s, k) -> tree' !! key = tree !! key) /\
       tree' !! (asid, s, k) =
         Some (if b_expires found <? expires c
               then {| b_asid := b_asid found; b_ski := b_ski found;
                       b_pubkey := b_pubkey found;
                       b_expires := expires c; b_talid := talid c |}
               else found)) /\
  (forall (c1 c2 : cert),
     ski c1 = Some s -> pubkey c1 = Some k ->
     ski c2 = Some s -> pubkey c2 = Some k ->
     tree !! (asid, s, k) = None ->
     exists t1 t2,
       insert_brk tree c1 asid = Done t1 /\
       insert_brk t1 c2 asid = Done t2 /\
       size t2 = S (size tree) /\
       (forall key, key <> (asid, s, k) -> t2 !! key = tree !! key) /\
       t2 !! (asid, s, k) =
         Some {| b_asid := asid; b_ski := s; b_pubkey := k;
                 b_expires := Z.max (expires c1) (expires c2);
                 b_talid := if expires c1 <? expires c2 then talid c2
                            else talid c1 |}).
Proof.
  assert (Hfound : forall (t : brk_tree) (c : cert) (found : brk),
     ski c = Some s -> pubkey c = Some k ->
     t !! (asid, s, k) = Some found ->
     exists tree',
       insert_brk t c asid = Done tree' /\
       size tree' = size t /\
       (forall key, key <> (asid, s, k) -> tree' !! key = t !! key) /\
       tree' !! (asid, s, k) =
         Some (if b_expires found <? expires c
               then {| b_asid := b_asid found; b_ski := b_ski found;
                       b_pubkey := b_pubkey found;
                       b_expires := expires c; b_talid := talid c |}
               else found)).
  { intros t c found Hs Hk Hf.
    unfold insert_brk, RB_INSERT, brk_key. rewrite Hs, Hk.
    cbn [b_asid b_ski b_pubkey b_expires b_talid]. rewrite Hf.
    destruct (b_expires found <? expires c).
    - eexists. split; [done|]. split; [|split].
      + by rewrite map_size_insert_Some.
      + intros key Hne. by rewrite lookup_insert_ne.
      + by rewrite lookup_insert_eq.
    - exists t. by repeat split. }
  split; [apply Hfound|].
  intros c1 c2 Hs1 Hk1 Hs2 Hk2 Hnone.
  set (b1 := {| b_asid := asid; b_ski := s; b_pubkey := k;
                b_expires := expires c1; b_talid := talid c1 |}).
  assert (H1 : insert_brk tree c1 asid = Done (<[(asid, s, k) := b1]> tree)).
  { unfold insert_brk, RB_INSERT, brk_key. rewrite Hs1, Hk1.
    cbn [b_asid b_ski b_pubkey]. by rewrite Hnone. }
  destruct (Hfound (<[(asid, s, k) := b1]> tree) c2 b1 Hs2 Hk2)
    as (t2 & H2 & Hsize & Hother & Hkey); [by rewrite lookup_insert_eq|].
  exists (<[(asid, s, k) := b1]> tree), t2.
  split; [done|]. split; [done|]. split; [|split].
  - by rewrite Hsize, map_size_insert_None.
  - intros key Hne. by rewrite Hother, lookup_insert_ne.
  - rewrite Hkey. subst b1. cbn [b_asid b_ski b_pubkey b_expires b_talid].
    destruct (Z.ltb_spec (expires c1) (expires c2)).
    + by rewrite Z.max_r by lia.
    + by rewrite Z.max_l by lia.
Qed.

Lemma insert_brk_keeps_later_expiry_witness :
  exists t1 t2,
    insert_brk ∅ sample_router 64496 = Done t1 /\
    insert_brk t1 sample_router_renewed 64496 = Done t2 /\
    size t2 = 1%nat /\
    (forall key, key <> (64496, "AB"%string, "KEY"%string) ->
                 t2 !! key = (∅ : brk_tree) !! key) /\
    t2 !! (64496, "AB"%string, "KEY"%string) =
      Some {| b_asid := 64496; b_ski := "AB"; b_pubkey := "KEY";
              b_expires := 2000; b_talid := 7 |}.
Proof.
  destruct (proj2 (insert_brk_keeps_later_expiry ∅ 64496 "AB" "KEY")
              sample_router sample_router_renewed eq_refl eq_refl eq_refl
              eq_refl (lookup_empty _))
    as (t1 & t2 & H1 & H2 & Hsize & Hother & Hkey).
  exists t1, t2. rewrite map_size_empty in Hsize.
  repeat split; [exact H1 | exact H2 | exact Hsize | exact Hother |].
  exact Hkey.
Defined.

(** ** Trust index *)

(** C9. [auth_insert] of a certificate whose subject key identifier is in
    the index ends the process; with a subject key identifier that is not
    in the index it succeeds, the other entries stay, and a lookup of the
    identifier finds the new entry, linked to the parent that was given
    (none for a root). *)
Theorem auth_insert_duplicate_fatal (auths : auth_tree) (cert : cert)
    (parent : option auth) (k : string) :
  ski cert = Some k ->
  (is_Some (auths !! k) -> auth_insert auths cert parent = Fatal) /\
  (auths !! k = None ->
   exists auths',
     auth_insert auths cert parent = Done auths' /\
     auth_find auths' k = Some (mk_auth cert parent) /\
     (forall a, auth_find auths' k = Some a ->
                auth_cert a = cert /\ auth_parent a = parent) /\
     size auths' = S (size auths) /\
     (forall k', k' <> k -> auths' !! k' = auths !! k')).
Proof.
  intros Hs. unfold auth_insert, auth_find, RB_INSERT, RB_FIND. rewrite Hs.
  split.
  - intros [a Ha]. by rewrite Ha.
  - intros Hnone. rewrite Hnone. eexists. split; [done|].
    rewrite lookup_insert_eq. split; [done|]. split; [|split].
    + by intros a [= <-].
    + by rewrite map_size_insert_None.
    + intros k' Hne. by rewrite lookup_insert_ne.
Qed.

Lemma auth_insert_duplicate_fatal_witness :
  auth_insert {[ "AB"%string := mk_auth sample_ta None ]} sample_ca
    (Some (mk_auth sample_ta None)) = Fatal.
Proof.
  apply (auth_insert_duplicate_fatal _ sample_ca _ "AB" eq_refl).
  exists (mk_auth sample_ta None). apply lookup_singleton_eq.
Defined.

(** ** Router keys of a certificate *)

Lemma insert_brk_range (cert : cert) (s k : string) (ids : list Z)
    (tree : brk_tree) :
  ski cert = Some s -> pubkey cert = Some k ->
  exists tree',
    for_each_do (fun t asid => insert_brk t cert (to_int asid)) ids tree
    = Done tree' /\
    (forall key, key ∈ dom tree' <->
       key ∈ dom tree \/ exists id, id ∈ ids /\ key = (to_int id, s, k)) /\
    (forall key, (forall id, id ∈ ids -> key <> (to_int id, s, k)) ->
       tree' !! key = tree !! key).
Proof.
  intros Hs Hk. revert tree.
  induction ids as [|id ids IH]; intros tree; cbn [for_each_do].
  - exists tree. split; [done|]. split; [|done].
    intros key. split; [by left|]. intros [?|(id & Hid & _)]; [done|].
    by apply elem_of_nil in Hid.
  - destruct (insert_brk_Done tree cert (to_int id) s k Hs Hk)
      as (t1 & -> & Hdom1 & Hother1).
    cbn [mbind outcome_bind].
    destruct (IH t1) as (t2 & -> & Hdom2 & Hother2).
    exists t2. split; [done|]. split.
    + intros key. rewrite Hdom2, Hdom1, elem_of_union, elem_of_singleton.
      split.
      * intros [[->|?]|(id' & Hid' & ->)]; [right|by left|right].
        -- exists id. split; [left|done].
        -- exists id'. split; [by right|done].
      * intros [?|(id' & Hid' & ->)]; [by left; right|].
        apply elem_of_cons in Hid' as [->|Hid']; [by left; left|].
        right. by exists id'.
    + intros key Hkey. rewrite Hother2, Hother1; [done| |].
      * apply Hkey. left.
      * intros id' Hid'. apply Hkey. by right.
Qed.

Lemma cert_insert_brks_loop (cert : cert) (s k : string) (l : list cert_as)
    (tree : brk_tree) (diag : list string) :
  ski cert = Some s -> pubkey cert = Some k ->
  exists tree',
    for_each_do (cert_insert_brks_entry cert) l (tree, diag)
    = Done (tree',
            diag ++ map (fun _ => "invalid AS identifier type"%string)
                        (List.filter as_is_inherit l)) /\
    (forall key, key ∈ dom tree' <->
       key ∈ dom tree \/
       exists a id, a ∈ l /\ as_covers a id /\ key = (to_int id, s, k)) /\
    (forall key,
       (forall a id, a ∈ l -> as_covers a id -> key <> (to_int id, s, k)) ->
       tree' !! key = tree !! key).
Proof.
  intros Hs Hk. revert tree diag.
  induction l as [|a l IH]; intros tree diag; cbn [for_each_do].
  - exists tree. rewrite app_nil_r. split; [done|]. split; [|done].
    intros key. split; [by left|]. intros [?|(a & id & Ha & _)]; [done|].
    by apply elem_of_nil in Ha.
  - assert (Hstep : exists t1,
       cert_insert_brks_entry cert (tree, diag) a
       = Done (t1, diag ++ (if as_is_inherit a
                            then ["invalid AS identifier type"%string]
                            else [])) /\
       (forall key, key ∈ dom t1 <->
          key ∈ dom tree \/
          exists id, as_covers a id /\ key = (to_int id, s, k)) /\
       (forall key,
          (forall id, as_covers a id -> key <> (to_int id, s, k)) ->
          t1 !! key = tree !! key)).
    { destruct a as [i|lo hi|]; cbn [cert_insert_brks_entry as_is_inherit
                                       as_covers].
      - destruct (insert_brk_Done tree cert (to_int i) s k Hs Hk)
          as (t1 & -> & Hdom1 & Hother1).
        exists t1. rewrite app_nil_r. split; [done|]. split.
        + intros key. rewrite Hdom1, elem_of_union, elem_of_singleton.
          split.
          * intros [->|?]; [right; by exists i | by left].
          * intros [?|(id & -> & ->)]; [by right | by left].
        + intros key Hkey. apply Hother1. by apply Hkey.
      - destruct (insert_brk_range cert s k (seqZ lo (hi - lo + 1)) tree
                    Hs Hk) as (t1 & -> & Hdom1 & Hother1).
        exists t1. rewrite app_nil_r. split; [done|]. split.
        + intros key. rewrite Hdom1. split.
          * intros [?|(id & Hid%elem_of_seqZ & ->)]; [by left|].
            right. exists id. split; [lia | done].
          * intros [?|(id & Hid & ->)]; [by left|].
            right. exists id. split; [apply elem_of_seqZ; lia | done].
        + intros key Hkey. apply Hother1.
          intros id Hid%elem_of_seqZ. apply Hkey. lia.
      - exists tree. split; [done|]. split; [|done].
        intros key. split; [by left|]. by intros [?|(id & [] & _)]. }
    destruct Hstep as (t1 & -> & Hdom1 & Hother1).
    cbn [mbind outcome_bind].
    destruct (IH t1 (diag ++ (if as_is_inherit a
                              then ["invalid AS identifier type"%string]
                              else []))) as (t2 & -> & Hdom2 & Hother2).
    exists t2. split.
    + f_equal. f_equal. rewrite <- app_assoc. f_equal.
      cbn [List.filter]. by destruct (as_is_inherit a).
    + split.
      * intros key. rewrite Hdom2, Hdom1. split.
        -- intros [[?|(id & Hc & ->)]|(a' & id & Ha' & Hc & ->)].
           ++ by left.
           ++ right. exists a, id. split; [left | done].
           ++ right. exists a', id. split; [by right | done].
        -- intros [?|(a' & id & Ha' & Hc & ->)]; [by left; left|].
           apply elem_of_cons in Ha' as [->|Ha'].
           ++ left. right. by exists id.
           ++ right. by exists a', id.
      * intros key Hkey. rewrite Hother2, Hother1; [done| |].
        -- intros id Hc. apply (Hkey a id); [left | done].
        -- intros a' id Ha' Hc. apply (Hkey a' id); [by right | done].
Qed.

(** C10. [cert_insert_brks] goes through the whole AS list. An identifier
    entry gives the router key of that identifier and a range entry the
    router keys of every identifier from its minimum to its maximum, both
    included; an entry of another type, the inherit marker, gives no key
    and one diagnostic, and the loop goes on. The index afterwards holds
    the keys it held and these; the other entries are as they were. A
    certificate whose AS list is one inherit marker leaves the index as it
    was and does not fail. *)
Theorem cert_insert_brks_skips_inherit (tree : brk_tree) (cert : cert) :
  (as_ cert = [CERT_AS_INHERIT] ->
   cert_insert_brks tree cert
   = Done (tree, ["invalid AS identifier type"%string])) /\
  (forall s k, ski cert = Some s -> pubkey cert = Some k ->
   exists tree' diag,
     cert_insert_brks tree cert = Done (tree', diag) /\
     diag = map (fun _ => "invalid AS identifier type"%string)
                (List.filter as_is_inherit (as_ cert)) /\
     (forall key, key ∈ dom tree' <->
        key ∈ dom tree \/
        exists a id, a ∈ as_ cert /\ as_covers a id /\
                     key = (to_int id, s, k)) /\
     (forall key,
        (forall a id, a ∈ as_ cert -> as_covers a id ->
                      key <> (to_int id, s, k)) ->
        tree' !! key = tree !! key)) /\
  (forall a b, 0 <= a < 2 ^ 32 -> 0 <= b < 2 ^ 32 ->
               to_int a = to_int b -> a = b).
Proof.
  split; [|split].
  - intros Has. unfold cert_insert_brks. by rewrite Has.
  - intros s k Hs Hk. unfold cert_insert_brks.
    destruct (cert_insert_brks_loop cert s k (as_ cert) tree [] Hs Hk)
      as (t & Hrun & Hdom & Hother).
    rewrite app_nil_l in Hrun. by eexists t, _.
  - unfold to_int. intros a b Ha Hb Hab.
    change (2 ^ 32) with 4294967296 in *.
    change (2 ^ 31) with 2147483648 in *.
    Z.div_mod_to_equations. lia.
Qed.

Lemma cert_insert_brks_skips_inherit_witness :
  cert_insert_brks ∅ (set_as [CERT_AS_INHERIT] sample_router)
  = Done (∅, ["invalid AS identifier type"%string]).
Proof.
  apply (cert_insert_brks_skips_inherit ∅
           (set_as [CERT_AS_INHERIT] sample_router)).
  reflexivity.
Defined.

(** ** Runs of appends *)

Section RunsOfAppends.
Context {E : Extern} {K : Checks}.

Lemma ip_appends_trans p1 p2 p3 :
  ip_appends p1 p2 -> ip_appends p2 p3 -> ip_appends p1 p3.
Proof.
  induction 1 as [|p ip q p' Happ Hrun IH]; [done|].
  intros H3. eapply ip_appends_cons; eauto.
Qed.

Lemma as_appends_trans p1 p2 p3 :
  as_appends p1 p2 -> as_appends p2 p3 -> as_appends p1 p3.
Proof.
  induction 1 as [|p a q p' Happ Hrun IH]; [done|].
  intros H3. eapply as_appends_cons; eauto.
Qed.

Lemma ip_appends_one p ip p' : append_ip p ip = Some p' -> ip_appends p p'.
Proof. intros H. eapply ip_appends_cons; [done | constructor]. Qed.

Lemma as_appends_one p a p' : append_as p a = Some p' -> as_appends p p'.
Proof. intros H. eapply as_appends_cons; [done | constructor]. Qed.

Lemma for_each_ip_appends {A : Type} (body : parse -> A -> option parse)
    (l : list A) p p' :
  (forall q x q', body q x = Some q' -> ip_appends q q') ->
  for_each body l p = Some p' -> ip_appends p p'.
Proof.
  intros Hbody Hrun.
  refine (for_each_invariant (ip_appends p) body l _ p p' _ Hrun).
  - intros s x s' Hs Hx. eapply ip_appends_trans; eauto.
  - constructor.
Qed.

Lemma for_each_as_appends {A : Type} (body : parse -> A -> option parse)
    (l : list A) p p' :
  (forall q x q', body q x = Some q' -> as_appends q q') ->
  for_each body l p = Some p' -> as_appends p p'.
Proof.
  intros Hbody Hrun.
  refine (for_each_invariant (as_appends p) body l _ p p' _ Hrun).
  - intros s x s' Hs Hx. eapply as_appends_trans; eauto.
  - constructor.
Qed.

Lemma sbgp_addr_or_range_appends p ip d p' :
  sbgp_addr_or_range p ip d = Some p' -> ip_appends p p'.
Proof.
  unfold sbgp_addr_or_range. intros H. decoder_cases.
  eapply for_each_ip_appends; [|done].
  intros q t q' Ht. unfold sbgp_addr_or_range_item in Ht.
  destruct t; try discriminate.
  - unfold sbgp_addr in Ht. decoder_cases. by eapply ip_appends_one.
  - unfold sbgp_addr_range in Ht. decoder_cases. by eapply ip_appends_one.
Qed.

Lemma sbgp_ipaddrfam_appends p d p' :
  sbgp_ipaddrfam p d = Some p' -> ip_appends p p'.
Proof.
  unfold sbgp_ipaddrfam. intros H. decoder_cases.
  - by eapply ip_appends_one.
  - by eapply sbgp_addr_or_range_appends.
Qed.

Lemma sbgp_ipaddrblk_appends p ext p' :
  sbgp_ipaddrblk p ext = Some p' -> ip_appends p p'.
Proof.
  unfold sbgp_ipaddrblk. intros H. decoder_cases.
  eapply for_each_ip_appends; [|done].
  intros q t q' Ht. unfold sbgp_ipaddrblk_item in Ht.
  destruct t; try discriminate. by eapply sbgp_ipaddrfam_appends.
Qed.

Lemma sbgp_asnum_appends p d p' :
  sbgp_asnum p d = Some p' -> as_appends p p'.
Proof.
  unfold sbgp_asnum. intros H. decoder_cases.
  - by eapply as_appends_one.
  - eapply for_each_as_appends; [|done].
    intros q t q' Ht. unfold sbgp_asnum_item in Ht.
    destruct t; try discriminate.
    + unfold sbgp_asid in Ht. decoder_cases. by eapply as_appends_one.
    + unfold sbgp_asrange in Ht. decoder_cases. by eapply as_appends_one.
Qed.

Lemma sbgp_assysnum_appends p ext p' :
  sbgp_assysnum p ext = Some p' -> as_appends p p'.
Proof.
  unfold sbgp_assysnum. intros H. decoder_cases.
  eapply for_each_as_appends; [|done].
  intros q t q' Ht. unfold sbgp_assysnum_item in Ht.
  decoder_cases; [constructor|]. by eapply sbgp_asnum_appends.
Qed.

(** What a run of appends leaves of the record. *)
Lemma ip_appends_frame p p' :
  ip_appends p p' ->
  fn p' = fn p /\
  exists es, res p' = set_ips (ips (res p) ++ es) (res p).
Proof.
  induction 1 as [p|p ip q p' Happ Hrun [Hfn (es & Hes)]].
  - split; [done|]. exists []. rewrite app_nil_r. by destruct (res p).
  - unfold append_ip in Happ. decoder_cases. split; [done|].
    exists (ip :: es). rewrite Hes. simpl. by rewrite <- app_assoc.
Qed.

Lemma as_appends_frame p p' :
  as_appends p p' ->
  fn p' = fn p /\
  exists es, res p' = set_as (as_ (res p) ++ es) (res p).
Proof.
  induction 1 as [p|p a q p' Happ Hrun [Hfn (es & Hes)]].
  - split; [done|]. exists []. rewrite app_nil_r. by destruct (res p).
  - unfold append_as in Happ. decoder_cases. split; [done|].
    exists (a :: es). rewrite Hes. simpl. by rewrite <- app_assoc.
Qed.

(** A run of appends ends within the limit. *)
Lemma ip_appends_bound p p' :
  ip_appends p p' ->
  (ips (res p) = [] \/ ipsz (res p) <= MAX_IP_SIZE) ->
  ips (res p') = [] \/ ipsz (res p') <= MAX_IP_SIZE.
Proof.
  induction 1 as [p|p ip q p' Happ Hrun IH]; [done|].
  intros _. apply IH. right.
  unfold append_ip in Happ. decoder_cases.
  unfold ipsz in *. simpl. rewrite length_app. simpl. lia.
Qed.

Lemma as_appends_bound p p' :
  as_appends p p' ->
  (as_ (res p) = [] \/ asz (res p) <= MAX_AS_SIZE) ->
  as_ (res p') = [] \/ asz (res p') <= MAX_AS_SIZE.
Proof.
  induction 1 as [p|p a q p' Happ Hrun IH]; [done|].
  intros _. apply IH. right.
  unfold append_as in Happ. decoder_cases.
  unfold asz in *. simpl. rewrite length_app. simpl. lia.
Qed.

End RunsOfAppends.

(** ** One turn of the extension loop *)

Section ExtensionLoop.
Context {E : Extern} {K : Checks}.

Lemma sbgp_sia_check_Some p q :
  sbgp_sia_check p = Some q <->
  q = p /\
  exists m r, mft (res p) = Some m /\ repo (res p) = Some r /\
              strstr m r = Some 0%nat /\
              rtype_from_file_extension m = RTYPE_MFT.
Proof.
  unfold sbgp_sia_check. split.
  - intros H. decoder_cases. split; [done|]. by eexists _, _.
  - intros (-> & m & r & -> & -> & -> & ->). done.
Qed.

Lemma sbgp_sia_Some p ext p' :
  sbgp_sia p ext = Some p' ->
  X509_EXTENSION_get_critical ext = false /\
  exists sia, X509V3_EXT_d2i_sia ext = Some sia /\
              for_each sbgp_sia_item sia p = Some p' /\
              sbgp_sia_check p' = Some p'.
Proof.
  unfold sbgp_sia. intros H.
  destruct (X509_EXTENSION_get_critical ext); [discriminate|].
  destruct (X509V3_EXT_d2i_sia ext) as [sia|]; [|discriminate].
  destruct (for_each sbgp_sia_item sia p) as [q|] eqn:Hq; [|discriminate].
  pose proof H as Hcheck. apply sbgp_sia_check_Some in H as [-> _].
  split; [done|]. by exists sia.
Qed.

Lemma sbgp_sia_item_fixed p ad p' :
  sbgp_sia_item p ad = Some p' ->
  fn p' = fn p /\ ips (res p') = ips (res p) /\
  as_ (res p') = as_ (res p) /\
  fixed_fields (res p') = fixed_fields (res p).
Proof. unfold sbgp_sia_item. intros H. by decoder_cases. Qed.

Lemma sbgp_sia_fixed p ext p' :
  sbgp_sia p ext = Some p' ->
  fn p' = fn p /\ ips (res p') = ips (res p) /\
  as_ (res p') = as_ (res p) /\
  fixed_fields (res p') = fixed_fields (res p).
Proof.
  intros (_ & sia & _ & Hrun & _)%sbgp_sia_Some.
  refine (for_each_invariant
            (fun q => fn q = fn p /\ ips (res q) = ips (res p) /\
                      as_ (res q) = as_ (res p) /\
                      fixed_fields (res q) = fixed_fields (res p))
            sbgp_sia_item sia _ p p' _ Hrun); [|done].
  intros s x s' (H1 & H2 & H3 & H4) (H1' & H2' & H3' & H4')%sbgp_sia_item_fixed.
  repeat split; congruence.
Qed.

Lemma certificate_policies_Some p ext p' :
  certificate_policies p ext = Some p' -> p' = p.
Proof. unfold certificate_policies. intros H. by decoder_cases. Qed.

(** What one extension does to the state. *)
Lemma cert_parse_pre_ext_step x p b i p' b' :
  cert_parse_pre_ext x (p, b) i = Some (p', b') ->
  (ip_appends p p' /\ b' = b) \/
  (as_appends p p' /\ b' = b) \/
  (sbgp_sia p (X509_get_ext x i) = Some p' /\ b' = true) \/
  (p' = p /\ b' = b).
Proof.
  unfold cert_parse_pre_ext. intros H.
  destruct (OBJ_obj2nid _); simplify_eq; try by (right; right; right).
  - destruct (sbgp_ipaddrblk p _) as [q|] eqn:Hq; simplify_eq/=.
    left. split; [|done]. by eapply sbgp_ipaddrblk_appends.
  - destruct (sbgp_assysnum p _) as [q|] eqn:Hq; simplify_eq/=.
    right. left. split; [|done]. by eapply sbgp_assysnum_appends.
  - destruct (sbgp_sia p _) as [q|] eqn:Hq; simplify_eq/=.
    right. right. by left.
  - destruct (certificate_policies p _) as [q|] eqn:Hq; simplify_eq/=.
    apply certificate_policies_Some in Hq as ->. by right; right; right.
Qed.

Lemma cert_parse_pre_ext_unrecognized x s i :
  recognized x i = false -> cert_parse_pre_ext x s i = Some s.
Proof.
  destruct s as [p b]. unfold recognized, cert_parse_pre_ext.
  by destruct (OBJ_obj2nid _).
Qed.

Lemma cert_parse_pre_loop_filter x l s :
  for_each (cert_parse_pre_ext x) l s
  = for_each (cert_parse_pre_ext x) (List.filter (recognized x) l) s.
Proof.
  revert s. induction l as [|i l IH]; intros s; [done|].
  cbn [List.filter]. destruct (recognized x i) eqn:Hr.
  - cbn [for_each]. destruct (cert_parse_pre_ext x s i); [apply IH | done].
  - cbn [for_each]. rewrite cert_parse_pre_ext_unrecognized by done.
    apply IH.
Qed.

(** The state of the lists, of the SIA locators and of the untouched
    fields after the loop. *)
Lemma cert_parse_pre_loop_state x l s s' :
  for_each (cert_parse_pre_ext x) l s = Some s' ->
  ((ips (res s.1) = [] \/ ipsz (res s.1) <= MAX_IP_SIZE) ->
   ips (res s'.1) = [] \/ ipsz (res s'.1) <= MAX_IP_SIZE) /\
  ((as_ (res s.1) = [] \/ asz (res s.1) <= MAX_AS_SIZE) ->
   as_ (res s'.1) = [] \/ asz (res s'.1) <= MAX_AS_SIZE) /\
  (sia_state s -> sia_state s') /\
  fixed_fields (res s'.1) = fixed_fields (res s.1).
Proof.
  intros Hrun.
  refine (for_each_invariant
    (fun t =>
       ((ips (res s.1) = [] \/ ipsz (res s.1) <= MAX_IP_SIZE) ->
        ips (res t.1) = [] \/ ipsz (res t.1) <= MAX_IP_SIZE) /\
       ((as_ (res s.1) = [] \/ asz (res s.1) <= MAX_AS_SIZE) ->
        as_ (res t.1) = [] \/ asz (res t.1) <= MAX_AS_SIZE) /\
       (sia_state s -> sia_state t) /\
       fixed_fields (res t.1) = fixed_fields (res s.1))
    (cert_parse_pre_ext x) l _ s s' _ Hrun); [|done].
  intros [p b] i [p' b'] (Hi & Ha & Hs & Hf) Hstep. simpl in *.
  apply cert_parse_pre_ext_step in Hstep
    as [[Hrun' ->]|[[Hrun' ->]|[[Hsia ->]|[-> ->]]]]; [| | |done].
  - pose proof (ip_appends_frame _ _ Hrun') as (_ & es & Hes).
    repeat split.
    + intros H0. by eapply ip_appends_bound; [|apply Hi].
    + intros H0. unfold asz in *. rewrite Hes. simpl. by apply Ha.
    + intros H0. specialize (Hs H0). unfold sia_state in *. simpl in *.
      destruct b.
      * apply sbgp_sia_check_Some. split; [done|].
        apply sbgp_sia_check_Some in Hs as (_ & Hs). by rewrite Hes.
      * by rewrite Hes.
    + by rewrite Hes.
  - pose proof (as_appends_frame _ _ Hrun') as (_ & es & Hes).
    repeat split.
    + intros H0. unfold ipsz in *. rewrite Hes. simpl. by apply Hi.
    + intros H0. by eapply as_appends_bound; [|apply Ha].
    + intros H0. specialize (Hs H0). unfold sia_state in *. simpl in *.
      destruct b.
      * apply sbgp_sia_check_Some. split; [done|].
        apply sbgp_sia_check_Some in Hs as (_ & Hs). by rewrite Hes.
      * by rewrite Hes.
    + by rewrite Hes.
  - pose proof (sbgp_sia_fixed _ _ _ Hsia) as (_ & Hi' & Ha' & Hf').
    repeat split.
    + unfold ipsz in *. rewrite Hi'. apply Hi.
    + unfold asz in *. rewrite Ha'. apply Ha.
    + intros _. unfold sia_state. simpl.
      by apply sbgp_sia_Some in Hsia as (_ & sia & _ & _ & Hc).
    + congruence.
Qed.

Lemma cert_parse_pre_fields_eq x c c0 :
  cert_parse_pre_fields x c = Some c0 ->
  exists v_aki v_ski v_aia v_crl v_expires,
    x509_get_aki x = Some v_aki /\ x509_get_ski x = Some v_ski /\
    x509_get_aia x = Some v_aia /\ x509_get_crl x = Some v_crl /\
    x509_get_expire x = Some v_expires /\
    c0 = {| ips := ips c; as_ := as_ c; repo := repo c; mft := mft c;
            notify := notify c; crl := v_crl; aia := v_aia; aki := v_aki;
            ski := v_ski; talid := talid c;
            purpose := x509_get_purpose x;
            pubkey := pubkey c; x509 := x509 c; expires := v_expires |}.
Proof.
  unfold cert_parse_pre_fields. intros H. decoder_cases.
  by eexists _, _, _, _, _.
Qed.

Lemma cert_parse_pre_required_eq x c0 sia_present c :
  cert_parse_pre_required x c0 sia_present = Some c ->
  (purpose c0 = CERT_PURPOSE_CA /\ c = set_x509 (Some x) c0) \/
  (purpose c0 = CERT_PURPOSE_BGPSEC_ROUTER /\ sia_present = false /\
   c = set_x509 (Some x) (set_pubkey (x509_get_pubkey x) c0)).
Proof.
  unfold cert_parse_pre_required. intros H.
  destruct (purpose c0); [discriminate| |].
  - left. by decoder_cases.
  - right. destruct (x509_get_pubkey x); [|discriminate].
    by decoder_cases.
Qed.

End ExtensionLoop.

(** ** More on the decoders and the assembler *)

(** X1. The IP decoder only appends to the IP list and the AS decoder
    only to the AS list: after [sbgp_ipaddrblk] the record is the one
    before with entries added at the end of [ips], after [sbgp_assysnum]
    the one before with entries added at the end of [as]; no entry is
    removed, reordered or changed, and no other field is written. *)
Theorem resource_decoders_only_append {E : Extern} {K : Checks}
    (p : parse) (ext : X509_EXTENSION) (p' : parse) :
  (sbgp_ipaddrblk p ext = Some p' ->
   fn p' = fn p /\
   exists es, res p' = set_ips (ips (res p) ++ es) (res p)) /\
  (sbgp_assysnum p ext = Some p' ->
   fn p' = fn p /\
   exists es, res p' = set_as (as_ (res p) ++ es) (res p)).
Proof.
  split; intros H.
  - by apply ip_appends_frame, (sbgp_ipaddrblk_appends _ ext).
  - by apply as_appends_frame, (sbgp_assysnum_appends _ ext).
Qed.

Lemma resource_decoders_only_append_witness :
  exists es,
    set_as [CERT_AS_ID 5; CERT_AS_RANGE 10 20] cert_zero
    = set_as (as_ cert_zero ++ es) cert_zero.
Proof.
  apply (proj2 (resource_decoders_only_append (E := sample_env)
                  (K := spec_checks)
                  {| res := cert_zero; fn := "ca.cer" |}
                  (X509_EXTENSION_at 11)
                  {| res := set_as [CERT_AS_ID 5; CERT_AS_RANGE 10 20]
                              cert_zero;
                     fn := "ca.cer" |})).
  vm_compute. reflexivity.
Defined.

(** X2. The lists of an accepted certificate are within the limits: a
    list that is not empty has at most [MAX_IP_SIZE], respectively
    [MAX_AS_SIZE], entries. *)
Theorem accepted_resources_within_limits {E : Extern} {K : Checks}
    (fn : string) (der : option bytes) (c : cert) :
  cert_parse_pre fn der = Done (Some c) ->
  (ips c = [] \/ ipsz c <= MAX_IP_SIZE) /\
  (as_ c = [] \/ asz c <= MAX_AS_SIZE).
Proof.
  unfold cert_parse_pre. intros H.
  destruct der as [d|]; [|discriminate].
  destruct (d2i_X509 d) as [x|] eqn:Hx; [|discriminate].
  destruct (X509_get_ext_count x <? 0); [discriminate|].
  destruct (for_each _ _ _) as [[p b]|] eqn:Hrun; [|discriminate].
  destruct (cert_parse_pre_fields x (res p)) as [c0|] eqn:Hf; [|discriminate].
  injection H as Hr.
  apply cert_parse_pre_loop_state in Hrun as (Hi & Ha & _). simpl in *.
  apply cert_parse_pre_fields_eq in Hf as (? & ? & ? & ? & ? & _ & _ & _ & _ & _ & ->).
  apply cert_parse_pre_required_eq in Hr as [[_ ->]|(_ & _ & ->)];
    unfold ipsz, asz in *; simpl; (split; [apply Hi | apply Ha]); by left.
Qed.

Lemma accepted_resources_within_limits_witness :
  (ips sample_ca = [] \/ ipsz sample_ca <= 200000) /\
  (as_ sample_ca = [] \/ asz sample_ca <= 200000).
Proof.
  apply (accepted_resources_within_limits (E := sample_env)
           (K := spec_checks) "ca.cer" (Some [x01]) sample_ca).
  vm_compute. reflexivity.
Defined.

(** The stages of an accepted certificate, for any checks. *)
Lemma cert_parse_pre_stages {E : Extern} {K : Checks} fn der c :
  cert_parse_pre fn der = Done (Some c) ->
  exists d x p sia_present c0,
    der = Some d /\ d2i_X509 d = Some x /\ 0 <= X509_get_ext_count x /\
    for_each (cert_parse_pre_ext x) (seqZ 0 (X509_get_ext_count x))
      ({| res := cert_zero; fn := fn |}, false) = Some (p, sia_present) /\
    cert_parse_pre_fields x (res p) = Some c0 /\
    cert_parse_pre_required x c0 sia_present = Some c.
Proof.
  unfold cert_parse_pre. intros H.
  destruct der as [d|]; [|discriminate].
  destruct (d2i_X509 d) as [x|] eqn:Hx; [|discriminate].
  destruct (Z.ltb_spec (X509_get_ext_count x) 0); [discriminate|].
  destruct (for_each _ _ _) as [[p b]|] eqn:Hrun; [|discriminate].
  destruct (cert_parse_pre_fields x (res p)) as [c0|] eqn:Hf; [|discriminate].
  injection H as H. by eexists d, x, p, b, c0.
Qed.

Lemma cert_parse_pre_loop_seen {E : Extern} {K : Checks} x l p b p' b' :
  for_each (cert_parse_pre_ext x) l (p, b) = Some (p', b') ->
  b' = b || existsb (is_sia x) l.
Proof.
  revert p b. induction l as [|i l IH]; intros p b H; cbn [for_each] in H.
  - simplify_eq. by rewrite orb_false_r.
  - destruct (cert_parse_pre_ext x (p, b) i) as [[q c]|] eqn:Hi;
      [|discriminate].
    apply IH in H as ->. cbn [existsb]. rewrite orb_assoc. f_equal.
    unfold cert_parse_pre_ext, is_sia in *.
    destruct (OBJ_obj2nid _);
      repeat match type of Hi with
             | option_map _ ?o = _ => destruct o; simplify_eq/=
             end;
      simplify_eq; by rewrite ?orb_false_r, ?orb_true_r.
Qed.

(** X3. In an accepted CA certificate the manifest and the repository
    locators are both set, the manifest locator begins with the
    repository locator and has the file extension of a manifest, and one
    of the extensions is an SIA extension. In an accepted BGPsec router
    certificate no manifest, repository or notification locator is
    set. *)
Theorem accepted_sia_locators {E : Extern} {K : Checks} (fn : string)
    (der : option bytes) (c : cert) :
  cert_parse_pre fn der = Done (Some c) ->
  match purpose c with
  | CERT_PURPOSE_CA =>
      (exists m r rest,
         mft c = Some m /\ repo c = Some r /\ m = (r ++ rest)%string /\
         rtype_from_file_extension m = RTYPE_MFT) /\
      (exists x i,
         x509 c = Some x /\ 0 <= i < X509_get_ext_count x /\
         OBJ_obj2nid (X509_EXTENSION_get_object (X509_get_ext x i))
         = NID_sinfo_access)
  | CERT_PURPOSE_BGPSEC_ROUTER =>
      mft c = None /\ repo c = None /\ notify c = None
  | CERT_PURPOSE_INVALID => False
  end.
Proof.
  intros (d & x & p & b & c0 & -> & Hx & Hn & Hrun & Hf & Hr)%cert_parse_pre_stages.
  pose proof (cert_parse_pre_loop_seen _ _ _ _ _ _ Hrun) as Hseen.
  apply cert_parse_pre_loop_state in Hrun as (_ & _ & Hsia & _).
  specialize (Hsia (conj eq_refl (conj eq_refl eq_refl))).
  unfold sia_state in Hsia. simpl in Hsia.
  apply cert_parse_pre_fields_eq in Hf
    as (? & ? & ? & ? & ? & _ & _ & _ & _ & _ & ->).
  pose proof Hr as Hr'.
  apply cert_parse_pre_required_eq in Hr as [[Hp ->]|(Hp & -> & ->)];
    simpl in *; rewrite Hp.
  - unfold cert_parse_pre_required in Hr'. simpl in Hr'. rewrite Hp in Hr'.
    destruct (mft (res p)) as [m|] eqn:Hm; [|discriminate].
    destruct b; [|destruct Hsia; congruence].
    apply sbgp_sia_check_Some in Hsia as (_ & m' & r & Hm' & Hrepo & Hpre & Hty).
    assert (m' = m) by congruence. subst m'.
    apply strstr_zero, prefix_append in Hpre as [rest ->].
    split; [by exists (r ++ rest)%string, r, rest|].
    simpl in Hseen. symmetry in Hseen.
    apply existsb_exists in Hseen as (i & Hi & Hnid).
    apply list_elem_of_In, elem_of_seqZ in Hi.
    exists x, i. split; [done|]. split; [lia|].
    unfold is_sia in Hnid. by destruct (OBJ_obj2nid _).
  - done.
Qed.

Lemma accepted_sia_locators_witness :
  (exists m r rest,
     mft sample_ca = Some m /\ repo sample_ca = Some r /\
     m = (r ++ rest)%string /\
     rtype_from_file_extension (Extern := sample_env) m = RTYPE_MFT) /\
  (mft sample_router = None /\ repo sample_router = None /\
   notify sample_router = None).
Proof.
  split.
  - apply (proj1 (accepted_sia_locators (E := sample_env) (K := spec_checks)
                    "ca.cer" (Some [x01]) sample_ca eq_refl)).
  - apply (accepted_sia_locators (E := sample_env) (K := spec_checks)
             "router.cer" (Some [x00]) sample_router).
    vm_compute. reflexivity.
Defined.

(** X4. In an accepted certificate the authority and subject key
    identifiers, the AIA and CRL locators and the expiry are the values
    the field extractor gave for the decoded certificate, which the
    record holds; the trust-anchor-group id is zero; a CA certificate has
    no public key. *)
Theorem accepted_fields_as_extracted {E : Extern} {K : Checks}
    (fn : string) (der : option bytes) (c : cert) :
  cert_parse_pre fn der = Done (Some c) ->
  exists d x,
    der = Some d /\ d2i_X509 d = Some x /\ x509 c = Some x /\
    x509_get_aki x = Some (aki c) /\ x509_get_ski x = Some (ski c) /\
    x509_get_aia x = Some (aia c) /\ x509_get_crl x = Some (crl c) /\
    x509_get_expire x = Some (expires c) /\
    talid c = 0 /\
    (purpose c = CERT_PURPOSE_CA -> pubkey c = None).
Proof.
  intros (d & x & p & b & c0 & -> & Hx & Hn & Hrun & Hf & Hr)%cert_parse_pre_stages.
  apply cert_parse_pre_loop_state in Hrun as (_ & _ & _ & Hfix).
  simpl in Hfix. injection Hfix as Htal Hkey _.
  apply cert_parse_pre_fields_eq in Hf
    as (va & vs & vi & vc & ve & Ha & Hs & Hi & Hc & He & ->).
  exists d, x.
  apply cert_parse_pre_required_eq in Hr as [[Hp ->]|(Hp & -> & ->)];
    simpl in *; repeat split; try done.
  intros Hca. congruence.
Qed.

Lemma accepted_fields_as_extracted_witness :
  x509_get_expire (Extern := sample_env) (X509_at 1)
  = Some (expires sample_ca) /\
  talid sample_ca = 0 /\ pubkey sample_ca = None.
Proof.
  destruct (accepted_fields_as_extracted (E := sample_env)
              (K := spec_checks) "ca.cer" (Some [x01]) sample_ca eq_refl)
    as (d & x & _ & _ & Hx & _ & _ & _ & _ & He & Ht & Hk).
  injection Hx as <-. split; [exact He|]. split; [exact Ht|].
  apply Hk. reflexivity.
Defined.

Lemma filter_none {A : Type} (f : A -> bool) (l : list A) :
  (forall x, x ∈ l -> f x = false) -> List.filter f l = [].
Proof.
  induction l as [|x l IH]; intros H; [done|].
  cbn [List.filter]. rewrite (H x) by left.
  apply IH. intros y Hy. apply H. by right.
Qed.

(** The first failure ends the loop: when the loop succeeds, every item
    succeeded in the state it met. *)
Lemma for_each_fails {S A : Type} (body : S -> A -> option S) (l : list A)
    (x : A) (s : S) :
  x ∈ l -> (forall q, body q x = None) -> for_each body l s = None.
Proof.
  intros Hx Hfail. revert s.
  induction l as [|y l IH]; intros s; [by apply elem_of_nil in Hx|].
  cbn [for_each]. apply elem_of_cons in Hx as [<-|Hx].
  - by rewrite Hfail.
  - destruct (body s y); [by apply IH | done].
Qed.

Lemma for_each_invariant_in {S A : Type} (I : S -> Prop)
    (body : S -> A -> option S) (l : list A) :
  (forall s x s', x ∈ l -> I s -> body s x = Some s' -> I s') ->
  forall s s', I s -> for_each body l s = Some s' -> I s'.
Proof.
  induction l as [|x l IH]; intros Hbody s s' Hs Hrun; simpl in Hrun.
  - by inversion Hrun; subst.
  - destruct (body s x) as [s1|] eqn:Hx; [|discriminate].
    eapply IH; [| |exact Hrun].
    + intros t y t' Hy. apply Hbody. by right.
    + eapply Hbody; [left | done..].
Qed.

(** X5. A certificate none of whose extensions is one of the four that
    are decoded is judged by the extracted fields alone: with purpose CA
    it is rejected, and with purpose BGPsec router it is accepted as soon
    as the extractors give their fields, a public key and a subject key
    identifier; the record then has empty lists and no SIA locator. *)
Theorem cert_without_recognized_extensions {E : Extern} {K : Checks}
    (fn : string) (d : bytes) (x : X509) :
  d2i_X509 d = Some x ->
  0 <= X509_get_ext_count x ->
  (forall i, 0 <= i < X509_get_ext_count x -> recognized x i = false) ->
  (x509_get_purpose x = CERT_PURPOSE_CA ->
   cert_parse_pre fn (Some d) = Done None) /\
  (x509_get_purpose x = CERT_PURPOSE_BGPSEC_ROUTER ->
   forall v_aki v_aia v_crl v_expires s k,
     x509_get_aki x = Some v_aki -> x509_get_ski x = Some (Some s) ->
     x509_get_aia x = Some v_aia -> x509_get_crl x = Some v_crl ->
     x509_get_expire x = Some v_expires ->
     x509_get_pubkey x = Some k ->
     cert_parse_pre fn (Some d)
     = Done (Some {| ips := []; as_ := []; repo := None; mft := None;
                     notify := None; crl := v_crl; aia := v_aia;
                     aki := v_aki; ski := Some s; talid := 0;
                     purpose := CERT_PURPOSE_BGPSEC_ROUTER;
                     pubkey := Some k; x509 := Some x;
                     expires := v_expires |})).
Proof.
  intros Hx Hn Hnone.
  assert (Hloop : for_each (cert_parse_pre_ext x)
                    (seqZ 0 (X509_get_ext_count x))
                    ({| res := cert_zero; fn := fn |}, false)
                  = Some ({| res := cert_zero; fn := fn |}, false)).
  { rewrite cert_parse_pre_loop_filter, filter_none; [done|].
    intros i Hi%elem_of_seqZ. apply Hnone. lia. }
  unfold cert_parse_pre. rewrite Hx.
  destruct (Z.ltb_spec (X509_get_ext_count x) 0); [lia|].
  rewrite Hloop. cbn [res]. split.
  - intros Hp. unfold cert_parse_pre_fields.
    destruct (x509_get_aki x); [|done]. destruct (x509_get_ski x); [|done].
    destruct (x509_get_aia x); [|done]. destruct (x509_get_crl x); [|done].
    destruct (x509_get_expire x); [|done].
    unfold cert_parse_pre_required. cbn [purpose mft cert_zero]. by rewrite Hp.
  - intros Hp va vi vc ve s k Ha Hs Hi Hc He Hk.
    unfold cert_parse_pre_fields. rewrite Ha, Hs, Hi, Hc, He.
    unfold cert_parse_pre_required. cbn [purpose]. rewrite Hp, Hk. done.
Qed.

Lemma cert_without_recognized_extensions_witness :
  cert_parse_pre (E := sample_env) "router.cer" (Some [x00])
  = Done (Some sample_router).
Proof.
  refine (proj2 (cert_without_recognized_extensions (E := sample_env)
                   (K := spec_checks) "router.cer" [x00] (X509_at 0)
                   eq_refl _ _) eq_refl _ _ _ _ _ _
            eq_refl eq_refl eq_refl eq_refl eq_refl eq_refl).
  - simpl. lia.
  - simpl. intros i Hi. lia.
Defined.

(** X6. RDI items of the AS extension are passed over: an extension whose
    items are all RDI items leaves the record as it was. An item with an
    explicit tag above RDI makes the whole extension fail, wherever it
    stands. *)
Theorem rdi_entries_skipped {E : Extern} {K : Checks} (p : parse)
    (ext : X509_EXTENSION) (sv d : bytes) (sseq : list ASN1_TYPE) :
  X509_EXTENSION_get_critical ext = true ->
  i2d_X509_EXTENSION ext = Some sv ->
  d2i_ASN1_SEQUENCE_ANY sv
  = Some [V_ASN1_OBJECT; V_ASN1_BOOLEAN; V_ASN1_OCTET_STRING d] ->
  d2i_ASN1_SEQUENCE_ANY d = Some sseq ->
  (Forall (fun t => exists dd content,
             t = V_ASN1_OTHER dd /\
             ASN1_frame dd = Some (content, ASID_TYPE_RDI)) sseq ->
   sbgp_assysnum p ext = Some p) /\
  (forall dd content ptag,
     V_ASN1_OTHER dd ∈ sseq ->
     ASN1_frame dd = Some (content, ptag) -> ASID_TYPE_MAX < ptag ->
     sbgp_assysnum p ext = None).
Proof.
  intros Hc Hsv Hseq Hd. unfold sbgp_assysnum. rewrite Hc, Hsv, Hseq, Hd.
  cbn [negb]. clear Hd. split.
  - intros Hall. induction Hall as [|t l (dd & content & -> & Hfr) _ IH];
      [done|].
    cbn [for_each sbgp_assysnum_item]. rewrite Hfr.
    destruct (Z.gtb_spec ASID_TYPE_RDI ASID_TYPE_MAX) as [Hgt|_];
      [unfold ASID_TYPE_MAX in Hgt; lia|].
    rewrite Z.eqb_refl. exact IH.
  - intros dd content ptag Hin Hfr Htag.
    apply (for_each_fails _ _ (V_ASN1_OTHER dd)); [done|].
    intros q. cbn [sbgp_assysnum_item]. rewrite Hfr.
    destruct (Z.gtb_spec ptag ASID_TYPE_MAX); [done | lia].
Qed.

Lemma rdi_entries_skipped_witness :
  sbgp_assysnum (E := sample_env_more) (K := spec_checks)
    {| res := sample_ca; fn := "ca.cer" |} (X509_EXTENSION_at 14)
  = Some {| res := sample_ca; fn := "ca.cer" |}.
Proof.
  apply (proj1 (rdi_entries_skipped (E := sample_env_more)
                  (K := spec_checks) {| res := sample_ca; fn := "ca.cer" |}
                  (X509_EXTENSION_at 14) [x0e] [x50]
                  [V_ASN1_OTHER [x51]; V_ASN1_OTHER [x51]]
                  eq_refl eq_refl eq_refl eq_refl)).
  repeat constructor; by exists [x51], [].
Defined.

(** X7. [certificate_policies] passes exactly when the extension is
    critical, holds one policy, the policy is the one that is asked for,
    and its qualifiers are absent or one CPS qualifier; it leaves the
    record as it was. *)
Theorem certificate_policies_passes_iff {E : Extern} (p : parse)
    (ext : X509_EXTENSION) (p' : parse) :
  certificate_policies p ext = Some p' <->
  p' = p /\
  X509_EXTENSION_get_critical ext = true /\
  exists policy,
    X509V3_EXT_d2i_policies ext = Some [policy] /\
    OBJ_cmp (policyid policy) certpol_oid = 0 /\
    (qualifiers policy = None \/
     exists qualifier,
       qualifiers policy = Some [qualifier] /\
       OBJ_obj2nid (pqualid qualifier) = NID_id_qt_cps).
Proof.
  unfold certificate_policies. split.
  - intros H.
    destruct (X509_EXTENSION_get_critical ext); [|discriminate].
    destruct (X509V3_EXT_d2i_policies ext) as [[|policy [|]]|];
      try discriminate.
    destruct (Z.eqb_spec (OBJ_cmp (policyid policy) certpol_oid) 0)
      as [Hoid|]; [|discriminate]. cbn [negb] in H.
    destruct (qualifiers policy) as [[|q [|]]|] eqn:Hq; try discriminate.
    + destruct (OBJ_obj2nid (pqualid q)) eqn:Hnid; try discriminate.
      simplify_eq. repeat split. exists policy. repeat split; try done.
      right. by exists q.
    + simplify_eq. repeat split. exists policy. repeat split; try done.
      by left.
  - intros (-> & -> & policy & -> & Hoid & Hq). cbn [negb].
    rewrite Hoid. cbn.
    destruct Hq as [->|(q & -> & ->)]; done.
Qed.

Lemma certificate_policies_passes_iff_witness :
  certificate_policies (E := sample_env_more)
    {| res := cert_zero; fn := "ca.cer" |} (X509_EXTENSION_at 15)
  = Some {| res := cert_zero; fn := "ca.cer" |}.
Proof.
  apply (proj2 (certificate_policies_passes_iff (E := sample_env_more)
                  {| res := cert_zero; fn := "ca.cer" |}
                  (X509_EXTENSION_at 15)
                  {| res := cert_zero; fn := "ca.cer" |})).
  split; [reflexivity|]. split; [reflexivity|].
  exists {| policyid := ASN1_OBJECT_at 103; qualifiers := None |}.
  split; [reflexivity|]. split; [reflexivity|]. left. reflexivity.
Defined.

(** X8. An SIA extension does not pass on a record without a manifest
    locator when none of its access descriptions is taken as the
    manifest, nor on a record without a repository locator when none is
    a caRepository description. *)
Theorem sbgp_sia_needs_both_locators {E : Extern} (p : parse)
    (ext : X509_EXTENSION) (sia : list ACCESS_DESCRIPTION) :
  X509V3_EXT_d2i_sia ext = Some sia ->
  (mft (res p) = None ->
   (forall ad, ad ∈ sia -> taken_as_manifest ad = false) ->
   sbgp_sia p ext = None) /\
  (repo (res p) = None ->
   (forall ad, ad ∈ sia -> OBJ_cmp (method ad) carepo_oid <> 0) ->
   sbgp_sia p ext = None).
Proof.
  intros Hsia. unfold sbgp_sia. rewrite Hsia.
  destruct (X509_EXTENSION_get_critical ext); [done|].
  split.
  - intros Hm Hnone.
    destruct (for_each sbgp_sia_item sia p) as [q|] eqn:Hq; [|done].
    assert (Hmq : mft (res q) = None).
    { refine (for_each_invariant_in (fun q => mft (res q) = None)
                sbgp_sia_item sia _ p q Hm Hq).
      intros s ad s' Had Hs Hstep. specialize (Hnone ad Had).
      unfold taken_as_manifest in Hnone. unfold sbgp_sia_item in Hstep.
      destruct (OBJ_cmp (method ad) carepo_oid =? 0);
        [by decoder_cases|].
      destruct (OBJ_cmp (method ad) manifest_oid =? 0); [done|].
      by decoder_cases. }
    unfold sbgp_sia_check. by rewrite Hmq.
  - intros Hr Hnone.
    destruct (for_each sbgp_sia_item sia p) as [q|] eqn:Hq; [|done].
    assert (Hrq : repo (res q) = None).
    { refine (for_each_invariant_in (fun q => repo (res q) = None)
                sbgp_sia_item sia _ p q Hr Hq).
      intros s ad s' Had Hs Hstep. specialize (Hnone ad Had).
      unfold sbgp_sia_item in Hstep.
      destruct (Z.eqb_spec (OBJ_cmp (method ad) carepo_oid) 0); [done|].
      by decoder_cases. }
    unfold sbgp_sia_check. rewrite Hrq. by destruct (mft (res q)).
Qed.

Lemma sbgp_sia_needs_both_locators_witness :
  sbgp_sia (E := sample_env_more) {| res := cert_zero; fn := "ca.cer" |}
    (X509_EXTENSION_at 16) = None.
Proof.
  apply (proj1 (sbgp_sia_needs_both_locators (E := sample_env_more)
                  {| res := cert_zero; fn := "ca.cer" |}
                  (X509_EXTENSION_at 16) _ eq_refl)).
  - reflexivity.
  - intros ad Had. apply list_elem_of_In in Had.
    destruct Had as [<-|[]]. reflexivity.
Defined.

(** ** More on the second and third stage *)

Lemma cert_parse_Some fn p r :
  cert_parse fn p = Done (Some r) ->
  r = p /\ aki p <> None /\ aia p <> None /\ crl p <> None.
Proof. unfold cert_parse. intros H. by decoder_cases. Qed.

Lemma ta_parse_Some {E : Extern} fn p pkey r :
  ta_parse fn p pkey = Done (Some r) -> aia p = None /\ crl p = None.
Proof.
  unfold ta_parse. intros H.
  repeat match type of H with
         | context [match ?o with _ => _ end] =>
             destruct o eqn:?; try discriminate; cbn [negb] in H
         end; done.
Qed.

(** X9. No record passes both the second stage for subordinate
    certificates and the third stage for trust anchors. *)
Theorem subordinate_is_no_trust_anchor {E : Extern} (fn fn' : string)
    (p : cert) (pkey : bytes) (r : cert) :
  cert_parse fn p = Done (Some r) ->
  forall r', ta_parse fn' p pkey <> Done (Some r').
Proof.
  intros (_ & _ & Haia & _)%cert_parse_Some r' [Hno _]%ta_parse_Some.
  by apply Haia.
Qed.

Lemma subordinate_is_no_trust_anchor_witness :
  ta_parse (E := sample_env) "ca.cer" sample_ca [x01]
  <> Done (Some sample_ca).
Proof.
  apply (subordinate_is_no_trust_anchor (E := sample_env) "ca.cer" "ca.cer"
           sample_ca [x01] sample_ca).
  reflexivity.
Defined.

(** X10. [ta_parse] returns the record it was given when the public key
    of the TAL decodes and compares equal to the key of the certificate,
    notBefore is not later than the current time and notAfter is later,
    the authority key identifier is absent or equal to the subject key
    identifier, there is no AIA locator and no CRL distribution point, and
    the purpose is not BGPsec router. *)
Theorem ta_parse_accepts {E : Extern} (fn : string) (p : cert)
    (pkey : bytes) (pk opk : EVP_PKEY) (notBefore notAfter : ASN1_TIME)
    (tb ta : Z) (s : string) :
  d2i_PUBKEY pkey = Some pk ->
  X509_get0_pubkey (x509 p) = Some opk ->
  EVP_PKEY_cmp pk opk = 1 ->
  X509_get_notBefore (x509 p) = Some notBefore ->
  X509_get_notAfter (x509 p) = Some notAfter ->
  ASN1_TIME_seconds notBefore = Some tb ->
  ASN1_TIME_seconds notAfter = Some ta ->
  tb <= current_time < ta ->
  ski p = Some s ->
  (aki p = None \/ aki p = Some s) ->
  aia p = None -> crl p = None ->
  purpose p <> CERT_PURPOSE_BGPSEC_ROUTER ->
  ta_parse fn p pkey = Done (Some p).
Proof.
  intros Hpk Hopk Hcmp Hnb Hna Htb Hta Hnow Hs Haki Haia Hcrl Hpur.
  unfold ta_parse, X509_cmp_current_time.
  rewrite Hpk, Hopk, Hcmp, Hnb, Hna, Htb, Hta, Haia, Hcrl, Hs.
  cbn [Z.eqb Pos.eqb negb].
  destruct (Z.leb_spec tb current_time); [|lia].
  destruct (Z.leb_spec ta current_time); [lia|]. cbn.
  assert (Hrest : match purpose p with
                  | CERT_PURPOSE_BGPSEC_ROUTER => Done None
                  | _ => Done (Some p)
                  end = Done (Some p)) by by destruct (purpose p).
  destruct Haki as [->| ->]; [done|].
  destruct (Z.eqb_spec (strcmp s s) 0) as [|Hne]; [done|].
  destruct Hne. by apply strcmp_zero.
Qed.

Lemma ta_parse_accepts_witness :
  ta_parse (E := sample_env) "ta.cer" sample_ta [x03]
  = Done (Some sample_ta).
Proof.
  apply (ta_parse_accepts (E := sample_env) "ta.cer" sample_ta [x03]
           (EVP_PKEY_at 3) (EVP_PKEY_at 3) (ASN1_TIME_at 100)
           (ASN1_TIME_at 200) 100 200 "AB");
    try reflexivity.
  - simpl. lia.
  - by left.
  - discriminate.
Defined.

(** X11. [ta_parse] returns no record for a certificate whose notAfter is
    not later than the current time, in particular equal to it, nor for
    one whose notBefore is later than the current time; it does not end
    the process on them. *)
Theorem ta_parse_outside_validity {E : Extern} (fn : string) (p : cert)
    (pkey : bytes) :
  (forall notAfter ta,
     X509_get_notAfter (x509 p) = Some notAfter ->
     ASN1_TIME_seconds notAfter = Some ta ->
     ta <= current_time ->
     ta_parse fn p pkey = Done None) /\
  (forall notBefore tb,
     X509_get_notBefore (x509 p) = Some notBefore ->
     ASN1_TIME_seconds notBefore = Some tb ->
     current_time < tb ->
     ta_parse fn p pkey = Done None).
Proof.
  split.
  - intros na ta Hna Hta Hle. unfold ta_parse, X509_cmp_current_time.
    rewrite Hna, Hta.
    destruct (d2i_PUBKEY pkey); [|done].
    destruct (X509_get0_pubkey (x509 p)); [|done].
    destruct (negb _); [done|].
    destruct (X509_get_notBefore (x509 p)) as [nb|]; [|done].
    destruct (negb _); [done|].
    destruct (Z.leb_spec ta current_time); [done | lia].
  - intros nb tb Hnb Htb Hlt. unfold ta_parse, X509_cmp_current_time.
    rewrite Hnb, Htb.
    destruct (d2i_PUBKEY pkey); [|done].
    destruct (X509_get0_pubkey (x509 p)); [|done].
    destruct (negb _); [done|].
    destruct (X509_get_notAfter (x509 p)) as [na|]; [|done].
    destruct (Z.leb_spec tb current_time); [lia | done].
Qed.

Lemma ta_parse_outside_validity_witness :
  ta_parse (E := sample_env_more) "old.cer"
    (set_x509 (Some (X509_at 4)) sample_ta) [x04] = Done None.
Proof.
  apply (proj1 (ta_parse_outside_validity (E := sample_env_more) "old.cer"
                  (set_x509 (Some (X509_at 4)) sample_ta) [x04])
           (ASN1_TIME_at 120) 120 eq_refl eq_refl).
  simpl. lia.
Defined.

(** ** More on the transport *)

(** X12. A record that [cert_read] returns has a subject key identifier,
    has a manifest locator unless its purpose is BGPsec router, and holds
    no decoded certificate; on any other content of the buffer the
    process ends. *)
Theorem cert_read_checked_record (cert_purpose_t : ctype cert_purpose)
    (cert_ip_t : ctype cert_ip) (cert_as_t : ctype cert_as)
    (b : bytes) (c : cert) (rest : bytes) :
  cert_read cert_purpose_t cert_ip_t cert_as_t b = Done (c, rest) ->
  ski c <> None /\
  (mft c <> None \/ purpose c = CERT_PURPOSE_BGPSEC_ROUTER) /\
  x509 c = None.
Proof.
  unfold cert_read. intros H.
  destruct (io_read_buf b time_t) as [|[v_expires b1]]; [discriminate|].
  cbn [mbind outcome_bind] in H.
  destruct (io_read_buf b1 cert_purpose_t) as [|[v_purpose b2]];
    [discriminate|]. cbn [mbind outcome_bind] in H.
  destruct (io_read_buf b2 int) as [|[v_talid b3]]; [discriminate|].
  cbn [mbind outcome_bind] in H.
  destruct (io_read_buf b3 size_t) as [|[v_ipsz b4]]; [discriminate|].
  cbn [mbind outcome_bind] in H.
  destruct (io_read_buf b4 size_t) as [|[v_asz b5]]; [discriminate|].
  cbn [mbind outcome_bind] in H.
  destruct (io_read_buf_array b5 cert_ip_t _) as [|[v_ips b6]];
    [discriminate|]. cbn [mbind outcome_bind] in H.
  destruct (io_read_buf_array b6 cert_as_t _) as [|[v_as b7]];
    [discriminate|]. cbn [mbind outcome_bind] in H.
  destruct (io_read_str b7) as [|[v_mft b8]]; [discriminate|].
  cbn [mbind outcome_bind] in H.
  destruct (io_read_str b8) as [|[v_notify b9]]; [discriminate|].
  cbn [mbind outcome_bind] in H.
  destruct (io_read_str b9) as [|[v_repo b10]]; [discriminate|].
  cbn [mbind outcome_bind] in H.
  destruct (io_read_str b10) as [|[v_crl b11]]; [discriminate|].
  cbn [mbind outcome_bind] in H.
  destruct (io_read_str b11) as [|[v_aia b12]]; [discriminate|].
  cbn [mbind outcome_bind] in H.
  destruct (io_read_str b12) as [|[v_aki b13]]; [discriminate|].
  cbn [mbind outcome_bind] in H.
  destruct (io_read_str b13) as [|[v_ski b14]]; [discriminate|].
  cbn [mbind outcome_bind] in H.
  destruct (io_read_str b14) as [|[v_pubkey b15]]; [discriminate|].
  cbn [mbind outcome_bind] in H.
  cbn [mft purpose ski] in H.
  destruct v_ski as [s|]; [|by destruct v_mft, v_purpose].
  destruct v_mft as [m|].
  - injection H as <- <-. simpl. repeat split; [done | by left].
  - destruct v_purpose; try discriminate.
    injection H as <- <-. simpl. repeat split; [done | by right].
Qed.

Lemma cert_read_checked_record_witness :
  ski (set_x509 None sample_ca) <> None /\
  (mft (set_x509 None sample_ca) <> None \/
   purpose (set_x509 None sample_ca) = CERT_PURPOSE_BGPSEC_ROUTER) /\
  x509 (set_x509 None sample_ca) = None.
Proof.
  apply (cert_read_checked_record sample_purpose_t sample_ip_t sample_as_t
           (cert_buffer sample_purpose_t sample_ip_t sample_as_t []
              sample_ca)
           (set_x509 None sample_ca) []).
  vm_compute. reflexivity.
Defined.

(** ** Order of the router keys *)

Lemma ascii_compare_lt_trans (a b c : ascii) :
  Ascii.compare a b = Lt -> Ascii.compare b c = Lt -> Ascii.compare a c = Lt.
Proof.
  unfold Ascii.compare. rewrite !N.compare_lt_iff. apply N.lt_trans.
Qed.

Lemma string_compare_lt_trans (a b c : string) :
  String.compare a b = Lt -> String.compare b c = Lt ->
  String.compare a c = Lt.
Proof.
  revert b c. induction a as [|x a IH]; intros [|y b] [|z c]; simpl;
    try done.
  destruct (Ascii.compare x y) eqn:Hxy; try done.
  - apply Ascii.compare_eq_iff in Hxy as ->.
    destruct (Ascii.compare y z); try done. apply IH.
  - intros _. destruct (Ascii.compare y z) eqn:Hyz; try done.
    + apply Ascii.compare_eq_iff in Hyz as ->. by rewrite Hxy.
    + by rewrite (ascii_compare_lt_trans x y z).
Qed.

Lemma strcmp_swap (a b : string) : strcmp b a = - strcmp a b.
Proof.
  unfold strcmp. rewrite (String.compare_antisym a b).
  by destruct (String.compare b a).
Qed.

Lemma strcmp_neg_trans (a b c : string) :
  strcmp a b < 0 -> strcmp b c < 0 -> strcmp a c < 0.
Proof.
  unfold strcmp. intros Hab Hbc.
  rewrite (string_compare_lt_trans a b c); [lia | |].
  - destruct (String.compare a b); [lia | done | lia].
  - destruct (String.compare b c); [lia | done | lia].
Qed.

(** X13. [brkcmp] is a three-way comparison on (AS, SKI, public key): it
    is zero exactly on entries that agree on the three, swapping the
    entries turns a negative result into a positive one, and being
    smaller is transitive; expiry and trust-anchor-group id play no
    part. *)
Theorem brkcmp_three_way (a b c : brk) :
  (brkcmp a b = 0 <->
   b_asid a = b_asid b /\ b_ski a = b_ski b /\ b_pubkey a = b_pubkey b) /\
  (brkcmp a b < 0 <-> 0 < brkcmp b a) /\
  (brkcmp a b < 0 -> brkcmp b c < 0 -> brkcmp a c < 0).
Proof.
  split; [|split].
  - split.
    + intros Hz. apply brkcmp_zero in Hz. unfold brk_key in Hz.
      by injection Hz.
    + intros (Ha & Hs & Hk). apply brkcmp_zero. unfold brk_key.
      congruence.
  - unfold brkcmp.
    rewrite (strcmp_swap (b_ski a) (b_ski b)),
            (strcmp_swap (b_pubkey a) (b_pubkey b)).
    repeat match goal with
           | |- context [?x >? ?y] => destruct (Z.gtb_spec x y)
           | |- context [?x <? ?y] => destruct (Z.ltb_spec x y)
           end; lia.
  - unfold brkcmp.
    pose proof (strcmp_neg_trans (b_ski a) (b_ski b) (b_ski c)) as Hs.
    pose proof (strcmp_neg_trans (b_pubkey a) (b_pubkey b) (b_pubkey c))
      as Hk.
    pose proof (strcmp_zero (b_ski a) (b_ski b)) as Hab.
    pose proof (strcmp_zero (b_ski b) (b_ski c)) as Hbc.
    repeat match goal with
           | |- context [?x >? ?y] => destruct (Z.gtb_spec x y)
           | |- context [?x <? ?y] => destruct (Z.ltb_spec x y)
           end; try lia.
    all: intros Hlt1 Hlt2.
    all: try (assert (b_ski a = b_ski b) as Heq by (apply Hab; lia);
              rewrite Heq in *; lia).
    all: try (assert (b_ski b = b_ski c) as Heq by (apply Hbc; lia);
              rewrite <- Heq in *; lia).
Qed.

Lemma brkcmp_three_way_witness :
  brkcmp {| b_asid := 1; b_ski := "AB"; b_pubkey := "K"; b_expires := 5;
            b_talid := 0 |}
         {| b_asid := 1; b_ski := "AB"; b_pubkey := "K"; b_expires := 9;
            b_talid := 3 |} = 0.
Proof.
  apply (proj1 (brkcmp_three_way _ _
                  {| b_asid := 0; b_ski := ""; b_pubkey := "";
                     b_expires := 0; b_talid := 0 |})).
  repeat split.
Defined.

(** ** Growth of the router-key index *)

Lemma for_each_do_invariant {S A : Type} (I : S -> Prop)
    (body : S -> A -> outcome S) (l : list A) :
  (forall s x s', I s -> body s x = Done s' -> I s') ->
  forall s s', I s -> for_each_do body l s = Done s' -> I s'.
Proof.
  intros Hbody. induction l as [|x l IH]; intros s s' Hs Hrun;
    cbn [for_each_do] in Hrun.
  - by injection Hrun as <-.
  - destruct (body s x) as [|s1] eqn:Hx; [discriminate|].
    cbn [mbind outcome_bind] in Hrun. eapply IH; [|exact Hrun]. eauto.
Qed.

(** What a turn of a loop brings about holds at the end, when the later
    turns keep it. *)
Lemma for_each_do_establish {S A : Type} (body : S -> A -> outcome S)
    (P : A -> S -> Prop) (l : list A) :
  (forall s x s', body s x = Done s' -> P x s') ->
  (forall s y s' x, body s y = Done s' -> P x s -> P x s') ->
  forall s s', for_each_do body l s = Done s' ->
  forall x, x ∈ l -> P x s'.
Proof.
  intros Hest Hkeep. induction l as [|y l IH]; intros s s' Hrun x Hx.
  - by apply elem_of_nil in Hx.
  - cbn [for_each_do] in Hrun.
    destruct (body s y) as [|s1] eqn:Hy; [discriminate|].
    cbn [mbind outcome_bind] in Hrun.
    apply elem_of_cons in Hx as [->|Hx]; [|by eapply IH].
    refine (for_each_do_invariant (P y) body l _ s1 s' _ Hrun).
    + intros t z t' Ht Hz. by eapply Hkeep.
    + by eapply Hest.
Qed.

Lemma brk_persists_refl t : brk_persists t t.
Proof. intros key b Hb. exists b. by repeat split. Qed.

Lemma brk_persists_trans t1 t2 t3 :
  brk_persists t1 t2 -> brk_persists t2 t3 -> brk_persists t1 t3.
Proof.
  intros H12 H23 key b Hb.
  destruct (H12 key b Hb) as (b2 & Hb2 & He2 & Ha2 & Hs2 & Hk2).
  destruct (H23 key b2 Hb2) as (b3 & Hb3 & He3 & Ha3 & Hs3 & Hk3).
  exists b3. repeat split; [done | lia | congruence..].
Qed.

Lemma insert_brk_persists tree cert asid tree' :
  insert_brk tree cert asid = Done tree' -> brk_persists tree tree'.
Proof.
  unfold insert_brk, RB_INSERT. intros H.
  destruct (ski cert) as [s|]; [|discriminate].
  destruct (pubkey cert) as [k|]; [|discriminate].
  unfold brk_key in H. cbn [b_asid b_ski b_pubkey b_expires b_talid] in H.
  destruct (tree !! (asid, s, k)) as [found|] eqn:Hf.
  - destruct (Z.ltb_spec (b_expires found) (expires cert)) as [Hlt|Hge];
      injection H as <-; [|apply brk_persists_refl].
    intros key b Hb. destruct (decide (key = (asid, s, k))) as [->|Hne].
    + rewrite lookup_insert_eq. eexists. split; [done|]. simpl.
      assert (b = found) by congruence. subst b. repeat split. lia.
    + rewrite lookup_insert_ne by done. exists b. by repeat split.
  - injection H as <-. intros key b Hb.
    destruct (decide (key = (asid, s, k))) as [->|Hne]; [congruence|].
    rewrite lookup_insert_ne by done. exists b. by repeat split.
Qed.

Lemma insert_brk_range_persists cert ids tree tree' :
  for_each_do (fun t asid => insert_brk t cert (to_int asid)) ids tree
  = Done tree' ->
  brk_persists tree tree'.
Proof.
  apply (for_each_do_invariant (brk_persists tree)); [|apply brk_persists_refl].
  intros s x s' Hs Hx. eapply brk_persists_trans; [done|].
  by eapply insert_brk_persists.
Qed.

Lemma cert_insert_brks_entry_persists cert t d a t' d' :
  cert_insert_brks_entry cert (t, d) a = Done (t', d') ->
  brk_persists t t'.
Proof.
  unfold cert_insert_brks_entry. intros H. destruct a as [id|lo hi|].
  - destruct (insert_brk t cert (to_int id)) as [|t1] eqn:H1;
      [discriminate|]. cbn [mbind outcome_bind] in H.
    injection H as <- _. by eapply insert_brk_persists.
  - destruct (for_each_do _ _ t) as [|t1] eqn:H1; [discriminate|].
    cbn [mbind outcome_bind] in H. injection H as <- _.
    by eapply insert_brk_range_persists.
  - injection H as <- _. apply brk_persists_refl.
Qed.

(** X14. The router-key index only grows: after [insert_brk], and after
    [cert_insert_brks], every entry that was in the index is still there
    under its key, with the same AS, SKI and public key, and with an
    expiry that is not earlier than before. *)
Theorem brk_index_only_grows (tree : brk_tree) (cert : cert) (asid : Z)
    (tree' : brk_tree) (diag : list string) :
  insert_brk tree cert asid = Done tree' \/
  cert_insert_brks tree cert = Done (tree', diag) ->
  brk_persists tree tree'.
Proof.
  intros [H|H].
  - by apply insert_brk_persists in H.
  - unfold cert_insert_brks in H.
    change (brk_persists tree (tree', diag).1).
    refine (for_each_do_invariant (fun s => brk_persists tree s.1)
              (cert_insert_brks_entry cert) (as_ cert) _
              (tree, []) (tree', diag) _ H).
    + intros [t d] a [t' d'] Hs Ha. simpl in *.
      eapply brk_persists_trans; [done|].
      by eapply cert_insert_brks_entry_persists.
    + apply brk_persists_refl.
Qed.

Lemma brk_index_only_grows_witness :
  brk_persists
    (<[(64496, "AB"%string, "KEY"%string) :=
         {| b_asid := 64496; b_ski := "AB"; b_pubkey := "KEY";
            b_expires := 1000; b_talid := 0 |}]> ∅)
    (<[(64496, "AB"%string, "KEY"%string) :=
         {| b_asid := 64496; b_ski := "AB"; b_pubkey := "KEY";
            b_expires := 2000; b_talid := 7 |}]> ∅).
Proof.
  apply (brk_index_only_grows _
           (set_as [CERT_AS_ID 64496] sample_router_renewed) 0 _ []).
  right. vm_compute. reflexivity.
Defined.

Lemma insert_brk_holds tree cert asid tree' :
  insert_brk tree cert asid = Done tree' -> brk_holds cert asid tree'.
Proof.
  unfold insert_brk, RB_INSERT, brk_holds. intros H.
  destruct (ski cert) as [s|]; [|discriminate].
  destruct (pubkey cert) as [k|]; [|discriminate].
  unfold brk_key in H. cbn [b_asid b_ski b_pubkey b_expires b_talid] in H.
  exists s, k.
  destruct (tree !! (asid, s, k)) as [found|] eqn:Hf.
  - destruct (Z.ltb_spec (b_expires found) (expires cert)) as [Hlt|Hge];
      injection H as <-.
    + eexists. rewrite lookup_insert_eq. repeat split. simpl. lia.
    + exists found. by repeat split.
  - injection H as <-. eexists. rewrite lookup_insert_eq.
    repeat split. simpl. lia.
Qed.

Lemma brk_holds_persists cert asid t t' :
  brk_persists t t' -> brk_holds cert asid t -> brk_holds cert asid t'.
Proof.
  intros Hp (s & k & b & Hs & Hk & Hb & He).
  destruct (Hp _ _ Hb) as (b' & Hb' & He' & _).
  exists s, k, b'. repeat split; [done..|lia].
Qed.

Lemma insert_brk_range_holds cert ids tree tree' :
  for_each_do (fun t asid => insert_brk t cert (to_int asid)) ids tree
  = Done tree' ->
  forall id, id ∈ ids -> brk_holds cert (to_int id) tree'.
Proof.
  apply (for_each_do_establish
           (fun t asid => insert_brk t cert (to_int asid))
           (fun id t => brk_holds cert (to_int id) t)).
  - intros s x s' H. by eapply insert_brk_holds.
  - intros s y s' x H. apply brk_holds_persists.
    by eapply insert_brk_persists.
Qed.

Lemma cert_insert_brks_entry_holds cert t d a t' d' :
  cert_insert_brks_entry cert (t, d) a = Done (t', d') ->
  forall id, as_covers a id -> brk_holds cert (to_int id) t'.
Proof.
  unfold cert_insert_brks_entry. intros H id Hid.
  destruct a as [i|lo hi|]; cbn [as_covers] in Hid; [| |done].
  - subst id. destruct (insert_brk t cert (to_int i)) as [|t1] eqn:H1;
      [discriminate|]. cbn [mbind outcome_bind] in H.
    injection H as <- _. by eapply insert_brk_holds.
  - destruct (for_each_do _ _ t) as [|t1] eqn:H1; [discriminate|].
    cbn [mbind outcome_bind] in H. injection H as <- _.
    eapply insert_brk_range_holds; [exact H1|].
    apply elem_of_seqZ. lia.
Qed.

(** X15. After [cert_insert_brks] the index has an entry for every AS
    number that an identifier or a range of the certificate covers,
    under the certificate's SKI and public key, and that entry expires no
    earlier than the certificate. *)
Theorem cert_insert_brks_covers (tree : brk_tree) (cert : cert)
    (tree' : brk_tree) (diag : list string) (a : cert_as) (id : Z) :
  cert_insert_brks tree cert = Done (tree', diag) ->
  a ∈ as_ cert -> as_covers a id ->
  exists s k b,
    ski cert = Some s /\ pubkey cert = Some k /\
    tree' !! (to_int id, s, k) = Some b /\ expires cert <= b_expires b.
Proof.
  intros H Ha Hid. unfold cert_insert_brks in H.
  change (brk_holds cert (to_int id) (tree', diag).1).
  revert id Hid.
  refine (for_each_do_establish (cert_insert_brks_entry cert)
            (fun a s => forall id, as_covers a id ->
                                   brk_holds cert (to_int id) s.1)
            (as_ cert) _ _ (tree, []) (tree', diag) H a Ha).
  - intros [t d] x [t' d'] Hx id Hid. simpl.
    by eapply cert_insert_brks_entry_holds.
  - intros [t d] y [t' d'] x Hy Hx id Hid. simpl in *.
    eapply brk_holds_persists; [|by apply Hx].
    by eapply cert_insert_brks_entry_persists.
Qed.

Lemma cert_insert_brks_covers_witness :
  exists s k b,
    Some "AB"%string = Some s /\ Some "KEY"%string = Some k /\
    (<[(64497, "AB"%string, "KEY"%string) :=
         {| b_asid := 64497; b_ski := "AB"; b_pubkey := "KEY";
            b_expires := 1000; b_talid := 0 |}]>
       (<[(64496, "AB"%string, "KEY"%string) :=
            {| b_asid := 64496; b_ski := "AB"; b_pubkey := "KEY";
               b_expires := 1000; b_talid := 0 |}]> (∅ : brk_tree)))
      !! (to_int 64497, s, k) = Some b /\
    1000 <= b_expires b.
Proof.
  apply (cert_insert_brks_covers ∅
           (set_as [CERT_AS_RANGE 64496 64497] sample_router) _ []
           (CERT_AS_RANGE 64496 64497) 64497).
  - vm_compute. reflexivity.
  - simpl. left.
  - simpl. lia.
Defined.

Lemma insert_brk_noop tree cert asid :
  brk_holds cert asid tree -> insert_brk tree cert asid = Done tree.
Proof.
  intros (s & k & b & Hs & Hk & Hb & He).
  unfold insert_brk, RB_INSERT, brk_key. rewrite Hs, Hk.
  cbn [b_asid b_ski b_pubkey b_expires b_talid]. rewrite Hb.
  by destruct (Z.ltb_spec (b_expires b) (expires cert)); [lia|].
Qed.

Lemma insert_brk_range_noop cert ids tree :
  (forall id, id ∈ ids -> brk_holds cert (to_int id) tree) ->
  for_each_do (fun t asid => insert_brk t cert (to_int asid)) ids tree
  = Done tree.
Proof.
  induction ids as [|id ids IH]; intros H; cbn [for_each_do]; [done|].
  rewrite insert_brk_noop by (apply H; left).
  cbn [mbind outcome_bind]. apply IH. intros id' Hid'. apply H. by right.
Qed.

Lemma cert_insert_brks_loop_noop cert l tree diag :
  (forall a id, a ∈ l -> as_covers a id ->
                brk_holds cert (to_int id) tree) ->
  for_each_do (cert_insert_brks_entry cert) l (tree, diag)
  = Done (tree, diag ++ map (fun _ => "invalid AS identifier type"%string)
                            (List.filter as_is_inherit l)).
Proof.
  revert diag. induction l as [|a l IH]; intros diag H; cbn [for_each_do].
  - by rewrite app_nil_r.
  - assert (Hl : forall a' id, a' ∈ l -> as_covers a' id ->
                               brk_holds cert (to_int id) tree).
    { intros a' id Ha'. apply H. by right. }
    destruct a as [i|lo hi|];
      cbn [cert_insert_brks_entry List.filter as_is_inherit].
    + rewrite insert_brk_noop by (apply (H (CERT_AS_ID i)); [left|done]).
      cbn [mbind outcome_bind]. by apply IH.
    + rewrite insert_brk_range_noop.
      * cbn [mbind outcome_bind]. by apply IH.
      * intros id Hid%elem_of_seqZ.
        apply (H (CERT_AS_RANGE lo hi)); [left|]. simpl. lia.
    + cbn [mbind outcome_bind]. rewrite IH by done.
      by rewrite <- app_assoc.
Qed.

Lemma cert_insert_brks_loop_diag cert l tree diag tree' diag' :
  for_each_do (cert_insert_brks_entry cert) l (tree, diag)
  = Done (tree', diag') ->
  diag' = diag ++ map (fun _ => "invalid AS identifier type"%string)
                      (List.filter as_is_inherit l).
Proof.
  revert tree diag. induction l as [|a l IH]; intros tree diag H;
    cbn [for_each_do] in H.
  - injection H as _ <-. by rewrite app_nil_r.
  - destruct (cert_insert_brks_entry cert (tree, diag) a) as [|[t1 d1]]
      eqn:Ha; [discriminate|]. cbn [mbind outcome_bind] in H.
    apply IH in H. subst diag'.
    unfold cert_insert_brks_entry in Ha.
    destruct a as [i|lo hi|]; cbn [List.filter as_is_inherit].
    + destruct (insert_brk tree cert (to_int i)); [discriminate|].
      cbn [mbind outcome_bind] in Ha. by injection Ha as _ <-.
    + destruct (for_each_do _ _ tree); [discriminate|].
      cbn [mbind outcome_bind] in Ha. by injection Ha as _ <-.
    + injection Ha as _ <-. by rewrite <- app_assoc.
Qed.

(** X16. [cert_insert_brks] is idempotent: run again for the same
    certificate on the index it has left, it leaves that index as it is
    and writes the same diagnostics. *)
Theorem cert_insert_brks_idempotent (tree : brk_tree) (cert : cert)
    (tree' : brk_tree) (diag : list string) :
  cert_insert_brks tree cert = Done (tree', diag) ->
  cert_insert_brks tree' cert = Done (tree', diag).
Proof.
  intros H. unfold cert_insert_brks.
  rewrite cert_insert_brks_loop_noop.
  - apply cert_insert_brks_loop_diag in H. by subst diag.
  - intros a id Ha Hid. unfold cert_insert_brks in H.
    change (brk_holds cert (to_int id) (tree', diag).1).
    revert id Hid.
    refine (for_each_do_establish (cert_insert_brks_entry cert)
              (fun a s => forall id, as_covers a id ->
                                     brk_holds cert (to_int id) s.1)
              (as_ cert) _ _ (tree, []) (tree', diag) H a Ha).
    + intros [t d] x [t' d'] Hx id Hid. simpl.
      by eapply cert_insert_brks_entry_holds.
    + intros [t d] y [t' d'] x Hy Hx id Hid. simpl in *.
      eapply brk_holds_persists; [|by apply Hx].
      by eapply cert_insert_brks_entry_persists.
Qed.

Lemma cert_insert_brks_idempotent_witness :
  cert_insert_brks
    (<[(64496, "AB"%string, "KEY"%string) :=
         {| b_asid := 64496; b_ski := "AB"; b_pubkey := "KEY";
            b_expires := 1000; b_talid := 0 |}]> (∅ : brk_tree))
    (set_as [CERT_AS_INHERIT; CERT_AS_ID 64496] sample_router)
  = Done (<[(64496, "AB"%string, "KEY"%string) :=
              {| b_asid := 64496; b_ski := "AB"; b_pubkey := "KEY";
                 b_expires := 1000; b_talid := 0 |}]> (∅ : brk_tree),
          ["invalid AS identifier type"%string]).
Proof.
  apply (cert_insert_brks_idempotent ∅). vm_compute. reflexivity.
Defined.

Lemma insert_brk_keyed tree cert asid tree' :
  brk_keyed tree -> insert_brk tree cert asid = Done tree' ->
  brk_keyed tree'.
Proof.
  unfold insert_brk, RB_INSERT. intros Hkeyed H.
  destruct (ski cert) as [s|]; [|discriminate].
  destruct (pubkey cert) as [k|]; [|discriminate].
  unfold brk_key in H. cbn [b_asid b_ski b_pubkey b_expires b_talid] in H.
  destruct (tree !! (asid, s, k)) as [found|] eqn:Hf.
  - destruct (b_expires found <? expires cert); injection H as <-; [|done].
    intros key b Hb. destruct (decide (key = (asid, s, k))) as [->|Hne].
    + rewrite lookup_insert_eq in Hb. injection Hb as <-.
      apply Hkeyed in Hf. exact Hf.
    + rewrite lookup_insert_ne in Hb by done. by apply Hkeyed.
  - injection H as <-. intros key b Hb.
    destruct (decide (key = (asid, s, k))) as [->|Hne].
    + rewrite lookup_insert_eq in Hb. by injection Hb as <-.
    + rewrite lookup_insert_ne in Hb by done. by apply Hkeyed.
Qed.

Lemma cert_insert_brks_entry_keyed cert t d a t' d' :
  brk_keyed t -> cert_insert_brks_entry cert (t, d) a = Done (t', d') ->
  brk_keyed t'.
Proof.
  unfold cert_insert_brks_entry. intros Hkeyed H. destruct a as [id|lo hi|].
  - destruct (insert_brk t cert (to_int id)) as [|t1] eqn:H1;
      [discriminate|]. cbn [mbind outcome_bind] in H.
    injection H as <- _. by eapply insert_brk_keyed.
  - destruct (for_each_do _ _ t) as [|t1] eqn:H1; [discriminate|].
    cbn [mbind outcome_bind] in H. injection H as <- _.
    refine (for_each_do_invariant brk_keyed _ _ _ t t1 Hkeyed H1).
    intros s x s' Hs Hx. by eapply insert_brk_keyed.
  - by injection H as <- _.
Qed.

(** X17. The router-key index keeps its entries under their own keys:
    when each entry of the index has the AS, SKI and public key it is
    filed under, the same holds after [insert_brk] and after
    [cert_insert_brks], and then two entries filed under different keys
    never compare equal by [brkcmp]. *)
Theorem brk_index_keyed (tree : brk_tree) (cert : cert) (asid : Z)
    (tree' : brk_tree) (diag : list string) :
  brk_keyed tree ->
  insert_brk tree cert asid = Done tree' \/
  cert_insert_brks tree cert = Done (tree', diag) ->
  brk_keyed tree' /\
  (forall key1 key2 b1 b2,
     tree' !! key1 = Some b1 -> tree' !! key2 = Some b2 ->
     key1 <> key2 -> brkcmp b1 b2 <> 0).
Proof.
  intros Hkeyed H.
  assert (Hkeyed' : brk_keyed tree').
  { destruct H as [H|H]; [by eapply insert_brk_keyed|].
    unfold cert_insert_brks in H.
    change (brk_keyed (tree', diag).1).
    refine (for_each_do_invariant (fun s => brk_keyed s.1)
              (cert_insert_brks_entry cert) (as_ cert) _
              (tree, []) (tree', diag) Hkeyed H).
    intros [t d] a [t' d'] Hs Ha. simpl in *.
    by eapply cert_insert_brks_entry_keyed. }
  split; [done|].
  intros key1 key2 b1 b2 H1 H2 Hne Hcmp. apply Hne.
  apply brkcmp_zero in Hcmp.
  apply Hkeyed' in H1, H2. congruence.
Qed.

Lemma brk_index_keyed_witness :
  brk_keyed
    (<[(64496, "AB"%string, "KEY"%string) :=
         {| b_asid := 64496; b_ski := "AB"; b_pubkey := "KEY";
            b_expires := 1000; b_talid := 0 |}]> (∅ : brk_tree)).
Proof.
  apply (brk_index_keyed ∅ (set_as [CERT_AS_ID 64496] sample_router) 0 _ []).
  - intros key b Hb. by rewrite lookup_empty in Hb.
  - right. vm_compute. reflexivity.
Defined.

Lemma to_int_inj (a b : Z) :
  0 <= a < 2 ^ 32 -> 0 <= b < 2 ^ 32 -> to_int a = to_int b -> a = b.
Proof.
  unfold to_int. intros Ha Hb Hab.
  assert (H : (a + 2 ^ 31) mod 2 ^ 32 = (b + 2 ^ 31) mod 2 ^ 32) by lia.
  clear Hab. revert H.
  pose proof (Z.div_mod (a + 2 ^ 31) (2 ^ 32) ltac:(lia)).
  pose proof (Z.div_mod (b + 2 ^ 31) (2 ^ 32) ltac:(lia)).
  pose proof (Z.mod_pos_bound (a + 2 ^ 31) (2 ^ 32) ltac:(lia)).
  pose proof (Z.mod_pos_bound (b + 2 ^ 31) (2 ^ 32) ltac:(lia)).
  intros Heq. nia.
Qed.

(** X18. On an empty index, [cert_insert_brks] for a certificate whose
    only AS resource is the range from [lo] to [hi], within the 32-bit
    AS numbers, writes no diagnostic and leaves one entry for each number
    of the range: [hi - lo + 1] entries, and none when [hi] is below
    [lo]. *)
Theorem cert_insert_brks_range_size (cert : cert) (s k : string)
    (lo hi : Z) :
  ski cert = Some s -> pubkey cert = Some k ->
  as_ cert = [CERT_AS_RANGE lo hi] ->
  0 <= lo -> hi < 2 ^ 32 ->
  exists tree',
    cert_insert_brks ∅ cert = Done (tree', []) /\
    Z.of_nat (size tree') = Z.max 0 (hi - lo + 1).
Proof.
  intros Hs Hk Has Hlo Hhi. unfold cert_insert_brks. rewrite Has.
  destruct (cert_insert_brks_loop cert s k [CERT_AS_RANGE lo hi] ∅ [] Hs Hk)
    as (tree' & Hrun & Hdom & _).
  exists tree'. split; [exact Hrun|].
  assert (Hset : dom tree'
                 = list_to_set ((fun id => (to_int id, s, k))
                                <$> seqZ lo (hi - lo + 1))).
  { apply set_eq. intros key.
    rewrite Hdom, elem_of_list_to_set, list_elem_of_fmap. split.
    - intros [Hin|(a & id & Ha & Hid & ->)].
      + by rewrite dom_empty_L in Hin.
      + apply list_elem_of_singleton in Ha. subst a. simpl in Hid.
        exists id. split; [done|]. apply elem_of_seqZ. lia.
    - intros (id & -> & Hid%elem_of_seqZ). right.
      exists (CERT_AS_RANGE lo hi), id.
      split; [apply list_elem_of_singleton; done|]. split; [simpl; lia|done]. }
  rewrite <- size_dom, Hset, size_list_to_set.
  - rewrite length_fmap, length_seqZ. lia.
  - apply NoDup_fmap_2_strong; [|apply NoDup_seqZ].
    intros a b Ha%elem_of_seqZ Hb%elem_of_seqZ Hab.
    injection Hab as Hab. apply to_int_inj; [lia..|done].
Qed.

Lemma cert_insert_brks_range_size_witness :
  exists tree',
    cert_insert_brks ∅ (set_as [CERT_AS_RANGE 64496 64511] sample_router)
    = Done (tree', []) /\
    Z.of_nat (size tree') = Z.max 0 (64511 - 64496 + 1).
Proof.
  apply (cert_insert_brks_range_size
           (set_as [CERT_AS_RANGE 64496 64511] sample_router) "AB" "KEY");
    [reflexivity | reflexivity | reflexivity | lia | lia].
Defined.

(** ** Growth of the trust index *)

Lemma auth_insert_Done auths cert parent auths' :
  auth_insert auths cert parent = Done auths' ->
  exists k,
    ski cert = Some k /\ auths !! k = None /\
    auths' = <[k := mk_auth cert parent]> auths.
Proof.
  unfold auth_insert, RB_INSERT. intros H.
  destruct (ski cert) as [k|]; [|discriminate]. exists k.
  destruct (auths !! k) as [found|] eqn:Hf; [discriminate|].
  by injection H as <-.
Qed.

Lemma auth_built_keyed auths :
  auth_built auths ->
  forall k a, auths !! k = Some a -> ski (auth_cert a) = Some k.
Proof.
  induction 1 as [|auths cert parent auths' Hb IH Hins]; intros k a Ha.
  - by rewrite lookup_empty in Ha.
  - apply auth_insert_Done in Hins as (k0 & Hk0 & Hnone & ->).
    destruct (decide (k = k0)) as [->|Hne].
    + rewrite lookup_insert_eq in Ha. by injection Ha as <-.
    + rewrite lookup_insert_ne in Ha by done. by apply IH.
Qed.

(** X19. In a trust index built by [auth_insert] from the empty one,
    [auth_find] for a key returns only a certificate whose SKI is that
    key, so the issuer found for a certificate's AKI has that AKI as its
    SKI; two entries under different keys compare unequal by [authcmp];
    and an [auth_insert] that returns leaves every earlier entry to be
    found as before. *)
Theorem auth_index_keyed (auths : auth_tree) :
  auth_built auths ->
  (forall k a, auth_find auths k = Some a -> ski (auth_cert a) = Some k) /\
  (forall k1 k2 a1 a2,
     auth_find auths k1 = Some a1 -> auth_find auths k2 = Some a2 ->
     k1 <> k2 -> exists z, authcmp a1 a2 = Some z /\ z <> 0) /\
  (forall cert parent auths',
     auth_insert auths cert parent = Done auths' ->
     auth_built auths' /\
     forall k a, auth_find auths k = Some a -> auth_find auths' k = Some a).
Proof.
  intros Hb. pose proof (auth_built_keyed auths Hb) as Hkeyed.
  unfold auth_find, RB_FIND. split; [exact Hkeyed|]. split.
  - intros k1 k2 a1 a2 H1 H2 Hne.
    apply Hkeyed in H1, H2. unfold authcmp. rewrite H1, H2.
    eexists. split; [done|]. intros Hz. by apply strcmp_zero in Hz.
  - intros cert parent auths' Hins. split; [by econstructor|].
    apply auth_insert_Done in Hins as (k0 & Hk0 & Hnone & ->).
    intros k a Ha. rewrite lookup_insert_ne; [done|]. congruence.
Qed.

Lemma auth_index_keyed_witness :
  auth_built (<["AB"%string := mk_auth sample_ta None]> ∅) /\
  ski (auth_cert (mk_auth sample_ta None)) = Some "AB"%string.
Proof.
  assert (Hb : auth_built (<["AB"%string := mk_auth sample_ta None]> ∅))
    by (apply (auth_built_insert ∅ sample_ta None);
        [constructor | reflexivity]).
  split; [exact Hb|].
  apply (proj1 (auth_index_keyed _ Hb) "AB"%string).
  apply lookup_insert_eq.
Defined.

(** ** Option parsing of sndiod *)

Lemma append_nil_r (s : string) : (s ++ "")%string = s.
Proof.
  induction s as [|a s IH]; [done|]. by rewrite append_String, IH.
Qed.

Lemma length_append (s t : string) :
  String.length (s ++ t)%string = (String.length s + String.length t)%nat.
Proof.
  induction s as [|a s IH]; [done|].
  rewrite append_String. simpl. by rewrite IH.
Qed.

Lemma getword_at (word str rest : string) :
  getword word str = Some rest <->
  str = (word ++ rest)%string /\ at_delimiter rest.
Proof.
  revert str. induction word as [|w word IH]; intros str; cbn [getword].
  - change ("" ++ rest)%string with rest. split.
    + destruct str as [|c p].
      * intros [= <-]. split; [done | by left].
      * destruct (Ascii.eqb_spec c ","); [|done].
        intros [= <-]. subst c. split; [done | right; by eexists].
    + intros [<- [->|[r ->]]]; [done|]. by rewrite Ascii.eqb_refl.
  - rewrite append_String. destruct str as [|c p].
    + split; [done | by intros [? _]].
    + destruct (Ascii.eqb_spec w c) as [->|Hne].
      * rewrite IH. split.
        -- by intros [-> ?].
        -- by intros [[= ->] ?].
      * split; [done|]. intros [[= ? ?] _]. by subst.
Qed.

Section OptModeFacts.
Context {D : Defs}.

Lemma mode_of_word_Some (w : string) (mask : Z) :
  mode_of_word w = Some mask <->
  (w = "play"%string /\ mask = MODE_PLAY) \/
  (w = "rec"%string /\ mask = MODE_REC) \/
  (w = "mon"%string /\ mask = MODE_MON) \/
  (w = "midi"%string /\ mask = MODE_MIDIMASK).
Proof.
  unfold mode_of_word. split.
  - destruct (String.eqb_spec w "play") as [->|?]; [intros [= <-]; tauto|].
    destruct (String.eqb_spec w "rec") as [->|?]; [intros [= <-]; tauto|].
    destruct (String.eqb_spec w "mon") as [->|?]; [intros [= <-]; tauto|].
    destruct (String.eqb_spec w "midi") as [->|?]; [intros [= <-]; tauto|].
    discriminate.
  - intros [[-> ->]|[[-> ->]|[[-> ->]|[-> ->]]]]; done.
Qed.

Lemma opt_mode_word_Some (mode : Z) (p : string) (mode' : Z) (p' : string) :
  opt_mode_word mode p = Some (mode', p') <->
  exists w mask,
    mode_of_word w = Some mask /\ p = (w ++ p')%string /\
    at_delimiter p' /\ mode' = Z.lor mode mask.
Proof.
  unfold opt_mode_word. split.
  - intros H.
    destruct (getword "play" p) as [r|] eqn:H1.
    { injection H as <- <-. apply getword_at in H1 as [-> ?].
      by exists "play"%string, MODE_PLAY. }
    destruct (getword "rec" p) as [r|] eqn:H2.
    { injection H as <- <-. apply getword_at in H2 as [-> ?].
      by exists "rec"%string, MODE_REC. }
    destruct (getword "mon" p) as [r|] eqn:H3.
    { injection H as <- <-. apply getword_at in H3 as [-> ?].
      by exists "mon"%string, MODE_MON. }
    destruct (getword "midi" p) as [r|] eqn:H4; [|discriminate].
    injection H as <- <-. apply getword_at in H4 as [-> ?].
    by exists "midi"%string, MODE_MIDIMASK.
  - intros (w & mask & Hw & -> & Hd & ->).
    assert (Hg : getword w (w ++ p') = Some p') by by apply getword_at.
    apply mode_of_word_Some in Hw
      as [[-> ->]|[[-> ->]|[[-> ->]|[-> ->]]]].
    + by rewrite Hg.
    + change (getword "play" ("rec" ++ p')) with (@None string).
      by rewrite Hg.
    + change (getword "play" ("mon" ++ p')) with (@None string).
      change (getword "rec" ("mon" ++ p')) with (@None string).
      by rewrite Hg.
    + change (getword "play" ("midi" ++ p')) with (@None string).
      change (getword "rec" ("midi" ++ p')) with (@None string).
      change (getword "mon" ("midi" ++ p')) with (@None string).
      by rewrite Hg.
Qed.

Lemma opt_mode_word_length (mode : Z) (p : string) (mode' : Z) (p' : string) :
  opt_mode_word mode p = Some (mode', p') ->
  (String.length p' < String.length p)%nat.
Proof.
  intros (w & mask & Hw & -> & _)%opt_mode_word_Some.
  rewrite length_append.
  apply mode_of_word_Some in Hw as [[-> _]|[[-> _]|[[-> _]|[-> _]]]];
    simpl; lia.
Qed.

Lemma opt_mode_loop_returns (fuel : nat) (mode : Z) (p : string) :
  (String.length p < fuel)%nat ->
  exists r, opt_mode_loop fuel mode p = Some r.
Proof.
  revert mode p. induction fuel as [|fuel IH]; intros mode p Hlen; [lia|].
  cbn [opt_mode_loop].
  destruct (opt_mode_word mode p) as [[mode' p']|] eqn:Hw; [|by eexists].
  apply opt_mode_word_length in Hw.
  destruct p' as [|c p'']; [by eexists|].
  apply IH. simpl in Hw. lia.
Qed.

Lemma opt_mode_loop_Done (fuel : nat) (mode : Z) (p : string) (m : Z) :
  (String.length p < fuel)%nat ->
  opt_mode_loop fuel mode p = Some (Done m) <->
  exists ws masks,
    ws <> [] /\ p = String.concat "," ws /\
    Forall2 (fun w mask => mode_of_word w = Some mask) ws masks /\
    m = fold_left Z.lor masks mode.
Proof.
  intros Hlen. split.
  - revert mode p Hlen. induction fuel as [|fuel IH]; intros mode p Hlen H;
      [lia|]. cbn [opt_mode_loop] in H.
    destruct (opt_mode_word mode p) as [[mode' p']|] eqn:Hw; [|discriminate].
    pose proof (opt_mode_word_length _ _ _ _ Hw) as Hlt.
    apply opt_mode_word_Some in Hw as (w & mask & Hw & -> & Hd & ->).
    destruct p' as [|c p''].
    + injection H as <-. exists [w], [mask].
      split; [done|]. split; [by rewrite append_nil_r|].
      split; [by repeat constructor | done].
    + destruct Hd as [?|[r [= -> <-]]]; [done|].
      apply IH in H as (ws & masks & Hne & -> & Hall & ->);
        [|simpl in Hlt; lia].
      exists (w :: ws), (mask :: masks). split; [done|]. split.
      * destruct ws; [done|]. reflexivity.
      * split; [by constructor | done].
  - intros (ws & masks & Hne & -> & Hall & ->).
    revert fuel mode Hlen. induction Hall as [|w mask ws masks Hw Hall IH];
      intros fuel mode Hlen; [done|].
    destruct fuel as [|fuel]; [lia|]. cbn [opt_mode_loop fold_left].
    destruct ws as [|w2 ws].
    + apply Forall2_nil_inv_l in Hall as ->.
      cbn [String.concat fold_left].
      assert (Hword : opt_mode_word mode w = Some (Z.lor mode mask, ""%string)).
      { apply opt_mode_word_Some. exists w, mask.
        rewrite append_nil_r. repeat split; [done|by left]. }
      by rewrite Hword.
    + assert (Hword : opt_mode_word mode (String.concat "," (w :: w2 :: ws))
                      = Some (Z.lor mode mask,
                              String "," (String.concat "," (w2 :: ws)))).
      { apply opt_mode_word_Some. exists w, mask.
        repeat split; [done|]. right. by eexists. }
      rewrite Hword. apply IH; [done|].
      apply opt_mode_word_length in Hword.
      cbn [String.length] in Hword. lia.
Qed.

End OptModeFacts.

(** X20. [getword] returns 1 exactly when the string at [*str] is the
    word followed by a comma or by the end of the string, and then
    [*str] is moved to what follows the word; in every other case it
    returns 0. *)
Theorem getword_accepts (word str rest : string) :
  (getword word str = Some rest <->
   str = (word ++ rest)%string /\
   (rest = ""%string \/ exists r, rest = String "," r)) /\
  (getword word str = None <->
   forall r, str = (word ++ r)%string ->
             r <> ""%string /\ forall r', r <> String "," r').
Proof.
  split; [apply getword_at|]. split.
  - intros Hnone r ->. split.
    + intros ->. assert (getword word (word ++ "") = Some ""%string) as Hs
        by (apply getword_at; split; [done | by left]). congruence.
    + intros r' ->.
      assert (getword word (word ++ String "," r') = Some (String "," r'))
        as Hs by (apply getword_at; split; [done | right; by eexists]).
      congruence.
  - intros H. destruct (getword word str) as [r|] eqn:Hg; [|done].
    apply getword_at in Hg as [-> Hd]. destruct (H r eq_refl) as [H1 H2].
    destruct Hd as [->|[r' ->]]; [done | by destruct (H2 r')].
Qed.

Lemma getword_accepts_witness :
  getword "rec" "rec,mon" = Some ",mon"%string.
Proof.
  apply (proj1 (getword_accepts "rec" "rec,mon" ",mon")).
  split; [reflexivity|]. right. by exists "mon"%string.
Defined.

(** X21. [opt_mode] comes to an end on every argument. It returns a mode
    exactly for a list of one or more of the words play, rec, mon and
    midi with a comma between each two, when the bits of these words,
    or-ed together, are not zero; that value is the mode returned. On
    every other argument it ends the process. *)
Theorem opt_mode_accepts {D : Defs} (optarg : string) :
  (exists r, opt_mode optarg = Some r) /\
  (forall m,
     opt_mode optarg = Some (Done m) <->
     exists ws masks,
       ws <> [] /\ optarg = String.concat "," ws /\
       Forall2 (fun w mask => mode_of_word w = Some mask) ws masks /\
       m = fold_left Z.lor masks 0 /\ m <> 0).
Proof.
  assert (Hlen : (String.length optarg < S (String.length optarg))%nat)
    by lia.
  destruct (opt_mode_loop_returns _ 0 optarg Hlen) as [r Hr].
  pose proof (fun m => opt_mode_loop_Done _ 0 optarg m Hlen) as Hdone.
  unfold opt_mode. rewrite Hr in *. split.
  - destruct r as [|mode]; [by eexists|]. destruct (mode =? 0); by eexists.
  - intros m. destruct r as [|mode].
    + split; [done|]. intros (ws & masks & ? & ? & ? & ? & _).
      assert (Some (@Fatal Z) = Some (Done m)) as [=].
      apply Hdone. by exists ws, masks.
    + destruct (Z.eqb_spec mode 0) as [->|Hnz].
      * split; [done|]. intros (ws & masks & ? & ? & ? & ? & Hm).
        assert (Some (Done 0) = Some (Done m)) as [= <-]; [|done].
        apply Hdone. by exists ws, masks.
      * split.
        -- intros [= <-].
           destruct (proj1 (Hdone mode) eq_refl) as (ws & masks & ? & ? & ? & ?).
           by exists ws, masks.
        -- intros (ws & masks & ? & ? & ? & ? & Hm).
           apply Hdone. by exists ws, masks.
Qed.

Lemma opt_mode_accepts_witness :
  opt_mode (D := sample_defs) "play,rec" = Some (Done 3).
Proof.
  apply (proj2 (opt_mode_accepts (D := sample_defs) "play,rec") 3).
  exists ["play"%string; "rec"%string], [1; 2].
  split; [done|]. split; [reflexivity|].
  split; [by repeat constructor|]. split; [reflexivity | lia].
Defined.
